(** * gocat: tokenizer, parser and stack type checker

    A shallow embedding of the Go package [gocat] (tokenizer, AST and type
    vocabulary, recursive-descent parser, type inference and checking),
    followed by theorems that relate the package's specification to what
    the code computes.

    Conventions of the embedding.
    - A Go function returning [(T, error)] becomes a function into
      [result T]: [Ok] for a nil error, [Err] for a non-nil error value,
      [Panic] for a run-time panic (explicit [panic(...)], nil dereference,
      index out of range).
    - Methods on [*tokenizer] and [*Parser] mutate their receiver; they are
      functions in the state monad [M], which keeps the state reached when
      an error is returned, since callers may go on using the receiver.
    - Go's [for] loops without a static bound take a [fuel : nat]; the entry
      points compute the fuel from the unread input.  [OutOfFuel] is a
      fourth outcome that corresponds to no behaviour of the Go program:
      no entry point of the tokenizer or of the parser returns it
      ([fuel_suffices]). *)

From Stdlib Require Import ZArith String Ascii List Bool Lia DecimalString.
From Stdlib Require Import Permutation Sorted ListDec.
From Stdlib Require OrderedTypeEx.
From stdpp Require Import gmap strings list.
Import ListNotations.

Set Warnings "-register-all".

(** ** Source positions and tokens *)

Record FilePos := mkFilePos {
  LineNumber : Z;   (* uint32 *)
  CharNumber : Z;   (* uint32 *)
  FilePath : string
}.

Inductive TokenType :=
| TT_EOF | TT_FUNC | TT_SEMICOLON | TT_COLON | TT_LITINT | TT_LITFLOAT
| TT_IDENT | TT_LCBRACKET | TT_RCBRACKET | TT_LPAREN | TT_RPAREN
| TT_NUMSIGN | TT_QUOT | TT_IF | TT_LBRACKET | TT_RBRACKET.

Record Token := mkToken {
  SVal : string;
  Typ : TokenType;   (* the field [Type] *)
  Pos : FilePos
}.

(** ** Types

    The Go interface [Type] is implemented by [*VoidType], [*PrimType],
    [*UnionType] and [*FuncType]; [InvalidType] is the nil interface value
    ([var InvalidType Type = nil]).  [ContractType] has no [String] method
    and therefore is not a [Type]. *)

Inductive Type_ :=
| InvalidType
| VoidType
| PrimType (name : string)
| UnionType (Types : list Type_)
| FuncType (ArgTypes RetTypes : list Type_).

Record Arg := mkArg {
  Arg_Name : string;
  Arg_Type : Type_
}.

Definition VoidArg : Arg := mkArg "" InvalidType.

(** ** Errors and results *)

Inductive error :=
| TokenizerError (pos : FilePos) (err : option string)
    (* [Err] is itself an [error]; [None] is a nil [Err] field *)
| ParserError (tk : Token) (msg : string)
| TypeError (Wanted Got : Type_) (tk : option Token) (Extra : string)
| ErrorString (msg : string).   (* fmt.Errorf *)

Inductive result (A : Type) :=
| Ok (a : A)
| Err (e : error)
| Panic (msg : string)
| OutOfFuel.
Arguments Ok {A} a.
Arguments Err {A} e.
Arguments Panic {A} msg.
Arguments OutOfFuel {A}.

Definition rbind {A B} (r : result A) (k : A -> result B) : result B :=
  match r with
  | Ok a => k a
  | Err e => Err e
  | Panic msg => Panic msg
  | OutOfFuel => OutOfFuel
  end.

Declare Scope result_scope.
Delimit Scope result_scope with res.
Notation "x <-r m ; k" := (rbind m (fun x => k))
  (at level 100, m at next level, right associativity, only parsing) : result_scope.

(** State and result: [M S A] runs on a state [S], returns an outcome and
    the state the receiver is left in. *)
Definition M (S A : Type) := S -> result A * S.

Definition ret {S A} (a : A) : M S A := fun s => (Ok a, s).
Definition fail {S A} (e : error) : M S A := fun s => (Err e, s).
Definition panic {S A} (msg : string) : M S A := fun s => (Panic msg, s).
Definition out_of_fuel {S A} : M S A := fun s => (OutOfFuel, s).

Definition bind {S A B} (m : M S A) (k : A -> M S B) : M S B :=
  fun s =>
    match m s with
    | (Ok a, s') => k a s'
    | (Err e, s') => (Err e, s')
    | (Panic msg, s') => (Panic msg, s')
    | (OutOfFuel, s') => (OutOfFuel, s')
    end.

(** [attempt m] exposes the [(value, err)] pair of a call whose error the
    caller inspects itself instead of returning it. *)
Definition attempt {S A} (m : M S A) : M S (result A) :=
  fun s => let '(r, s') := m s in (Ok r, s').

Declare Scope monad_scope.
Delimit Scope monad_scope with M.
Notation "x <- m ;; k" := (bind m (fun x => k))
  (at level 100, m at next level, right associativity, only parsing) : monad_scope.
Notation "m ;;; k" := (bind m (fun _ => k))
  (at level 100, right associativity, only parsing) : monad_scope.

(** ** Formatting helpers (package fmt, strconv, strings) *)

Definition dquote : string := String (ascii_of_nat 34) EmptyString.

(** [%d] and [%v] of an integer. *)
Definition fmt_d (z : Z) : string := NilZero.string_of_int (Z.to_int z).

(** [%q] of a string made of printable ASCII without quote or backslash,
    the only kind formatted with [%q] in this package. *)
Definition fmt_q (s : string) : string := dquote +:+ s +:+ dquote.

Fixpoint strings_Join (l : list string) (sep : string) : string :=
  match l with
  | [] => ""
  | [s] => s
  | s :: l' => s +:+ sep +:+ strings_Join l' sep
  end.

(** [strings.Compare]: bytewise lexicographic order, as -1, 0 or 1. *)
Definition strings_Compare (a b : string) : Z :=
  match String.compare a b with
  | Lt => -1
  | Eq => 0
  | Gt => 1
  end.

Fixpoint strings_ContainsRune (s : string) (c : ascii) : bool :=
  match s with
  | EmptyString => false
  | String a s' => Ascii.eqb a c || strings_ContainsRune s' c
  end.

(** ** The type algebra *)

(** [String()] of a type.  Calling it on the nil interface does not return
    a string in Go; no path of this development formats [InvalidType], the
    placeholder keeps the function total. *)
Fixpoint Type_String (t : Type_) : string :=
  match t with
  | InvalidType => "<nil>"
  | VoidType => "void"
  | PrimType name => name
  | UnionType ts => "{" +:+ strings_Join (map Type_String ts) " " +:+ "}"
  | FuncType args rets =>
      "func{" +:+ strings_Join (map Type_String args) " " +:+ " : "
        +:+ strings_Join (map Type_String rets) " " +:+ "}"
  end.

Definition BUG_cmp : string := "BUG: can't compare these types?".

(** [TypeCmp].  The first length test compares [len(ut1.Types)] with
    itself, exactly as the source does. *)
Fixpoint TypeCmp (t1 t2 : Type_) : result Z :=
  match t1 with
  | VoidType =>
      match t2 with
      | VoidType => Ok 0%Z
      | _ => Ok (-1)%Z
      end
  | PrimType a =>
      match t2 with
      | PrimType b => Ok (strings_Compare a b)
      | VoidType => Ok 1%Z
      | UnionType _ => Ok (-1)%Z
      | _ => Panic BUG_cmp
      end
  | UnionType ts1 =>
      match t2 with
      | PrimType _ => Ok 1%Z
      | VoidType => Ok 1%Z
      | UnionType ts2 =>
          if length ts1 <? length ts1 then Ok (-1)%Z
          else if length ts2 <? length ts1 then Ok 1%Z
          else
            (fix loop (l1 l2 : list Type_) {struct l1} : result Z :=
               match l1 with
               | [] => Ok 0%Z
               | x :: l1' =>
                   match l2 with
                   | [] => Panic "index out of range"
                   | y :: l2' =>
                       match TypeCmp x y with
                       | Ok c => if (c =? 0)%Z then loop l1' l2' else Ok c
                       | r => r
                       end
                   end
               end) ts1 ts2
      | _ => Panic BUG_cmp
      end
  | _ => Panic BUG_cmp
  end.

Definition TypeEqual (t1 t2 : Type_) : result bool :=
  (c <-r TypeCmp t1 t2; Ok (c =? 0)%Z)%res.

Fixpoint TypesEqual_loop (ts1 ts2 : list Type_) : result bool :=
  match ts1, ts2 with
  | x :: ts1', y :: ts2' =>
      (b <-r TypeEqual x y; if b then TypesEqual_loop ts1' ts2' else Ok false)%res
  | _, _ => Ok true
  end.

Definition TypesEqual (ts1 ts2 : list Type_) : result bool :=
  if negb (length ts1 =? length ts2) then Ok false
  else TypesEqual_loop ts1 ts2.

(** [sort.Slice(types, less)] with
    [less i j = TypeCmp(types[i], types[j]) < 0].  On slices of at most 12
    elements Go's pattern-defeating quicksort is an insertion sort: element
    [i] moves left while it is less than its left neighbour; that is the
    algorithm modelled, at every length.  The parser only sorts prims, which
    [TypeCmp] orders totally, so that any sorting algorithm returns the same
    slice.  [rprefix] is the sorted prefix, last element first. *)
Fixpoint sort_insert (x : Type_) (rprefix : list Type_) : result (list Type_) :=
  match rprefix with
  | [] => Ok [x]
  | y :: rprefix' =>
      (c <-r TypeCmp x y;
       if (c <? 0)%Z
       then (r <-r sort_insert x rprefix'; Ok (y :: r))
       else Ok (x :: rprefix))%res
  end.

Fixpoint sort_Slice_from (rprefix todo : list Type_) : result (list Type_) :=
  match todo with
  | [] => Ok (rev rprefix)
  | x :: todo' =>
      (rp <-r sort_insert x rprefix; sort_Slice_from rp todo')%res
  end.

Definition sort_Slice (types : list Type_) : result (list Type_) :=
  sort_Slice_from [] types.

(** The duplicate scan of [NewUnionType]: [prev] is [types[i-1]], absent
    for [i = 0]; [all] is the whole sorted slice, for the message. *)
Fixpoint NewUnionType_scan (all : list Type_) (prev : option Type_)
    (rest : list Type_) : result unit :=
  match rest with
  | [] => Ok tt
  | x :: rest' =>
      match prev with
      | None => NewUnionType_scan all (Some x) rest'
      | Some p =>
          (b <-r TypeEqual x p;
           if b
           then Err (ErrorString ("Duplicate type `" +:+ Type_String x
                       +:+ "` in union type `" +:+ Type_String (UnionType all)
                       +:+ "`."))
           else NewUnionType_scan all (Some x) rest')%res
      end
  end.

Definition NewUnionType (types : list Type_) : result Type_ :=
  (sorted <-r sort_Slice types;
   _ <-r NewUnionType_scan sorted None sorted;
   Ok (UnionType sorted))%res.

Definition BUG_compat : string := "BUG: Can't tell if compatible or not?".

(** [for _, typ := range ts { if TypeEqual(a, typ) { found } }] *)
Fixpoint compat_member (a : Type_) (ts : list Type_) : result bool :=
  match ts with
  | [] => Ok false
  | typ :: ts' =>
      (b <-r TypeEqual a typ; if b then Ok true else compat_member a ts')%res
  end.

Fixpoint compat_subset (ts_a ts_b : list Type_) : result bool :=
  match ts_a with
  | [] => Ok true
  | typ_a :: ts_a' =>
      (found <-r compat_member typ_a ts_b;
       if found then compat_subset ts_a' ts_b else Ok false)%res
  end.

Definition TypeCompatibleWith (a b : Type_) : result bool :=
  match a with
  | VoidType =>
      match b with
      | VoidType => Ok true
      | _ => Ok false
      end
  | PrimType _ =>
      match b with
      | PrimType _ => TypeEqual a b
      | UnionType ts => compat_member a ts
      | _ => Ok false
      end
  | UnionType ts_a =>
      match b with
      | UnionType ts_b => compat_subset ts_a ts_b
      | _ => Ok false
      end
  | _ => Panic BUG_compat
  end.

(** ** Character classifier (char.go) *)

Definition rune := Z.   (* int32 code point *)

Definition rn_of (c : ascii) : rune := Z.of_nat (nat_of_ascii c).

Definition isdigit (rn : rune) : bool :=
  (rn_of "0" <=? rn)%Z && (rn <=? rn_of "9")%Z.

Definition isletter (rn : rune) : bool :=
  if (rn_of "a" <=? rn)%Z && (rn <=? rn_of "z")%Z then true
  else if (rn_of "A" <=? rn)%Z && (rn <=? rn_of "Z")%Z then true
  else false.

Definition isident (rn : rune) : bool :=
  isletter rn || (rn =? rn_of ".")%Z || (rn =? rn_of ":")%Z.

Definition iswhitespace (rn : rune) : bool :=
  (rn =? rn_of "009")%Z || (rn =? rn_of " ")%Z
  || (rn =? rn_of "013")%Z || (rn =? rn_of "010")%Z.

(** ** Tokenizer

    [t_r] is what the [bufio.Reader] still has to deliver, as the runes
    [ReadRune] decodes.  The reader is an in-memory one
    ([NewTokenizerString]): [ReadRune] fails with [io.EOF] only, so
    [tz_read] carries no error. *)

Record tokenizer := mkTokenizer {
  t_r : list rune;
  t_fpath : string;
  t_lineno : Z;   (* uint32 *)
  t_charno : Z;   (* uint32 *)
  t_rn : rune     (* one rune of pushback, [eof] when empty *)
}.

Definition eof : rune := 0%Z.

Definition uint32_incr (n : Z) : Z := ((n + 1) mod 2 ^ 32)%Z.

Definition runes_of_string (code : string) : list rune :=
  map rn_of (list_ascii_of_string code).

(** [buf.WriteRune(rn)] for the ASCII runes the tokenizer buffers. *)
Definition WriteRune (buf : string) (rn : rune) : string :=
  buf +:+ String (ascii_of_nat (Z.to_nat rn)) EmptyString.

Definition NewTokenizerRunes (runes : list rune) (fpath : string) : tokenizer :=
  mkTokenizer runes fpath 1 1 eof.

Definition NewTokenizerString (code : string) : tokenizer :=
  NewTokenizerRunes (runes_of_string code) "<memory>".

Definition filepos : M tokenizer FilePos :=
  fun t => (Ok (mkFilePos (t_lineno t) (t_charno t) (t_fpath t)), t).

Definition tz_unread (rn : rune) : M tokenizer unit :=
  fun t =>
    if negb (t_rn t =? eof)%Z then (Panic "BUG t.rn is not empty!", t)
    else (Ok tt, mkTokenizer (t_r t) (t_fpath t) (t_lineno t) (t_charno t) rn).

Definition tz_read : M tokenizer rune :=
  fun t =>
    if negb (t_rn t =? eof)%Z
    then (Ok (t_rn t),
          mkTokenizer (t_r t) (t_fpath t) (t_lineno t) (t_charno t) eof)
    else
      match t_r t with
      | [] => (Ok eof, t)
      | rn :: rest =>
          if (rn =? rn_of "010")%Z
          then (Ok rn, mkTokenizer rest (t_fpath t)
                         (uint32_incr (t_lineno t)) 1 (t_rn t))
          else if negb (rn =? rn_of "013")%Z
          then (Ok rn, mkTokenizer rest (t_fpath t) (t_lineno t)
                         (uint32_incr (t_charno t)) (t_rn t))
          else (Ok rn, mkTokenizer rest (t_fpath t) (t_lineno t)
                         (t_charno t) (t_rn t))
      end.

Definition mk (sval : string) (tt : TokenType) : M tokenizer Token :=
  (pos <- filepos ;; ret (mkToken sval tt pos))%M.

(** The loop of [litintfloat]; it returns the buffer and [seenDot]. *)
Fixpoint litintfloat_loop (fuel : nat) (buf : string) (seenDot : bool)
  : M tokenizer (string * bool) :=
  match fuel with
  | O => out_of_fuel
  | S fuel' =>
      (rn <- tz_read ;;
       if (rn =? eof)%Z then ret (buf, seenDot)
       else if isdigit rn then litintfloat_loop fuel' (WriteRune buf rn) seenDot
       else if (rn =? rn_of ".")%Z then
         if seenDot
         then (pos <- filepos ;; fail (TokenizerError pos None))
         else litintfloat_loop fuel' (WriteRune buf rn) true
       else (tz_unread rn ;;; ret (buf, seenDot)))%M
  end.

(** Every iteration of a tokenizer loop takes one rune from the pushback
    or from the reader. *)
Definition tz_fuel (t : tokenizer) : nat := 2 + length (t_r t).

Definition litintfloat (rn : rune) : M tokenizer Token :=
  (r <- (fun t => litintfloat_loop (tz_fuel t) (WriteRune "" rn) false t) ;;
   let '(str, seenDot) := r in
   if String.eqb str "-"
   then (pos <- filepos ;;
         fail (TokenizerError pos
                 (Some ("Literal " +:+ fmt_q str
                          +:+ " is missing at least one digit."))))
   else if seenDot then mk str TT_LITFLOAT
   else mk str TT_LITINT)%M.

Fixpoint ident_loop (fuel : nat) (buf : string) : M tokenizer string :=
  match fuel with
  | O => out_of_fuel
  | S fuel' =>
      (rn <- tz_read ;;
       if (rn =? eof)%Z then ret buf
       else if isident rn then ident_loop fuel' (WriteRune buf rn)
       else (tz_unread rn ;;; ret buf))%M
  end.

Definition ident (rn : rune) : M tokenizer Token :=
  (str <- (fun t => ident_loop (tz_fuel t) (WriteRune "" rn) t) ;;
   if String.eqb str "func" then mk str TT_FUNC
   else mk str TT_IDENT)%M.

(** The whitespace-skipping loop at the head of [Next]. *)
Fixpoint Next_skip (fuel : nat) : M tokenizer rune :=
  match fuel with
  | O => out_of_fuel
  | S fuel' =>
      (rn <- tz_read ;;
       if negb (iswhitespace rn) || (rn =? eof)%Z then ret rn
       else Next_skip fuel')%M
  end.

Definition Next : M tokenizer Token :=
  (rn <- (fun t => Next_skip (tz_fuel t) t) ;;
   if (rn =? rn_of "#")%Z then mk "#" TT_NUMSIGN
   else if (rn =? rn_of ";")%Z then mk ";" TT_SEMICOLON
   else if (rn =? rn_of "{")%Z then mk "{" TT_LCBRACKET
   else if (rn =? rn_of "}")%Z then mk "}" TT_RCBRACKET
   else if (rn =? rn_of "[")%Z then mk "[" TT_LBRACKET
   else if (rn =? rn_of "]")%Z then mk "]" TT_RBRACKET
   else if (rn =? rn_of "(")%Z then mk "(" TT_LPAREN
   else if (rn =? rn_of ")")%Z then mk ")" TT_RPAREN
   else if (rn =? rn_of "'")%Z then mk "'" TT_QUOT
   else if isletter rn || (rn =? rn_of "%")%Z then ident rn
   else if isdigit rn || (rn =? rn_of "-")%Z then litintfloat rn
   else if (rn =? eof)%Z then mk "<eof>" TT_EOF
   else (pos <- filepos ;;
         fail (TokenizerError pos
                 (Some ("Unexpected rune: " +:+ fmt_d rn))))%M)%M.

(** Tokens up to and including [EOF], as the tests' [checkTypes] reads
    them; stops at the first error. *)
Fixpoint tokens (fuel : nat) : M tokenizer (list Token) :=
  match fuel with
  | O => out_of_fuel
  | S fuel' =>
      (tk <- Next ;;
       match Typ tk with
       | TT_EOF => ret [tk]
       | _ => (tks <- tokens fuel' ;; ret (tk :: tks))
       end)%M
  end.

Definition tokenize (code : string) : result (list Token) :=
  let t := NewTokenizerString code in fst (tokens (tz_fuel t) t).

(** ** strconv *)

Definition digit_of (c : ascii) : option Z :=
  let rn := rn_of c in
  if isdigit rn then Some (rn - rn_of "0")%Z else None.

(** The digits of [s] read in base 10 after [acc]; [None] when [s] holds
    anything but digits. *)
Fixpoint digits_value (s : string) (acc : Z) : option Z :=
  match s with
  | EmptyString => Some acc
  | String c s' =>
      match digit_of c with
      | Some d => digits_value s' (10 * acc + d)%Z
      | None => None
      end
  end.

(** [strconv.ParseInt(s, 10, 64)]: [None] for a syntax or range error. *)
Definition strconv_ParseInt (s : string) : option Z :=
  match s with
  | EmptyString => None
  | String c s' =>
      let '(neg, body) :=
        if Ascii.eqb c "-" then (true, s')
        else if Ascii.eqb c "+" then (false, s')
        else (false, s) in
      match body with
      | EmptyString => None
      | _ =>
          match digits_value body 0 with
          | None => None
          | Some v =>
              if neg
              then if (v <=? 2 ^ 63)%Z then Some (- v)%Z else None
              else if (v <? 2 ^ 63)%Z then Some v else None
          end
      end
  end.

(** A float64 value is kept as the decimal it was read from,
    [mantissa * 10 ^ (- scale)]; rounding to binary64 is not represented,
    no statement below depends on it. *)
Record float64 := mkFloat {
  f_negative : bool;
  f_mantissa : Z;
  f_scale : nat
}.

(** State of the scan: digits read so far as a number, digits after the
    point, whether a point and whether a digit were seen. *)
Fixpoint ParseFloat_scan (s : string) (mant : Z) (scale : nat)
    (seenDot sawDigit : bool) : option (Z * nat) :=
  match s with
  | EmptyString => if sawDigit then Some (mant, scale) else None
  | String c s' =>
      match digit_of c with
      | Some d =>
          ParseFloat_scan s' (10 * mant + d)%Z
            (if seenDot then S scale else scale) seenDot true
      | None =>
          if Ascii.eqb c "." && negb seenDot
          then ParseFloat_scan s' mant scale true sawDigit
          else None
      end
  end.

(** [strconv.ParseFloat(s, 64)] on strings over sign, digits and point (the
    alphabet of the tokenizer's numeric lexemes): a syntax error without a
    digit or with a second point, a range error when the value rounds to
    infinity, that is from [2^1024 - 2^970] on.  Exponents, hexadecimal
    floats, "inf" and "nan", which no lexeme can spell, are rejected here. *)
Definition strconv_ParseFloat (s : string) : option float64 :=
  let '(neg, body) :=
    match s with
    | String c s' =>
        if Ascii.eqb c "-" then (true, s')
        else if Ascii.eqb c "+" then (false, s')
        else (false, s)
    | EmptyString => (false, s)
    end in
  match ParseFloat_scan body 0 0 false false with
  | None => None
  | Some (mant, scale) =>
      if (mant <? (2 ^ 1024 - 2 ^ 970) * 10 ^ Z.of_nat scale)%Z
      then Some (mkFloat neg mant scale)
      else None
  end.

(** ** AST nodes

    [Token] fields are pointers and may be nil ([None]).  [IfElseNode] has
    no [IsNode] method and is not a [Node]. *)

Inductive Node :=
| RootNode (Funcs : list Node) (TypeDecls : list (string * Node))
| TypeDeclNode (Name : string) (typ : Type_)
| FuncNode (Name : string) (Args : list Arg) (Body : list Node)
    (RetTypes : list Type_) (tk : option Token)
| LitIntNode (Value : Z) (tk : option Token)
| QuotNode (Ident : string) (tk : option Token)
| LitFloatNode (Value : float64) (tk : option Token)
| ReadVarNode (Name : string) (tk : option Token)
| VerbNode (Verb : string) (tk : option Token)
| ExpNode (Exps : list Node) (tk : option Token).

(** ** Parser *)

Record Parser := mkParser {
  tz : tokenizer;
  tkbuf : list Token
}.

Definition NewParser (t : tokenizer) : Parser := mkParser t [].

Definition nil_deref : string :=
  "runtime error: invalid memory address or nil pointer dereference".
Definition index_out_of_range_8 : string :=
  "runtime error: index out of range [8] with length 8".

Definition readbuf : M Parser (option Token) :=
  fun p =>
    match tkbuf p with
    | [] => (Ok None, p)
    | it :: rest => (Ok (Some it), mkParser (tz p) rest)
    end.

Definition tz_Next : M Parser Token :=
  fun p => let '(r, t') := Next (tz p) in (r, mkParser t' (tkbuf p)).

Definition read : M Parser Token :=
  (it <- readbuf ;;
   match it with
   | Some tk => ret tk
   | None => tz_Next
   end)%M.

Definition unread (tk : Token) : M Parser unit :=
  fun p => (Ok tt, mkParser (tz p) (tkbuf p ++ [tk])).

(** [tk, err = p.read()] followed by a use of [tk] with no test of [err]:
    [tk] is nil when [err] is not. *)
Definition read_unchecked : M Parser Token :=
  (r <- attempt read ;;
   match r with
   | Ok tk => ret tk
   | Err _ => panic nil_deref
   | Panic msg => panic msg
   | OutOfFuel => out_of_fuel
   end)%M.

Definition parseData : M Parser Node :=
  (tk <- read ;;
   match Typ tk with
   | TT_LITINT =>
       match strconv_ParseInt (SVal tk) with
       | None => fail (ParserError tk
                         ("`" +:+ SVal tk +:+ "` is not a valid integer literal."))
       | Some iv => ret (LitIntNode iv (Some tk))
       end
   | TT_LITFLOAT =>
       match strconv_ParseFloat (SVal tk) with
       | None => fail (ParserError tk
                         ("`" +:+ SVal tk +:+ "` is not a valid float literal."))
       | Some fv => ret (LitFloatNode fv (Some tk))
       end
   | TT_IDENT => ret (VerbNode (SVal tk) (Some tk))
   | TT_QUOT =>
       (tk <- read_unchecked ;;
        match Typ tk with
        | TT_IDENT => ret (QuotNode (SVal tk) (Some tk))
        | _ => fail (ParserError tk
                       ("Expected identifier but got `" +:+ SVal tk +:+ "`."))
        end)
   | _ => fail (ParserError tk
                  ("Expected literal but got `" +:+ SVal tk +:+ "`."))
   end)%M.

(** Tokens the parser can still read are bounded by the buffered tokens
    plus the runes left; every round of a parser loop reads a token and
    reads back at most one that it pushed, and the loops leave at the [EOF]
    token. *)
Definition p_fuel (p : Parser) : nat :=
  4 + 2 * (length (tkbuf p) + length (t_r (tz p))).

Fixpoint parseType_fuel (fuel : nat) : M Parser Type_ :=
  match fuel with
  | O => out_of_fuel
  | S fuel' =>
      (tk <- read ;;
       match Typ tk with
       | TT_IDENT => ret (PrimType (SVal tk))
       | TT_LCBRACKET =>
           (types <- parseType_union fuel' [] ;;
            fun p =>
              match NewUnionType types with
              | Ok ut => (Ok ut, p)
              | Err (ErrorString msg) => (Err (ParserError tk msg), p)
              | Err e => (Err e, p)
              | Panic msg => (Panic msg, p)
              | OutOfFuel => (OutOfFuel, p)
              end)
       | _ => fail (ParserError tk ("`" +:+ SVal tk +:+ "` is not a type."))
       end)%M
  end
with parseType_union (fuel : nat) (types : list Type_) : M Parser (list Type_) :=
  match fuel with
  | O => out_of_fuel
  | S fuel' =>
      (tk <- read ;;
       match Typ tk with
       | TT_IDENT =>
           (unread tk ;;;
            typ <- parseType_fuel fuel' ;;
            parseType_union fuel' (types ++ [typ]))
       | TT_LCBRACKET =>
           fail (ParserError tk
                   ("Unexpected " +:+ SVal tk
                      +:+ ". Union types can not be nested."))
       | TT_RCBRACKET => ret types
       | _ => fail (ParserError tk
                      ("Expected identifier but got `" +:+ SVal tk +:+ "`."))
       end)%M
  end.

Definition parseType : M Parser Type_ :=
  fun p => parseType_fuel (p_fuel p) p.

Definition parseArg : M Parser Arg :=
  (r <- attempt read ;;
   match r with
   | Panic msg => panic msg
   | OutOfFuel => out_of_fuel
   | Err _ => ret VoidArg          (* [return VoidArg, nil] *)
   | Ok tk =>
       match Typ tk with
       | TT_LPAREN =>
           (r <- attempt read ;;
            match r with
            | Panic msg => panic msg
            | OutOfFuel => out_of_fuel
            | Err _ => ret VoidArg   (* [return VoidArg, nil] *)
            | Ok tk =>
                match Typ tk with
                | TT_IDENT =>
                    let aname := SVal tk in
                    (tp <- parseType ;;
                     tk <- read ;;
                     match Typ tk with
                     | TT_RPAREN => ret (mkArg aname tp)
                     | _ => fail (ParserError tk
                                    ("Expected `)` but got `" +:+ SVal tk +:+ "`."))
                     end)
                | _ => fail (ParserError tk
                               ("Expected identifier but got `" +:+ SVal tk +:+ "`."))
                end
            end)
       | _ => fail (ParserError tk
                      ("Expected `(` but got `" +:+ SVal tk +:+ "`."))
       end
   end)%M.

Definition parseIf : M Parser Node := panic "BUG".

(** [nodes[nj] = node; nj++] on a slice made with length 8: the slice
    is kept as the list of its first [nj] entries. *)
Definition store8 {S A} (filled : list A) (x : A) : M S (list A) :=
  if length filled <? 8 then ret (filled ++ [x])
  else panic index_out_of_range_8.

Fixpoint parseExp_loop (fuel : nat) (firsttk : option Token)
    (nodes : list Node) : M Parser Node :=
  match fuel with
  | O => out_of_fuel
  | S fuel' =>
      (tk <- read ;;
       let firsttk := match firsttk with None => Some tk | _ => firsttk end in
       match Typ tk with
       | TT_LITINT | TT_LITFLOAT | TT_IDENT | TT_QUOT =>
           (unread tk ;;;
            node <- parseData ;;
            nodes <- store8 nodes node ;;
            parseExp_loop fuel' firsttk nodes)
       | TT_SEMICOLON => ret (ExpNode nodes firsttk)
       | _ => fail (ParserError tk
                      ("Expected literal, identifier, `;` or `'` but got `"
                         +:+ SVal tk +:+ "`."))
       end)%M
  end.

Definition parseExp : M Parser Node :=
  fun p => parseExp_loop (p_fuel p) None [] p.

Fixpoint parseFunc_args (fuel : nat) (args : list Arg) : M Parser (list Arg) :=
  match fuel with
  | O => out_of_fuel
  | S fuel' =>
      (tk <- read ;;
       match Typ tk with
       | TT_RBRACKET => ret args
       | TT_LPAREN =>
           (unread tk ;;;
            arg <- parseArg ;;
            args <- store8 args arg ;;
            parseFunc_args fuel' args)
       | _ => fail (ParserError tk
                      ("Expected `(` or `)` but got `" +:+ SVal tk +:+ "`"))
       end)%M
  end.

Fixpoint parseFunc_rets (fuel : nat) (rets : list Type_) : M Parser (list Type_) :=
  match fuel with
  | O => out_of_fuel
  | S fuel' =>
      (tk <- read ;;
       match Typ tk with
       | TT_RBRACKET => ret rets
       | _ =>
           (unread tk ;;;
            r <- parseType ;;
            parseFunc_rets fuel' (rets ++ [r]))
       end)%M
  end.

Fixpoint parseFunc_body (fuel : nat) (bodies : list Node) : M Parser (list Node) :=
  match fuel with
  | O => out_of_fuel
  | S fuel' =>
      (tk <- read ;;
       match Typ tk with
       | TT_RCBRACKET => ret bodies
       | TT_IF =>
           (unread tk ;;;
            ifn <- parseIf ;;
            bodies <- store8 bodies ifn ;;
            parseFunc_body fuel' bodies)
       | _ =>
           (unread tk ;;;
            sexp <- parseExp ;;
            bodies <- store8 bodies sexp ;;
            parseFunc_body fuel' bodies)
       end)%M
  end.

Definition parseFunc : M Parser Node :=
  (tk <- read ;;
   let firsttk := tk in
   match Typ tk with
   | TT_FUNC =>
       (tk <- read ;;
        match Typ tk with
        | TT_IDENT =>
            let funcname := SVal tk in
            if strings_ContainsRune funcname ":"
            then fail (ParserError tk
                         ("`:` is not allowed in identifiers in this context. Offending identifier is `"
                            +:+ SVal tk +:+ "`."))
            else
              (tk <- read ;;
               match Typ tk with
               | TT_LBRACKET =>
                   (args <- (fun p => parseFunc_args (p_fuel p) [] p) ;;
                    tk <- read ;;
                    match Typ tk with
                    | TT_LBRACKET =>
                        (rets <- (fun p => parseFunc_rets (p_fuel p) [] p) ;;
                         tk <- read_unchecked ;;
                         match Typ tk with
                         | TT_LCBRACKET =>
                             (bodies <- (fun p => parseFunc_body (p_fuel p) [] p) ;;
                              ret (FuncNode funcname args bodies rets (Some firsttk)))
                         | _ => fail (ParserError tk
                                        ("Expected `{` but got `" +:+ SVal tk +:+ "`."))
                         end)
                    | _ => fail (ParserError tk
                                   ("Expected `[` but got `" +:+ SVal tk +:+ "`."))
                    end)
               | _ => fail (ParserError tk
                              ("Expected `[` but got `" +:+ SVal tk +:+ "`."))
               end)
        | _ => fail (ParserError tk
                       ("Expected identifier but got `" +:+ SVal tk +:+ "`."))
        end)
   | _ => fail (ParserError tk
                  ("Expected `func` but got `" +:+ SVal tk +:+ "`."))
   end)%M.

Fixpoint parseFuncs_loop (fuel : nat) (funcs : list Node) : M Parser (list Node) :=
  match fuel with
  | O => out_of_fuel
  | S fuel' =>
      (tk <- read ;;
       match Typ tk with
       | TT_EOF => ret funcs
       | TT_LPAREN =>
           (unread tk ;;;
            fn <- parseFunc ;;
            match fn with
            | FuncNode _ _ _ _ _ =>
                (funcs <- store8 funcs fn ;;
                 parseFuncs_loop fuel' funcs)
            | _ => panic "BUG: didn't get *FuncNode"
            end)
       | _ => fail (ParserError tk
                      ("Expected `(` but got `" +:+ SVal tk +:+ "`."))
       end)%M
  end.

Definition parseFuncs : M Parser (list Node) :=
  fun p => parseFuncs_loop (p_fuel p) [] p.

Definition Funcs : M Parser (list Node) := parseFuncs.

(** Running a parser entry point on a source text, as the tests do with
    [NewParser(NewTokenizerString(code))]. *)
Definition parse {A} (entry : M Parser A) (code : string) : result A :=
  fst (entry (NewParser (NewTokenizerString code))).

(** ** Type worlds and inference (typecheck.go) *)

Abbreviation TypeWorld := (gmap string Type_).
Abbreviation TypeWorlds := (list (gmap string Type_)).

(** [tw[val]]: a missing key reads as the zero value, nil. *)
Definition TypeWorld_get (tw : TypeWorld) (val : string) : Type_ :=
  match tw !! val with
  | Some it => it
  | None => InvalidType
  end.

(** The scan of [Lookup], over the worlds from the last one down. *)
Fixpoint Lookup_scan (rtws : TypeWorlds) (val : string) : Type_ :=
  match rtws with
  | [] => InvalidType
  | tw :: rtws' =>
      match TypeWorld_get tw val with
      | InvalidType => Lookup_scan rtws' val
      | it => it
      end
  end.

Definition Lookup (tws : TypeWorlds) (val : string) : Type_ :=
  Lookup_scan (rev tws) val.

Definition NewTypeWorlds (typeWorlds : TypeWorlds) : TypeWorlds := typeWorlds.

Definition builtins : TypeWorld :=
  {[ "square.i" := FuncType [PrimType "int"] [PrimType "int"] ]}.

(** [for i := from; i < from + n; i++ { body }], leaving at the first
    outcome that is not [Ok]. *)
Fixpoint for_range (n from : nat) (body : nat -> result unit) : result unit :=
  match n with
  | O => Ok tt
  | S n' => (_ <-r body from; for_range n' (S from) body)%res
  end.

(** [s[i]] on a slice. *)
Definition index (s : list Type_) (i : nat) : result Type_ :=
  match s !! i with
  | Some x => Ok x
  | None => Panic "runtime error: index out of range"
  end.

(** One round of the comparison loops of [InferTypes] and [TypeCheck]:
    [gots[goff+i]] against [wants[i]]. *)
Definition check_compat (gots wants : list Type_) (goff : nat)
    (tk : option Token) (extra : string) (i : nat) : result unit :=
  (got <-r index gots (goff + i);
   wanted <-r index wants i;
   c <-r TypeCompatibleWith got wanted;
   if negb c then Err (TypeError wanted got tk extra) else Ok tt)%res.

(** [fmt.Sprintf("in a call to `%s`.", verb)] *)
Definition call_extra (verb : string) : string :=
  "in a call to `" +:+ verb +:+ "`.".

Definition InferTypes_verb (tk : option Token) (verb : string)
    (stack : list Type_) (typeWorlds : TypeWorlds) : result (list Type_) :=
  match Lookup typeWorlds verb with
  | InvalidType =>
      Err (ErrorString ("Function `" +:+ verb +:+ "` does not exist!"))
  | FuncType ArgTypes RetTypes =>
      if length stack <? length ArgTypes
      then Err (ErrorString "Not enough arguments.")
      else
        let m := length ArgTypes in
        (_ <-r for_range m 0
                 (check_compat stack ArgTypes (length stack - m) tk
                    (call_extra verb));
         let stack := take (length stack - m) stack in
         Ok (fold_left (fun stack rettyp => stack ++ [rettyp]) RetTypes stack))%res
  | _ => Err (ErrorString ("`" +:+ verb +:+ "` is not of type function."))
  end.

(** The body of [for _, v := range exp.Exps]; [tk] is [exp.Token]. *)
Definition InferTypes_item (tk : option Token) (typeWorlds : TypeWorlds)
    (v : Node) (stack : list Type_) : result (list Type_) :=
  match v with
  | LitIntNode _ _ => Ok (stack ++ [PrimType "int"])
  | LitFloatNode _ _ => Ok (stack ++ [PrimType "float"])
  | VerbNode verb _ => InferTypes_verb tk verb stack typeWorlds
  | _ => Ok stack
  end.

Fixpoint InferTypes_exps (tk : option Token) (typeWorlds : TypeWorlds)
    (exps : list Node) (stack : list Type_) : result (list Type_) :=
  match exps with
  | [] => Ok stack
  | v :: exps' =>
      (stack <-r InferTypes_item tk typeWorlds v stack;
       InferTypes_exps tk typeWorlds exps' stack)%res
  end.

Definition InferTypes (node : Node) (stack : list Type_)
    (typeWorlds : TypeWorlds) : result (list Type_) :=
  match node with
  | LitFloatNode _ _ => Ok (stack ++ [PrimType "float"])
  | LitIntNode _ _ => Ok (stack ++ [PrimType "int"])
  | ExpNode exps tk => InferTypes_exps tk typeWorlds exps stack
  | _ => Err (ErrorString "Can't infer types.")
  end.

(** The items the loop of [InferTypes] has a case for. *)
Definition is_lit_or_verb (v : Node) : bool :=
  match v with
  | LitIntNode _ _ | LitFloatNode _ _ | VerbNode _ _ => true
  | _ => false
  end.

(** ** Modules (module.go)

    [Func.Type] is a [*FuncType]; [FuncType_of] is its use as a [Type].
    [Func.FuncNode] is a [*FuncNode]: a [Node] built with [FuncNode]. *)

Record FuncSig := mkFuncSig {
  Sig_ArgTypes : list Type_;
  Sig_RetTypes : list Type_
}.

Definition FuncType_of (ft : FuncSig) : Type_ :=
  FuncType (Sig_ArgTypes ft) (Sig_RetTypes ft).

Record Func := mkFunc_ {
  Func_Type : FuncSig;
  Func_Name : string;
  Func_FuncNode : Node
}.

Definition FuncNode_Name (fn : Node) : string :=
  match fn with FuncNode name _ _ _ _ => name | _ => "" end.
Definition FuncNode_Args (fn : Node) : list Arg :=
  match fn with FuncNode _ args _ _ _ => args | _ => [] end.
Definition FuncNode_Body (fn : Node) : list Node :=
  match fn with FuncNode _ _ body _ _ => body | _ => [] end.
Definition FuncNode_RetTypes (fn : Node) : list Type_ :=
  match fn with FuncNode _ _ _ rets _ => rets | _ => [] end.
Definition FuncNode_Token (fn : Node) : option Token :=
  match fn with FuncNode _ _ _ _ tk => tk | _ => None end.

Definition mkFuncType (fn : Node) : FuncSig :=
  mkFuncSig (map Arg_Type (FuncNode_Args fn)) (FuncNode_RetTypes fn).

Definition mkFunc (fn : Node) : Func :=
  mkFunc_ (mkFuncType fn) (FuncNode_Name fn) fn.

(** The maps [Module.Funcs] and [modules] are only ranged over by the
    checker; they are kept as the list of entries in the order the range
    visits them, an order Go leaves open. *)
Record Module := mkModule {
  Mod_Name : string;
  Mod_Path : string;
  Mod_Funcs : list (string * Func)
}.

Definition BUG_names : string := "BUG: names don't match?".

(** First loop of [TypeCheck]: the type world of all modules. *)
Definition TypeCheck_register (v : Module) (tw : TypeWorld) : TypeWorld :=
  fold_left
    (fun (tw : TypeWorld) (e : string * Func) =>
       let fn := snd e in
       let fqname := Mod_Name v +:+ ":" +:+ Func_Name fn in
       <[ fqname := FuncType_of (Func_Type fn) ]> tw)
    (Mod_Funcs v) tw.

Fixpoint TypeCheck_world (modules : list (string * Module)) (tw : TypeWorld)
  : result TypeWorld :=
  match modules with
  | [] => Ok tw
  | (k, v) :: modules' =>
      if negb (String.eqb k (Mod_Name v)) then Panic BUG_names
      else TypeCheck_world modules' (TypeCheck_register v tw)
  end.

Fixpoint TypeCheck_body (typeWorlds : TypeWorlds) (body : list Node)
    (types : list Type_) : result (list Type_) :=
  match body with
  | [] => Ok types
  | node :: body' =>
      (types <-r InferTypes node types typeWorlds;
       TypeCheck_body typeWorlds body' types)%res
  end.

Definition arity_message (name : string) (wanted got : nat) : string :=
  "Function `" +:+ name
    +:+ "` does not return the right amount of values. Wanted "
    +:+ fmt_d (Z.of_nat wanted) +:+ " but got " +:+ fmt_d (Z.of_nat got) +:+ ".".

Definition returned_extra (name : string) : string :=
  "(in returned values of function `" +:+ name +:+ "`)".

(** The body of [for _, fn := range v.Funcs] in the second loop. *)
Definition TypeCheck_func (typeWorlds : TypeWorlds) (fn : Func) : result unit :=
  (types <-r TypeCheck_body typeWorlds (FuncNode_Body (Func_FuncNode fn)) [];
   let rets := Sig_RetTypes (Func_Type fn) in
   if negb (length types =? length rets)
   then Err (ErrorString (arity_message (Func_Name fn) (length rets) (length types)))
   else for_range (length types) 0
          (check_compat types rets 0 (FuncNode_Token (Func_FuncNode fn))
             (returned_extra (Func_Name fn))))%res.

Fixpoint TypeCheck_funcs (typeWorlds : TypeWorlds) (funcs : list (string * Func))
  : result unit :=
  match funcs with
  | [] => Ok tt
  | (_, fn) :: funcs' =>
      (_ <-r TypeCheck_func typeWorlds fn; TypeCheck_funcs typeWorlds funcs')%res
  end.

Fixpoint TypeCheck_modules (typeWorlds : TypeWorlds)
    (modules : list (string * Module)) : result unit :=
  match modules with
  | [] => Ok tt
  | (k, v) :: modules' =>
      if negb (String.eqb k (Mod_Name v)) then Panic BUG_names
      else (_ <-r TypeCheck_funcs typeWorlds (Mod_Funcs v);
            TypeCheck_modules typeWorlds modules')%res
  end.

Definition TypeCheck (modules : list (string * Module)) : result unit :=
  (modulesTypeWorld <-r TypeCheck_world modules ∅;
   let typeWorlds := NewTypeWorlds [builtins; modulesTypeWorld] in
   TypeCheck_modules typeWorlds modules)%res.

(** Parse an expression and infer its types on an empty stack under the
    builtins, as [checkInferedTypeExp] does. *)
Definition infer_exp (code : string) : result (list Type_) :=
  (n <-r parse parseExp code; InferTypes n [] (NewTypeWorlds [builtins]))%res.

(** ** Predicates used in the statements *)

(** The types [TypeCmp] and [TypeCompatibleWith] are written for: void,
    prims and unions of such, with no function type and no nil inside. *)
Fixpoint plain (t : Type_) : bool :=
  match t with
  | VoidType => true
  | PrimType _ => true
  | UnionType ts => forallb plain ts
  | _ => false
  end.

(** The member-wise loop of [TypeCmp] on two unions, by name. *)
Fixpoint TypeCmp_members (l1 l2 : list Type_) : result Z :=
  match l1 with
  | [] => Ok 0%Z
  | x :: l1' =>
      match l2 with
      | [] => Panic "index out of range"
      | y :: l2' =>
          match TypeCmp x y with
          | Ok c => if (c =? 0)%Z then TypeCmp_members l1' l2' else Ok c
          | r => r
          end
      end
  end.

(** Every function of the list passes the check. *)
Definition funcs_pass (typeWorlds : TypeWorlds) (funcs : list (string * Func)) : Prop :=
  forall e, In e funcs -> TypeCheck_func typeWorlds (snd e) = Ok tt.

(** Every module is stored under its own name. *)
Definition names_match (modules : list (string * Module)) : Prop :=
  forall e, In e modules -> String.eqb (fst e) (Mod_Name (snd e)) = true.

(** The outcome is a value or an error: no panic, fuel left. *)
Definition returns {A} (r : result A) : Prop :=
  match r with
  | Ok _ | Err _ => True
  | Panic _ | OutOfFuel => False
  end.

(** Runes the tokenizer can still deliver. *)
Definition tz_left (t : tokenizer) : nat :=
  length (t_r t) + (if (t_rn t =? eof)%Z then 0 else 1).

(** A tokenizer loop started in [t] returns and delivers no rune back. *)
Definition tz_spec {A} (t : tokenizer) (out : result A * tokenizer) : Prop :=
  returns (fst out) /\ tz_left (snd out) <= tz_left t.

(** The outcome is one of the Go program: the fuel was enough. *)
Definition terminates {A} (r : result A) : Prop := r <> OutOfFuel.

(** Tokens the parser can still read: the buffered ones and what the
    tokenizer has left. *)
Definition p_left (p : Parser) : nat := length (tkbuf p) + tz_left (tz p).

(** A step ends, and when it succeeds it has given no token back. *)
Definition step_spec {A} (m : M Parser A) (p : Parser) : Prop :=
  terminates (fst (m p)) /\
  forall a, fst (m p) = Ok a -> p_left (snd (m p)) <= p_left p.

(** A sub-parser ends, and when it succeeds it has taken a token. *)
Definition consume_spec {A} (m : M Parser A) (p : Parser) : Prop :=
  terminates (fst (m p)) /\
  forall a, fst (m p) = Ok a -> p_left (snd (m p)) < p_left p.

(** The lexeme holds a digit. *)
Definition has_digit (s : string) : bool :=
  existsb isdigit (runes_of_string s).

(** Invariant of the loop of [litintfloat] on the buffer that began as
    [first]: without a digit so far, the buffer is [first], or [first] and
    the one point seen. *)
Definition digitless_ok (first buf : string) (seenDot : bool) : Prop :=
  has_digit buf = true \/ (buf = first /\ seenDot = false)
  \/ (buf = first +:+ "." /\ seenDot = true).

(** Void and prims: the types [TypeCmp] orders without looking at members. *)
Definition simple (t : Type_) : bool :=
  match t with
  | VoidType | PrimType _ => true
  | _ => false
  end.

(** A prim: the only member the parser puts in a union. *)
Definition is_prim (t : Type_) : bool :=
  match t with
  | PrimType _ => true
  | _ => false
  end.

(** The types the parser's type grammar can spell: a prim or a union of
    prims. *)
Definition flat (t : Type_) : bool :=
  match t with
  | PrimType _ => true
  | UnionType ts => forallb is_prim ts
  | _ => false
  end.

(** The types the parser can spell, and the void type. *)
Definition flat_or_void (t : Type_) : bool :=
  match t with
  | VoidType => true
  | _ => flat t
  end.

(** The order of [strings.Compare], strict and large. *)
Definition str_lt (a b : string) : Prop := String.compare a b = Lt.
Definition str_le (a b : string) : Prop := String.compare a b <> Gt.

(** The prims of the given names. *)
Definition prims (names : list string) : list Type_ := map PrimType names.

(** [sort_insert] and [sort_Slice_from] on the names of prims. *)
Fixpoint ins_name (a : string) (rp : list string) : list string :=
  match rp with
  | [] => [a]
  | b :: rp' =>
      if (strings_Compare a b <? 0)%Z then b :: ins_name a rp' else a :: rp
  end.

Fixpoint sort_names_from (rp todo : list string) : list string :=
  match todo with
  | [] => rev rp
  | a :: todo' => sort_names_from (ins_name a rp) todo'
  end.

(** Two neighbours of the list are equal: what the scan of [NewUnionType]
    looks for. *)
Fixpoint adjdup (l : list string) : bool :=
  match l with
  | a :: (b :: _) as t => String.eqb b a || adjdup t
  | _ => false
  end.

(** The sorted prefix, last element first, is non-increasing. *)
Definition desc (rp : list string) : Prop :=
  StronglySorted (fun x y => str_le y x) rp.

(** A result with its value mapped. *)
Definition rmap {A B} (f : A -> B) (r : result A) : result B :=
  match r with
  | Ok a => Ok (f a)
  | Err e => Err e
  | Panic msg => Panic msg
  | OutOfFuel => OutOfFuel
  end.

(** The error of a verb on a stack shorter than its arguments. *)
Definition not_enough : error := ErrorString "Not enough arguments.".

(** [v.Name + ":" + fn.Name], the key of [fn] in the type world of the
    modules. *)
Definition fqname_of (v : Module) (fn : Func) : string :=
  Mod_Name v +:+ ":" +:+ Func_Name fn.

(** The nodes [parseData] builds: a literal, a verb or a quotation, with
    the token it came from. *)
Definition exp_item (v : Node) : bool :=
  match v with
  | LitIntNode _ (Some _) | LitFloatNode _ (Some _)
  | VerbNode _ (Some _) | QuotNode _ (Some _) => true
  | _ => false
  end.

(** A body node as [parseExp] builds it for [parseFunc]. *)
Definition exp_node (v : Node) : bool :=
  match v with
  | ExpNode exps (Some _) => (length exps <=? 8) && forallb exp_item exps
  | _ => false
  end.

(** Kinds whose tokens have one spelling, as [Next] and [ident] write them. *)
Definition fixed_lexeme (k : TokenType) : option string :=
  match k with
  | TT_EOF => Some "<eof>"
  | TT_FUNC => Some "func"
  | TT_SEMICOLON => Some ";"
  | TT_LCBRACKET => Some "{"
  | TT_RCBRACKET => Some "}"
  | TT_LBRACKET => Some "["
  | TT_RBRACKET => Some "]"
  | TT_LPAREN => Some "("
  | TT_RPAREN => Some ")"
  | TT_NUMSIGN => Some "#"
  | TT_QUOT => Some "'"
  | TT_COLON | TT_IF | TT_LITINT | TT_LITFLOAT | TT_IDENT => None
  end.

(** The token is a punctuation or end-of-input token cut at [t1]. *)
Definition single_token (tk : Token) (t1 : tokenizer) : Prop :=
  fixed_lexeme (Typ tk) = Some (SVal tk) /\ Typ tk <> TT_FUNC /\
  filepos t1 = (Ok (Pos tk), t1).

(** A rune the loop of [litintfloat] appends. *)
Definition digit_or_point (rn : rune) : bool :=
  isdigit rn || (rn =? rn_of ".")%Z.

(** Number of points among the runes of [s]. *)
Definition points (s : string) : nat :=
  length (List.filter (fun rn => (rn =? rn_of ".")%Z) (runes_of_string s)).


(** * Properties *)

(** ** Reasoning principles *)

(** Rewrite with what a hypothesis about all entries of a list says of
    its head. *)
Ltac rewrite_head H :=
  let Hh := fresh in
  pose proof (H _ (or_introl eq_refl)) as Hh; cbn in Hh; rewrite Hh; clear Hh.

(** Induction on types whose hypotheses reach the members of a union and
    the argument and return types of a function type. *)
Lemma Type_nested_ind (P : Type_ -> Prop) :
  P InvalidType ->
  P VoidType ->
  (forall name, P (PrimType name)) ->
  (forall ts, Forall P ts -> P (UnionType ts)) ->
  (forall args rets, Forall P args -> Forall P rets -> P (FuncType args rets)) ->
  forall t, P t.
Proof.
  intros Hnil Hvoid Hprim Hunion Hfunc.
  fix IH 1.
  intros [| | name | ts | args rets].
  - exact Hnil.
  - exact Hvoid.
  - apply Hprim.
  - apply Hunion. induction ts as [|t ts IHts]; constructor; [apply IH | exact IHts].
  - apply Hfunc.
    + induction args as [|t ts IHts]; constructor; [apply IH | exact IHts].
    + induction rets as [|t ts IHts]; constructor; [apply IH | exact IHts].
Qed.

Lemma TypeCmp_union ts1 ts2 :
  TypeCmp (UnionType ts1) (UnionType ts2) =
    if length ts1 <? length ts1 then Ok (-1)%Z
    else if length ts2 <? length ts1 then Ok 1%Z
    else TypeCmp_members ts1 ts2.
Proof.
  reflexivity.
Qed.

Lemma strings_Compare_refl a : strings_Compare a a = 0%Z.
Proof.
  unfold strings_Compare.
  pose proof (String.compare_antisym a a) as H.
  destruct (String.compare a a); cbn in H; congruence.
Qed.

Lemma forallb_Forall_plain ts : forallb plain ts = true -> Forall (fun t => plain t = true) ts.
Proof.
  intros H. apply List.Forall_forall. intros x Hx.
  rewrite List.forallb_forall in H. auto.
Qed.

Lemma TypeCmp_refl t : plain t = true -> TypeCmp t t = Ok 0%Z.
Proof.
  induction t as [| | name | ts IH | args rets _ _] using Type_nested_ind;
    cbn [plain]; intros Hp; try discriminate.
  - reflexivity.
  - cbn [TypeCmp]. rewrite strings_Compare_refl. reflexivity.
  - rewrite TypeCmp_union. rewrite Nat.ltb_irrefl.
    apply forallb_Forall_plain in Hp.
    induction ts as [|x ts IHts]; [reflexivity|].
    inversion IH as [|? ? Hx Hts]; subst. inversion Hp as [|? ? Px Pts]; subst.
    cbn [TypeCmp_members]. rewrite (Hx Px). cbn. auto.
Qed.

Lemma TypeCmp_members_total l1 :
  Forall (fun x => forall b, plain b = true -> exists c, TypeCmp x b = Ok c) l1 ->
  forall l2, Forall (fun t => plain t = true) l2 ->
  (length l1 <= length l2)%nat ->
  exists c, TypeCmp_members l1 l2 = Ok c.
Proof.
  induction 1 as [|x l1 Hx _ IH]; intros l2 Hl2 Hlen.
  - eexists; reflexivity.
  - destruct l2 as [|y l2]; [cbn in Hlen; lia|].
    inversion Hl2 as [|? ? Py Pl2]; subst.
    cbn [TypeCmp_members]. destruct (Hx y Py) as [c ->].
    destruct (c =? 0)%Z; [|eexists; reflexivity].
    apply IH; [assumption | cbn in Hlen; lia].
Qed.

(** On plain types [TypeCmp] returns: it neither panics nor indexes out
    of range. *)
Lemma TypeCmp_total a :
  plain a = true -> forall b, plain b = true -> exists c, TypeCmp a b = Ok c.
Proof.
  induction a as [| | name | ts IH | args rets _ _] using Type_nested_ind;
    cbn [plain]; intros Ha b Hb; try discriminate.
  - destruct b; eexists; reflexivity.
  - destruct b; try discriminate; eexists; reflexivity.
  - destruct b as [| | nb | tsb |]; try discriminate; try (eexists; reflexivity).
    rewrite TypeCmp_union. rewrite Nat.ltb_irrefl.
    destruct (length tsb <? length ts) eqn:Hlen; [eexists; reflexivity|].
    apply Nat.ltb_ge in Hlen.
    apply forallb_Forall_plain in Ha. cbn [plain] in Hb.
    apply forallb_Forall_plain in Hb.
    apply TypeCmp_members_total; [|assumption|assumption].
    clear Hlen Hb. induction ts as [|x ts IHts]; constructor;
      inversion IH; inversion Ha; subst; auto.
Qed.

Lemma TypeEqual_refl t : plain t = true -> TypeEqual t t = Ok true.
Proof. intros H. unfold TypeEqual. rewrite (TypeCmp_refl t H). reflexivity. Qed.

Lemma TypeEqual_total a b :
  plain a = true -> plain b = true -> exists r, TypeEqual a b = Ok r.
Proof.
  intros Ha Hb. unfold TypeEqual.
  destruct (TypeCmp_total a Ha b Hb) as [c ->]. eexists; reflexivity.
Qed.

Lemma compat_member_found a ts :
  plain a = true -> Forall (fun t => plain t = true) ts -> In a ts ->
  compat_member a ts = Ok true.
Proof.
  intros Ha Hts. induction Hts as [|typ ts Ptyp _ IH]; intros Hin; [destruct Hin|].
  cbn [compat_member].
  destruct (TypeEqual_total a typ Ha Ptyp) as [r Hr]. rewrite Hr. cbn.
  destruct r; [reflexivity|].
  destruct Hin as [->|Hin]; [|auto].
  rewrite (TypeEqual_refl a Ha) in Hr. discriminate.
Qed.

Lemma compat_subset_incl ts_a ts_b :
  Forall (fun t => plain t = true) ts_a ->
  Forall (fun t => plain t = true) ts_b ->
  (forall x, In x ts_a -> In x ts_b) ->
  compat_subset ts_a ts_b = Ok true.
Proof.
  intros Ha Hb. induction Ha as [|x ts_a Px _ IH]; intros Hincl; [reflexivity|].
  cbn [compat_subset].
  rewrite (compat_member_found x ts_b Px Hb) by (apply Hincl; left; reflexivity).
  cbn. apply IH. intros y Hy. apply Hincl. right. assumption.
Qed.

Lemma sort_insert_plain x rp r :
  plain x = true -> Forall (fun t => plain t = true) rp ->
  sort_insert x rp = Ok r -> Forall (fun t => plain t = true) r.
Proof.
  intros Px Hrp. revert r. induction Hrp as [|y rp Py Hrp IH]; intros r; cbn [sort_insert].
  - intros [= <-]. constructor; [assumption | constructor].
  - destruct (TypeCmp x y) as [c| | |]; cbn; try discriminate.
    destruct (c <? 0)%Z.
    + destruct (sort_insert x rp) as [r'| | |]; cbn; try discriminate.
      intros [= <-]. constructor; [assumption | apply IH; reflexivity].
    + intros [= <-]. constructor; [assumption | constructor; assumption].
Qed.

Lemma sort_Slice_from_plain todo : forall rp r,
  Forall (fun t => plain t = true) rp -> Forall (fun t => plain t = true) todo ->
  sort_Slice_from rp todo = Ok r -> Forall (fun t => plain t = true) r.
Proof.
  induction todo as [|x todo IH]; intros rp r Hrp Htodo; cbn [sort_Slice_from].
  - intros [= <-]. apply List.Forall_rev. assumption.
  - inversion Htodo as [|? ? Px Ptodo]; subst.
    destruct (sort_insert x rp) as [rp'| | |] eqn:Hins; cbn; try discriminate.
    intros Hr. apply (IH rp' r); [exact (sort_insert_plain x rp rp' Px Hrp Hins) | assumption | exact Hr].
Qed.

(** A union built by [NewUnionType] from plain members is plain. *)
Lemma NewUnionType_plain types u :
  forallb plain types = true -> NewUnionType types = Ok u -> plain u = true.
Proof.
  intros Hp. unfold NewUnionType, sort_Slice.
  destruct (sort_Slice_from [] types) as [sorted| | |] eqn:Hs; cbn; try discriminate.
  destruct (NewUnionType_scan sorted None sorted); cbn; try discriminate.
  intros [= <-]. cbn [plain].
  apply List.forallb_forall. apply List.Forall_forall.
  eapply sort_Slice_from_plain; [constructor | apply forallb_Forall_plain; eassumption | eassumption].
Qed.

Lemma TypeCompatibleWith_plain_refl t :
  plain t = true -> TypeCompatibleWith t t = Ok true.
Proof.
  destruct t as [| | name | ts |]; cbn [plain]; intros Hp; try discriminate.
  - reflexivity.
  - cbn [TypeCompatibleWith]. apply TypeEqual_refl. reflexivity.
  - cbn [TypeCompatibleWith]. apply forallb_Forall_plain in Hp.
    apply compat_subset_incl; auto.
Qed.

(** ** The tokenizer returns *)

(** [tz_read] never fails, leaves the pushback empty and, unless it
    returns [eof], has taken a rune. *)
Lemma tz_read_spec t :
  exists rn t', tz_read t = (Ok rn, t') /\ t_rn t' = eof /\
    tz_left t' <= tz_left t /\ (rn <> eof -> tz_left t' < tz_left t).
Proof.
  unfold tz_read, tz_left. destruct (t_rn t =? eof)%Z eqn:Hrn; cbn [negb].
  - apply Z.eqb_eq in Hrn. destruct (t_r t) as [|rn rest] eqn:Hr.
    + exists eof, t. rewrite Hrn, Hr. cbn. repeat split; auto; congruence.
    + destruct (rn =? rn_of "010")%Z; [|destruct (negb (rn =? rn_of "013")%Z)];
        eexists _, _; (split; [reflexivity|]); cbn; rewrite Hrn; cbn;
        repeat split; auto; lia.
  - eexists _, _. split; [reflexivity|]. cbn. repeat split; auto; lia.
Qed.

(** After a read the pushback is empty, so [tz_unread] does not panic. *)
Lemma tz_unread_spec rn t :
  t_rn t = eof -> rn <> eof ->
  exists t', tz_unread rn t = (Ok tt, t') /\ tz_left t' = S (tz_left t).
Proof.
  intros Ht Hrn. unfold tz_unread, tz_left. rewrite Ht. cbn.
  eexists. split; [reflexivity|]. cbn.
  destruct (rn =? eof)%Z eqn:E; [apply Z.eqb_eq in E; contradiction|]. lia.
Qed.

Lemma litintfloat_loop_total fuel : forall buf sd t,
  tz_left t < fuel -> tz_spec t (litintfloat_loop fuel buf sd t).
Proof.
  induction fuel as [|fuel IH]; intros buf sd t Hf; [lia|].
  cbn [litintfloat_loop]. unfold bind at 1.
  destruct (tz_read_spec t) as (rn & t1 & -> & Hrn1 & Hle & Hlt).
  destruct (rn =? eof)%Z eqn:Heof; [split; [exact I | exact Hle]|].
  apply Z.eqb_neq in Heof. specialize (Hlt Heof).
  destruct (isdigit rn).
  { destruct (IH (WriteRune buf rn) sd t1) as [H1 H2]; [lia|]. split; [exact H1 | lia]. }
  destruct (rn =? rn_of ".")%Z.
  - destruct sd.
    + split; [exact I | cbn; lia].
    + destruct (IH (WriteRune buf rn) true t1) as [H1 H2]; [lia|]. split; [exact H1 | lia].
  - unfold bind. destruct (tz_unread_spec rn t1 Hrn1 Heof) as (t2 & -> & H2).
    split; [exact I | cbn; lia].
Qed.

Lemma ident_loop_total fuel : forall buf t,
  tz_left t < fuel -> tz_spec t (ident_loop fuel buf t).
Proof.
  induction fuel as [|fuel IH]; intros buf t Hf; [lia|].
  cbn [ident_loop]. unfold bind at 1.
  destruct (tz_read_spec t) as (rn & t1 & -> & Hrn1 & Hle & Hlt).
  destruct (rn =? eof)%Z eqn:Heof; [split; [exact I | exact Hle]|].
  apply Z.eqb_neq in Heof. specialize (Hlt Heof).
  destruct (isident rn).
  { destruct (IH (WriteRune buf rn) t1) as [H1 H2]; [lia|]. split; [exact H1 | lia]. }
  unfold bind. destruct (tz_unread_spec rn t1 Hrn1 Heof) as (t2 & -> & H2).
  split; [exact I | cbn; lia].
Qed.

Lemma tz_fuel_enough t : tz_left t < tz_fuel t.
Proof. unfold tz_left, tz_fuel. destruct (t_rn t =? eof)%Z; lia. Qed.

(** The skipping loop returns a rune; unless that rune is [eof] a rune was
    consumed. *)
Lemma Next_skip_total fuel : forall t,
  tz_left t < fuel ->
  exists rn t', Next_skip fuel t = (Ok rn, t') /\
    tz_left t' <= tz_left t /\ (rn <> eof -> tz_left t' < tz_left t).
Proof.
  induction fuel as [|fuel IH]; intros t Hf; [lia|].
  cbn [Next_skip]. unfold bind at 1.
  destruct (tz_read_spec t) as (rn & t1 & -> & Hrn1 & Hle & Hlt).
  destruct (negb (iswhitespace rn) || (rn =? eof)%Z) eqn:Hstop.
  - exists rn, t1. repeat split; auto.
  - apply orb_false_iff in Hstop as [_ Heof]. apply Z.eqb_neq in Heof.
    specialize (Hlt Heof).
    destruct (IH t1) as (rn' & t' & -> & Hle' & Hlt'); [lia|].
    exists rn', t'. split; [reflexivity|]. split; [lia|].
    intros H. specialize (Hlt' H). lia.
Qed.

Lemma mk_eq sval tt t :
  mk sval tt t
    = (Ok (mkToken sval tt (mkFilePos (t_lineno t) (t_charno t) (t_fpath t))), t).
Proof. reflexivity. Qed.

Lemma ident_spec rn t :
  exists r t', ident rn t = (r, t') /\ returns r /\ tz_left t' <= tz_left t.
Proof.
  unfold ident. unfold bind at 1.
  destruct (ident_loop_total (tz_fuel t) (WriteRune "" rn) t (tz_fuel_enough t)) as [H1 H2].
  destruct (ident_loop (tz_fuel t) (WriteRune "" rn) t) as [[str| | |] t1];
    cbn in H1, H2; try contradiction.
  - destruct (String.eqb str "func"); rewrite mk_eq; eexists _, _; repeat split; auto.
  - eexists _, _; repeat split; auto.
Qed.

Lemma litintfloat_spec rn t :
  exists r t', litintfloat rn t = (r, t') /\ returns r /\ tz_left t' <= tz_left t.
Proof.
  unfold litintfloat. unfold bind at 1.
  destruct (litintfloat_loop_total (tz_fuel t) (WriteRune "" rn) false t (tz_fuel_enough t))
    as [H1 H2].
  destruct (litintfloat_loop (tz_fuel t) (WriteRune "" rn) false t) as [[[str sd]| | |] t1];
    cbn in H1, H2; try contradiction.
  - destruct (String.eqb str "-"); [|destruct sd]; try rewrite mk_eq;
      eexists _, _; repeat split; auto.
  - eexists _, _; repeat split; auto.
Qed.

(** [Next] returns a token or an error, never panics, and consumes at least
    one rune unless it returns the [EOF] token. *)
Lemma Next_spec t :
  exists r t', Next t = (r, t') /\ returns r /\ tz_left t' <= tz_left t /\
    (tz_left t' < tz_left t \/ exists tk, r = Ok tk /\ Typ tk = TT_EOF).
Proof.
  unfold Next. unfold bind at 1.
  destruct (Next_skip_total (tz_fuel t) t (tz_fuel_enough t))
    as (rn & t1 & -> & Hle & Hlt).
  repeat match goal with
         | |- context [(if (?x =? ?c)%Z then mk ?s ?k else _) _] =>
             let E := fresh "E" in
             destruct (x =? c)%Z eqn:E;
             [ rewrite mk_eq; eexists _, _; split; [reflexivity|];
               split; [exact I|]; split; [exact Hle|];
               left; apply Hlt; apply Z.eqb_eq in E; rewrite E; discriminate
             | clear E ]
         end.
  destruct (isletter rn || (rn =? rn_of "%")%Z) eqn:Hid.
  { assert (Hne : rn <> eof) by (intros ->; discriminate Hid).
    destruct (ident_spec rn t1) as (r & t' & -> & Hr & Hle').
    exists r, t'. specialize (Hlt Hne).
    split; [reflexivity|]. split; [exact Hr|]. split; [lia|]. left; lia. }
  destruct (isdigit rn || (rn =? rn_of "-")%Z) eqn:Hnum.
  { assert (Hne : rn <> eof) by (intros ->; discriminate Hnum).
    destruct (litintfloat_spec rn t1) as (r & t' & -> & Hr & Hle').
    exists r, t'. specialize (Hlt Hne).
    split; [reflexivity|]. split; [exact Hr|]. split; [lia|]. left; lia. }
  destruct (rn =? eof)%Z eqn:Heof.
  - rewrite mk_eq. eexists _, _. split; [reflexivity|].
    split; [exact I|]. split; [exact Hle|].
    right. eexists. split; reflexivity.
  - apply Z.eqb_neq in Heof. eexists _, _. split; [reflexivity|]. cbn.
    split; [exact I|]. split; [exact Hle|]. left. apply Hlt. assumption.
Qed.

(** The token list of a text is a value or an error. *)
Lemma tokens_total fuel : forall t,
  tz_left t < fuel -> returns (fst (tokens fuel t)).
Proof.
  induction fuel as [|fuel IH]; intros t Hf; [lia|].
  cbn [tokens]. unfold bind at 1.
  destruct (Next_spec t) as (r & t' & -> & Hr & Hle & Hlt).
  destruct r as [tk|e|msg|]; cbn in Hr; try contradiction; [|exact I].
  destruct (Typ tk) eqn:Htk; [exact I|..];
    (destruct Hlt as [Hlt|(tk' & [= <-] & Heof)]; [|congruence]);
    specialize (IH t'); unfold bind;
    (destruct (tokens fuel t') as [[tks| | |] t'']; cbn in *; [exact I|exact I|..];
     apply IH; lia).
Qed.

(** X2.  Reading the tokens of a source text up to the [EOF] token, as
    [checkTypes] and [mustError] of the tests do, ends for every text, with
    the list of tokens or with the error of the tokenizer. *)
Lemma tokenize_returns code : returns (tokenize code).
Proof. unfold tokenize. apply tokens_total, tz_fuel_enough. Qed.

(** ** The parser's fuel suffices *)

Lemma returns_terminates {A} (r : result A) : returns r -> terminates r.
Proof. destruct r; cbn; intros H; try contradiction; discriminate. Qed.

(** [read] returns; it takes a buffered token or a token of the tokenizer,
    and only the [EOF] token of an empty buffer costs nothing. *)
Lemma read_spec p :
  exists r p1, read p = (r, p1) /\ returns r /\ p_left p1 <= p_left p /\
    (p_left p1 < p_left p \/
     exists tk, r = Ok tk /\ Typ tk = TT_EOF /\ tkbuf p1 = []).
Proof.
  unfold read, bind, readbuf, p_left. destruct (tkbuf p) as [|it rest] eqn:Hbuf.
  - unfold tz_Next. destruct (Next_spec (tz p)) as (r & t' & -> & Hr & Hle & Hlt).
    exists r, (mkParser t' (tkbuf p)). rewrite Hbuf. cbn.
    split; [reflexivity|]. split; [exact Hr|]. split; [lia|].
    destruct Hlt as [Hlt|(tk & -> & Heof)]; [left; lia | right; eauto].
  - eexists _, _. split; [reflexivity|]. cbn. split; [exact I|]. split; [lia|].
    left; lia.
Qed.

Lemma read_buffered p tk rest :
  tkbuf p = tk :: rest -> read p = (Ok tk, mkParser (tz p) rest).
Proof. intros H. unfold read, bind, readbuf. rewrite H. reflexivity. Qed.

Lemma step_bind {A B} (m : M Parser A) (k : A -> M Parser B) p :
  step_spec m p ->
  (forall a p1, m p = (Ok a, p1) -> p_left p1 <= p_left p -> step_spec (k a) p1) ->
  step_spec (bind m k) p.
Proof.
  unfold step_spec, bind. intros [Hm1 Hm2] Hk.
  destruct (m p) as [[a|e|msg|] p1] eqn:Hmp; cbn in *;
    try (split; [discriminate | intros ? [=]]).
  - specialize (Hm2 a eq_refl). destruct (Hk a p1 eq_refl Hm2) as [H1 H2].
    split; [exact H1 | intros b Hb; specialize (H2 b Hb); lia].
  - exfalso. apply Hm1. reflexivity.
Qed.

Lemma step_ret {A} (a : A) p : step_spec (ret a) p.
Proof. split; [discriminate | cbn; lia]. Qed.
Lemma step_fail {A} e p : step_spec (@fail Parser A e) p.
Proof. split; [discriminate | intros ? [=]]. Qed.
Lemma step_panic {A} msg p : step_spec (@panic Parser A msg) p.
Proof. split; [discriminate | intros ? [=]]. Qed.
Lemma step_store8 {A} (l : list A) x p : step_spec (store8 l x) p.
Proof. unfold store8. destruct (length l <? 8); [apply step_ret | apply step_panic]. Qed.

Lemma consume_step {A} (m : M Parser A) p : consume_spec m p -> step_spec m p.
Proof. intros [H1 H2]. split; [exact H1 | intros a Ha; specialize (H2 a Ha); lia]. Qed.

(** A parser that begins by reading a token: what is known of the state
    after the read is passed to the rest. *)
Lemma step_read_first {A} (K : Token -> M Parser A) p :
  (forall tk p1, p_left p1 <= p_left p ->
     p_left p1 < p_left p \/ (Typ tk = TT_EOF /\ tkbuf p1 = []) ->
     step_spec (K tk) p1) ->
  step_spec (bind read K) p.
Proof.
  intros HK. unfold step_spec, bind.
  destruct (read_spec p) as (r & p1 & -> & Hr & Hle & Hlt).
  destruct r as [tk|e|msg|]; cbn in Hr; try contradiction.
  - assert (Hd : p_left p1 < p_left p \/ (Typ tk = TT_EOF /\ tkbuf p1 = [])).
    { destruct Hlt as [Hlt|(tk' & [= <-] & H1 & H2)]; auto. }
    destruct (HK tk p1 Hle Hd) as [H1 H2].
    split; [exact H1 | intros a Ha; specialize (H2 a Ha); lia].
  - cbn. split; [discriminate | intros ? [=]].
Qed.

(** If moreover the rest fails on [EOF], the parser is a sub-parser. *)
Lemma consume_read_first {A} (K : Token -> M Parser A) p :
  (forall tk p1, p_left p1 <= p_left p ->
     p_left p1 < p_left p \/ (Typ tk = TT_EOF /\ tkbuf p1 = []) ->
     step_spec (K tk) p1) ->
  (forall tk p1 a, Typ tk = TT_EOF -> fst (K tk p1) <> Ok a) ->
  consume_spec (bind read K) p.
Proof.
  intros HK Heof. unfold consume_spec, bind.
  destruct (read_spec p) as (r & p1 & -> & Hr & Hle & Hlt).
  destruct r as [tk|e|msg|]; cbn in Hr; try contradiction.
  - assert (Hd : p_left p1 < p_left p \/ (Typ tk = TT_EOF /\ tkbuf p1 = [])).
    { destruct Hlt as [Hlt|(tk' & [= <-] & H1 & H2)]; auto. }
    destruct (HK tk p1 Hle Hd) as [H1 H2].
    split; [exact H1|]. intros a Ha. specialize (H2 a Ha).
    destruct Hd as [Hd|[Ht _]]; [lia|].
    exfalso. exact (Heof tk p1 a Ht Ha).
  - cbn. split; [discriminate | intros ? [=]].
Qed.

(** Pushing a token back, running a sub-parser and going on. *)
Lemma step_unread_sub {A B} (sub : M Parser A) (k : A -> M Parser B) tk p :
  consume_spec sub (snd (unread tk p)) ->
  (forall a p3, sub (snd (unread tk p)) = (Ok a, p3) ->
     p_left p3 <= p_left p -> step_spec (k a) p3) ->
  step_spec (bind (unread tk) (fun _ => bind sub k)) p.
Proof.
  intros [H1 H2] Hk.
  assert (Hp2 : p_left (snd (unread tk p)) = S (p_left p)).
  { unfold p_left. cbn. rewrite length_app. cbn. lia. }
  unfold step_spec.
  change (bind (unread tk) (fun _ => bind sub k) p)
    with (bind sub k (snd (unread tk p))).
  revert H1 H2 Hk Hp2. generalize (snd (unread tk p)). intros p2 H1 H2 Hk Hp2.
  unfold bind. destruct (sub p2) as [[a|e|msg|] p3]; cbn in *;
    try (split; [discriminate | intros ? [=]]).
  - specialize (H2 a eq_refl).
    destruct (Hk a p3 eq_refl) as [K1 K2]; [lia|].
    split; [exact K1 | intros b Hb; specialize (K2 b Hb); lia].
  - exfalso. apply H1. reflexivity.
Qed.

Lemma step_read_unchecked p : step_spec read_unchecked p.
Proof.
  unfold read_unchecked, step_spec, bind, attempt.
  destruct (read_spec p) as (r & p1 & -> & Hr & Hle & _).
  destruct r; cbn in *; try contradiction;
    (split; [discriminate | intros ? [=]; lia]).
Qed.

Lemma parseData_consumes p : consume_spec parseData p.
Proof.
  unfold parseData. apply consume_read_first.
  - intros tk p1 _ _. destruct (Typ tk);
      try apply step_fail; try apply step_ret.
    + destruct (strconv_ParseInt (SVal tk)); [apply step_ret | apply step_fail].
    + destruct (strconv_ParseFloat (SVal tk)); [apply step_ret | apply step_fail].
    + apply step_bind; [apply step_read_unchecked|].
      intros tk' p2 _ _. destruct (Typ tk'); try apply step_fail; apply step_ret.
  - intros tk p1 a ->. discriminate.
Qed.

(** The functions on types consume no fuel. *)
Lemma TypeCmp_members_terminates l1 :
  Forall (fun x => forall y, terminates (TypeCmp x y)) l1 ->
  forall l2, terminates (TypeCmp_members l1 l2).
Proof.
  unfold terminates.
  induction 1 as [|x l1 Hx _ IH]; intros [|y l2]; cbn; try discriminate.
  specialize (Hx y). destruct (TypeCmp x y) as [c| | |]; try discriminate.
  - destruct (c =? 0)%Z; [apply IH | discriminate].
  - exact Hx.
Qed.

Lemma TypeCmp_terminates t1 : forall t2, terminates (TypeCmp t1 t2).
Proof.
  induction t1 as [| | name | ts IH | args rets _ _] using Type_nested_ind;
    intros t2; try (unfold terminates; discriminate).
  - destruct t2; unfold terminates; discriminate.
  - destruct t2; unfold terminates; discriminate.
  - destruct t2 as [| | | ts2 |]; try (unfold terminates; discriminate).
    rewrite TypeCmp_union. destruct (length ts <? length ts); [unfold terminates; discriminate|].
    destruct (length ts2 <? length ts); [unfold terminates; discriminate|].
    apply TypeCmp_members_terminates. exact IH.
Qed.

Lemma rbind_terminates {A B} (r : result A) (k : A -> result B) :
  terminates r -> (forall a, terminates (k a)) -> terminates (rbind r k).
Proof. unfold terminates. destruct r; cbn; auto; intros; discriminate. Qed.

Lemma sort_insert_terminates x rp : terminates (sort_insert x rp).
Proof.
  induction rp as [|y rp IH]; cbn; [unfold terminates; discriminate|].
  apply rbind_terminates; [apply TypeCmp_terminates|].
  intros c. destruct (c <? 0)%Z; [|unfold terminates; discriminate].
  apply rbind_terminates; [exact IH | unfold terminates; discriminate].
Qed.

Lemma sort_Slice_from_terminates todo : forall rp, terminates (sort_Slice_from rp todo).
Proof.
  induction todo as [|x todo IH]; intros rp; cbn; [unfold terminates; discriminate|].
  apply rbind_terminates; [apply sort_insert_terminates | auto].
Qed.

Lemma NewUnionType_scan_terminates all rest : forall prev,
  terminates (NewUnionType_scan all prev rest).
Proof.
  induction rest as [|x rest IH]; intros [p|]; cbn;
    try (unfold terminates; discriminate); auto.
  apply rbind_terminates.
  - unfold TypeEqual. apply rbind_terminates;
      [apply TypeCmp_terminates | unfold terminates; discriminate].
  - intros []; [unfold terminates; discriminate | apply IH].
Qed.

Lemma NewUnionType_terminates types : terminates (NewUnionType types).
Proof.
  unfold NewUnionType. apply rbind_terminates; [apply sort_Slice_from_terminates|].
  intros sorted. apply rbind_terminates; [apply NewUnionType_scan_terminates|].
  unfold terminates; discriminate.
Qed.

(** [parseType] and its union loop share their fuel: two units per token
    left are enough. *)
Lemma parseType_specs fuel :
  (forall p, 2 * p_left p + 1 <= fuel -> consume_spec (parseType_fuel fuel) p) /\
  (forall types p, 2 * p_left p + 2 <= fuel ->
     step_spec (parseType_union fuel types) p).
Proof.
  induction fuel as [|fuel [IHT IHU]]; [split; intros; lia|]. split.
  - intros p Hf. cbn [parseType_fuel]. apply consume_read_first.
    + intros tk p1 Hle Hd. destruct (Typ tk) eqn:Htk;
        try apply step_fail; try apply step_ret.
      destruct Hd as [Hlt|[? _]]; [|congruence].
      apply step_bind; [apply IHU; lia|].
      intros types p2 _ _. unfold step_spec.
      pose proof (NewUnionType_terminates types) as HN.
      unfold terminates in *.
      destruct (NewUnionType types) as [ut|[]| |]; cbn;
        try (split; [discriminate | intros ? [=] ]); try lia.
      exfalso. apply HN. reflexivity.
    + intros tk p1 a Htk. rewrite Htk. discriminate.
  - intros types p Hf. cbn [parseType_union]. apply step_read_first.
    intros tk p1 Hle Hd. destruct (Typ tk) eqn:Htk;
      try apply step_fail; try apply step_ret.
    destruct Hd as [Hlt|[? _]]; [|congruence].
    apply step_unread_sub.
    + apply IHT. unfold p_left. cbn. rewrite length_app. cbn.
      unfold p_left in Hlt, Hf. lia.
    + intros typ p3 _ Hp3. apply IHU. lia.
Qed.

Lemma p_fuel_enough p : 2 * p_left p + 2 <= p_fuel p.
Proof.
  unfold p_left, p_fuel, tz_left. destruct (t_rn (tz p) =? eof)%Z; lia.
Qed.

Lemma parseType_consumes p : consume_spec parseType p.
Proof.
  unfold parseType. apply (proj1 (parseType_specs (p_fuel p))).
  pose proof (p_fuel_enough p). lia.
Qed.

(** With the [EOF] token buffered first, [parseType] and [parseExp] fail. *)
Lemma parseType_at_eof p tk rest a :
  tkbuf p = tk :: rest -> Typ tk = TT_EOF -> fst (parseType p) <> Ok a.
Proof.
  intros Hbuf Htk. unfold parseType, p_fuel. cbn [Nat.add parseType_fuel].
  unfold bind. rewrite (read_buffered p tk rest Hbuf), Htk. discriminate.
Qed.

Lemma parseExp_at_eof p tk rest a :
  tkbuf p = tk :: rest -> Typ tk = TT_EOF -> fst (parseExp p) <> Ok a.
Proof.
  intros Hbuf Htk. unfold parseExp, p_fuel. cbn [Nat.add parseExp_loop].
  unfold bind. rewrite (read_buffered p tk rest Hbuf), Htk. discriminate.
Qed.

Lemma consume_attempt_read {A} (K : result Token -> M Parser A) p :
  (forall tk p1, p_left p1 <= p_left p ->
     p_left p1 < p_left p \/ (Typ tk = TT_EOF /\ tkbuf p1 = []) ->
     step_spec (K (Ok tk)) p1) ->
  (forall tk p1 a, Typ tk = TT_EOF -> fst (K (Ok tk) p1) <> Ok a) ->
  (forall e p1, step_spec (K (Err e)) p1) ->
  consume_spec (bind (attempt read) K) p.
Proof.
  intros HK Heof Herr. unfold consume_spec, bind, attempt.
  destruct (read_spec p) as (r & p1 & -> & Hr & Hle & Hlt).
  destruct r as [tk|e|msg|]; cbn in Hr; try contradiction.
  - assert (Hd : p_left p1 < p_left p \/ (Typ tk = TT_EOF /\ tkbuf p1 = [])).
    { destruct Hlt as [Hlt|(tk' & [= <-] & H1 & H2)]; auto. }
    destruct (HK tk p1 Hle Hd) as [H1 H2].
    split; [exact H1|]. intros a Ha. specialize (H2 a Ha).
    destruct Hd as [Hd|[Ht _]]; [lia|].
    exfalso. exact (Heof tk p1 a Ht Ha).
  - destruct (Herr e p1) as [H1 H2]. split; [exact H1|].
    intros a Ha. specialize (H2 a Ha).
    destruct Hlt as [Hlt|(tk' & [=] & _)]. lia.
Qed.

Lemma parseArg_consumes p : consume_spec parseArg p.
Proof.
  unfold parseArg. apply consume_attempt_read.
  - intros tk p1 _ _. destruct (Typ tk); try apply step_fail.
    apply consume_step, consume_attempt_read.
    + intros tk2 p2 _ _. destruct (Typ tk2); try apply step_fail.
      apply step_bind; [apply consume_step, parseType_consumes|].
      intros tp p3 _ _. apply step_read_first. intros tk0 p4 _ _.
      destruct (Typ tk0); try apply step_fail; apply step_ret.
    + intros tk2 p2 a ->. discriminate.
    + intros e p2. apply step_ret.
  - intros tk p1 a ->. discriminate.
  - intros e p1. apply step_ret.
Qed.

Lemma parseExp_loop_consumes fuel : forall firsttk nodes p,
  p_left p < fuel -> consume_spec (parseExp_loop fuel firsttk nodes) p.
Proof.
  induction fuel as [|fuel IH]; intros firsttk nodes p Hf; [lia|].
  cbn [parseExp_loop]. apply consume_read_first.
  - intros tk p1 Hle Hd.
    destruct (Typ tk) eqn:Htk; try apply step_fail; try apply step_ret;
      (destruct Hd as [Hlt|[? _]]; [|congruence]);
      (apply step_unread_sub; [apply parseData_consumes|]);
      intros node p3 _ Hp3;
      (apply step_bind; [apply step_store8|]);
      intros nodes' p4 Hst _;
      assert (p4 = p3)
        by (unfold store8 in Hst; destruct (length nodes <? 8);
            [injection Hst; auto | discriminate]);
      subst p4; apply consume_step, IH; lia.
  - intros tk p1 a ->. discriminate.
Qed.

Lemma parseExp_consumes p : consume_spec parseExp p.
Proof.
  unfold parseExp. apply parseExp_loop_consumes.
  pose proof (p_fuel_enough p). lia.
Qed.

Lemma store8_state {A} (l : list A) x (p p' : Parser) l' :
  store8 l x p = (Ok l', p') -> p' = p.
Proof.
  unfold store8. destruct (length l <? 8); [intros [= _ <-]; reflexivity | discriminate].
Qed.

Lemma parseFunc_args_step fuel : forall args p,
  p_left p < fuel -> step_spec (parseFunc_args fuel args) p.
Proof.
  induction fuel as [|fuel IH]; intros args p Hf; [lia|].
  cbn [parseFunc_args]. apply step_read_first. intros tk p1 Hle Hd.
  destruct (Typ tk) eqn:Htk; try apply step_fail; try apply step_ret.
  destruct Hd as [Hlt|[? _]]; [|congruence].
  apply step_unread_sub; [apply parseArg_consumes|].
  intros arg p3 _ Hp3. apply step_bind; [apply step_store8|].
  intros args' p4 Hst _. apply store8_state in Hst. subst p4. apply IH. lia.
Qed.

Lemma parseFunc_rets_step fuel : forall rets p,
  p_left p < fuel -> step_spec (parseFunc_rets fuel rets) p.
Proof.
  induction fuel as [|fuel IH]; intros rets p Hf; [lia|].
  cbn [parseFunc_rets]. apply step_read_first. intros tk p1 Hle Hd.
  destruct (Typ tk) eqn:Htk; try apply step_ret;
    (apply step_unread_sub; [apply parseType_consumes|]);
    intros r p3 Hsub Hp3;
    (destruct Hd as [Hlt|[Heof Hbuf]];
     [ apply IH; lia
     | exfalso; apply (parseType_at_eof (snd (unread tk p1)) tk [] r);
       [cbn; rewrite Hbuf; reflexivity | congruence | rewrite Hsub; reflexivity] ]).
Qed.

Lemma parseFunc_body_step fuel : forall bodies p,
  p_left p < fuel -> step_spec (parseFunc_body fuel bodies) p.
Proof.
  induction fuel as [|fuel IH]; intros bodies p Hf; [lia|].
  cbn [parseFunc_body]. apply step_read_first. intros tk p1 Hle Hd.
  destruct (Typ tk) eqn:Htk; try apply step_ret;
    lazymatch type of Htk with
    | _ = TT_IF =>
        unfold parseIf, step_spec, terminates, bind, unread, panic; cbn;
        split; [discriminate | intros ? [=]]
    | _ =>
        (apply step_unread_sub; [apply parseExp_consumes|]);
        intros sexp p3 Hsub Hp3;
        (apply step_bind; [apply step_store8|]);
        intros bodies' p4 Hst _; apply store8_state in Hst; subst p4;
        (destruct Hd as [Hlt|[Heof Hbuf]];
         [ apply IH; lia
         | exfalso; apply (parseExp_at_eof (snd (unread tk p1)) tk [] sexp);
           [cbn; rewrite Hbuf; reflexivity | congruence | rewrite Hsub; reflexivity] ])
    end.
Qed.

Lemma p_fuel_above p : p_left p < p_fuel p.
Proof. pose proof (p_fuel_enough p). lia. Qed.

Lemma parseFunc_consumes p : consume_spec parseFunc p.
Proof.
  unfold parseFunc. apply consume_read_first.
  - intros tk p1 _ _. destruct (Typ tk); try apply step_fail.
    apply step_read_first. intros tk2 p2 _ _.
    destruct (Typ tk2); try apply step_fail.
    destruct (strings_ContainsRune (SVal tk2) ":"); [apply step_fail|].
    apply step_read_first. intros tk3 p3 _ _.
    destruct (Typ tk3); try apply step_fail.
    apply step_bind; [apply parseFunc_args_step, p_fuel_above|].
    intros args p4 _ _. apply step_read_first. intros tk4 p5 _ _.
    destruct (Typ tk4); try apply step_fail.
    apply step_bind; [apply parseFunc_rets_step, p_fuel_above|].
    intros rets p6 _ _. apply step_bind; [apply step_read_unchecked|].
    intros tk5 p7 _ _. destruct (Typ tk5); try apply step_fail.
    apply step_bind; [apply parseFunc_body_step, p_fuel_above|].
    intros bodies p8 _ _. apply step_ret.
  - intros tk p1 a ->. discriminate.
Qed.

Lemma parseFuncs_loop_step fuel : forall funcs p,
  p_left p < fuel -> step_spec (parseFuncs_loop fuel funcs) p.
Proof.
  induction fuel as [|fuel IH]; intros funcs p Hf; [lia|].
  cbn [parseFuncs_loop]. apply step_read_first. intros tk p1 Hle Hd.
  destruct (Typ tk) eqn:Htk; try apply step_fail; try apply step_ret.
  destruct Hd as [Hlt|[? _]]; [|congruence].
  apply step_unread_sub; [apply parseFunc_consumes|].
  intros fn p3 _ Hp3. destruct fn; try apply step_panic.
  apply step_bind; [apply step_store8|].
  intros funcs' p4 Hst _. apply store8_state in Hst. subst p4. apply IH. lia.
Qed.

(** X9.  Every loop of the tokenizer and of the parser ends: no entry
    point runs out of fuel, in whatever state it is called, so that every
    outcome of the embedding is an outcome of the Go program; the tokenizer
    moreover never panics. *)
Theorem fuel_suffices :
  (forall t, returns (fst (Next t))) /\
  (forall p, terminates (fst (parseData p))) /\
  (forall p, terminates (fst (parseType p))) /\
  (forall p, terminates (fst (parseArg p))) /\
  (forall p, terminates (fst (parseExp p))) /\
  (forall p, terminates (fst (parseFunc p))) /\
  (forall p, terminates (fst (parseFuncs p))).
Proof.
  split.
  { intros t. destruct (Next_spec t) as (r & t' & -> & Hr & _). exact Hr. }
  split; [intros p; apply parseData_consumes|].
  split; [intros p; apply parseType_consumes|].
  split; [intros p; apply parseArg_consumes|].
  split; [intros p; apply parseExp_consumes|].
  split; [intros p; apply parseFunc_consumes|].
  intros p. apply (parseFuncs_loop_step (p_fuel p) [] p (p_fuel_above p)).
Qed.

(** ** Numeric lexemes *)

(** The loop of [litintfloat] keeps [digitless_ok]: a numeric lexeme
    without a digit is the first rune alone or the first rune and a point. *)
Lemma runes_of_string_app a b :
  runes_of_string (a +:+ b) = runes_of_string a ++ runes_of_string b.
Proof.
  unfold runes_of_string. induction a as [|c a IH]; simpl; [reflexivity|].
  f_equal. exact IH.
Qed.

Lemma has_digit_WriteRune buf rn :
  (0 <= rn < 256)%Z ->
  has_digit (WriteRune buf rn) = has_digit buf || isdigit rn.
Proof.
  intros Hr. unfold has_digit, WriteRune. rewrite runes_of_string_app, existsb_app.
  cbn. unfold rn_of. rewrite nat_ascii_embedding by lia. rewrite Z2Nat.id by lia.
  rewrite orb_false_r. reflexivity.
Qed.

Lemma isdigit_range rn : isdigit rn = true -> (0 <= rn < 256)%Z.
Proof.
  unfold isdigit. intros H. apply andb_true_iff in H as [H1 H2].
  apply Z.leb_le in H1, H2.
  change (rn_of "0") with 48%Z in H1. change (rn_of "9") with 57%Z in H2. lia.
Qed.

Lemma litintfloat_loop_inv first fuel : forall buf sd t str sd' t',
  litintfloat_loop fuel buf sd t = (Ok (str, sd'), t') ->
  digitless_ok first buf sd -> digitless_ok first str sd'.
Proof.
  induction fuel as [|fuel IH]; intros buf sd t str sd' t'; cbn [litintfloat_loop];
    [discriminate|].
  unfold bind at 1. destruct (tz_read t) as [[rn| | |] t1] eqn:Hread; try discriminate.
  destruct (rn =? eof)%Z eqn:Heof.
  { intros [= <- <- <-]. auto. }
  destruct (isdigit rn) eqn:Hd.
  { intros H Hinv. apply (IH _ _ _ _ _ _ H). left.
    rewrite has_digit_WriteRune by (apply isdigit_range; assumption).
    rewrite Hd, orb_true_r. reflexivity. }
  destruct (rn =? rn_of ".")%Z eqn:Hdot.
  - destruct sd; [unfold bind, filepos, fail; discriminate|].
    intros H Hinv. apply (IH _ _ _ _ _ _ H).
    apply Z.eqb_eq in Hdot. subst rn.
    destruct Hinv as [Hh|[[-> _]|[_ ?]]]; [left|right; right|discriminate].
    + rewrite has_digit_WriteRune by (change (rn_of ".") with 46%Z; lia).
      rewrite Hh. reflexivity.
    + split; reflexivity.
  - unfold bind, tz_unread. destruct (negb (t_rn t1 =? eof)%Z); [discriminate|].
    cbn. intros [= <- <- <-]. auto.
Qed.

Lemma litintfloat_lexeme rn t tk t' :
  litintfloat rn t = (Ok tk, t') ->
  isdigit rn = true \/ rn = rn_of "-" ->
  has_digit (SVal tk) = true \/ (SVal tk = "-." /\ Typ tk = TT_LITFLOAT).
Proof.
  unfold litintfloat. unfold bind at 1.
  destruct (litintfloat_loop (tz_fuel t) (WriteRune "" rn) false t)
    as [[[str sd]| | |] t1] eqn:Hloop; try discriminate.
  pose proof (litintfloat_loop_inv (WriteRune "" rn) _ _ _ _ _ _ _ Hloop
                (or_intror (or_introl (conj eq_refl eq_refl)))) as Hinv.
  destruct (String.eqb str "-") eqn:Hminus; [unfold bind, filepos, fail; discriminate|].
  apply String.eqb_neq in Hminus.
  intros Htk Hrn.
  assert (Hs : SVal tk = str /\ Typ tk = if sd then TT_LITFLOAT else TT_LITINT).
  { destruct sd; rewrite mk_eq in Htk; injection Htk as <- _; split; reflexivity. }
  destruct Hs as [-> Ht].
  destruct Hinv as [Hh|[[-> ->]|[-> ->]]]; [left; exact Hh | |].
  - destruct Hrn as [Hd| ->]; [|exfalso; apply Hminus; reflexivity].
    left. rewrite has_digit_WriteRune by (apply isdigit_range; assumption).
    rewrite Hd. apply orb_true_r.
  - destruct Hrn as [Hd| ->]; [|right; split; [reflexivity|exact Ht]].
    left. unfold has_digit. rewrite runes_of_string_app, existsb_app.
    fold (has_digit (WriteRune "" rn)).
    rewrite has_digit_WriteRune by (apply isdigit_range; assumption).
    rewrite Hd. reflexivity.
Qed.

Lemma ident_type rn t tk t' :
  ident rn t = (Ok tk, t') -> Typ tk = TT_FUNC \/ Typ tk = TT_IDENT.
Proof.
  unfold ident. unfold bind at 1.
  destruct (ident_loop (tz_fuel t) (WriteRune "" rn) t) as [[str| | |] t1]; try discriminate.
  destruct (String.eqb str "func"); rewrite mk_eq; intros [= <- _]; auto.
Qed.

Lemma Next_numeric_lexeme t tk t' :
  Next t = (Ok tk, t') ->
  Typ tk = TT_LITINT \/ Typ tk = TT_LITFLOAT ->
  has_digit (SVal tk) = true \/ (SVal tk = "-." /\ Typ tk = TT_LITFLOAT).
Proof.
  unfold Next. unfold bind at 1.
  destruct (Next_skip (tz_fuel t) t) as [[rn| | |] t1]; try discriminate.
  repeat match goal with
         | |- (if ?c then mk _ _ else _) _ = _ -> _ =>
             destruct c; [rewrite mk_eq; intros [= <- _] [H|H]; discriminate H|]
         end.
  destruct (isletter rn || (rn =? rn_of "%")%Z).
  { intros H [Hi|Hf]; destruct (ident_type _ _ _ _ H); congruence. }
  destruct (isdigit rn || (rn =? rn_of "-")%Z) eqn:Hnum.
  { intros H _. apply (litintfloat_lexeme _ _ _ _ H).
    apply orb_true_iff in Hnum as [Hd|Hm]; [left; exact Hd | right; apply Z.eqb_eq; exact Hm]. }
  destruct (rn =? eof)%Z; [rewrite mk_eq; intros [= <- _] [H|H]; discriminate H|].
  unfold bind, filepos, fail. discriminate.
Qed.

(** ** The order on types *)

(** The empty union compares equal to every union. *)
Lemma TypeCmp_empty_union ts : TypeCmp (UnionType []) (UnionType ts) = Ok 0%Z.
Proof. reflexivity. Qed.

(** C2.  [TypeCmp] is not the order the claim describes.  With
    [u1 = {b}] and [u2 = {a c}], the union with fewer members does not
    come first: [TypeCmp u1 u2 = 1]; the two directions do not have opposite
    signs: [TypeCmp u2 u1 = 1] as well; and [TypeCmp] returns 0 on the
    unequal unions [{}] and [{int}], whose reverse comparison is 1. *)
Theorem TypeCmp_union_length_order_broken :
  let u1 := UnionType [PrimType "b"] in
  let u2 := UnionType [PrimType "a"; PrimType "c"] in
  TypeCmp u1 u2 = Ok 1%Z /\
  TypeCmp u2 u1 = Ok 1%Z /\
  TypeCmp (UnionType []) (UnionType [PrimType "int"]) = Ok 0%Z /\
  TypeCmp (UnionType [PrimType "int"]) (UnionType []) = Ok 1%Z /\
  TypeEqual (UnionType []) (UnionType [PrimType "int"]) = Ok true.
Proof. repeat split; vm_compute; reflexivity. Qed.

(** ** Compatibility *)

(** C7, counterexample.  The builtin entry [square.i] is a [FuncType], and
    [TypeCompatibleWith] on it does not return true: it panics.  So does
    the comparison of the union that [NewUnionType] builds from that one
    member. *)
Lemma TypeCompatibleWith_refl_FuncType_counterexample :
  let sq := FuncType [PrimType "int"] [PrimType "int"] in
  builtins !! "square.i" = Some sq /\
  TypeCompatibleWith sq sq = Panic BUG_compat /\
  TypeCompatibleWith sq sq <> Ok true /\
  NewUnionType [sq] = Ok (UnionType [sq]) /\
  TypeCompatibleWith (UnionType [sq]) (UnionType [sq]) = Panic BUG_cmp.
Proof.
  intros sq. split; [|split; [|split; [|split]]].
  - vm_compute. reflexivity.
  - reflexivity.
  - discriminate.
  - reflexivity.
  - reflexivity.
Qed.

(** C7, amended.  Compatibility is reflexive on every type made of
    [VoidType], [PrimType] and [UnionType] only, in particular on every union
    that [NewUnionType] builds from such members; on a [FuncType] value
    [TypeCompatibleWith] panics. *)
Theorem TypeCompatibleWith_refl :
  (forall t, plain t = true -> TypeCompatibleWith t t = Ok true) /\
  (forall types u, forallb plain types = true -> NewUnionType types = Ok u ->
     TypeCompatibleWith u u = Ok true) /\
  (forall args rets,
     TypeCompatibleWith (FuncType args rets) (FuncType args rets) = Panic BUG_compat).
Proof.
  split; [|split].
  - apply TypeCompatibleWith_plain_refl.
  - intros types u Hp Hu. apply TypeCompatibleWith_plain_refl.
    eapply NewUnionType_plain; eassumption.
  - reflexivity.
Qed.

Lemma TypeCompatibleWith_refl_witness :
  let members := [PrimType "int"; VoidType; PrimType "float"] in
  let u := UnionType [VoidType; PrimType "float"; PrimType "int"] in
  plain u = true /\
  forallb plain members = true /\
  NewUnionType members = Ok u /\
  TypeCompatibleWith u u = Ok true /\
  TypeCompatibleWith (PrimType "int") (PrimType "int") = Ok true.
Proof.
  intros members u.
  split; [reflexivity|]. split; [reflexivity|]. split; [vm_compute; reflexivity|].
  split.
  - apply (proj1 (proj2 TypeCompatibleWith_refl) members u); vm_compute; reflexivity.
  - apply (proj1 TypeCompatibleWith_refl); reflexivity.
Defined.

(** ** Inference on expressions *)

Lemma for_range_ok n : forall from body,
  (forall i, i < n -> body (from + i) = Ok tt) -> for_range n from body = Ok tt.
Proof.
  induction n as [|n IH]; intros from body H; [reflexivity|].
  cbn [for_range]. replace (body from) with (@Ok unit tt)
    by (symmetry; rewrite <- (Nat.add_0_r from); apply H; lia).
  cbn. apply IH. intros i Hi. replace (S from + i) with (from + S i) by lia.
  apply H. lia.
Qed.

Lemma for_range_first_err n : forall from body i e,
  i < n ->
  (forall j, j < i -> body (from + j) = Ok tt) ->
  body (from + i) = Err e ->
  for_range n from body = Err e.
Proof.
  induction n as [|n IH]; intros from body i e Hi Hbefore Herr; [lia|].
  cbn [for_range]. destruct i as [|i].
  - rewrite Nat.add_0_r in Herr. rewrite Herr. reflexivity.
  - replace (body from) with (@Ok unit tt)
      by (symmetry; rewrite <- (Nat.add_0_r from); apply Hbefore; lia).
    cbn. apply (IH (S from) body i e); [lia | |].
    + intros j Hj. replace (S from + j) with (from + S j) by lia. apply Hbefore. lia.
    + replace (S from + i) with (from + S i) by lia. exact Herr.
Qed.

Lemma check_compat_eq gots wants goff tk extra i got wanted :
  gots !! (goff + i) = Some got -> wants !! i = Some wanted ->
  check_compat gots wants goff tk extra i =
    match TypeCompatibleWith got wanted with
    | Ok true => Ok tt
    | Ok false => Err (TypeError wanted got tk extra)
    | Err e => Err e
    | Panic msg => Panic msg
    | OutOfFuel => OutOfFuel
    end.
Proof.
  intros Hg Hw. unfold check_compat, index. rewrite Hg, Hw. cbn.
  destruct (TypeCompatibleWith got wanted) as [[|]| | |]; reflexivity.
Qed.

Lemma push_all (rets stack : list Type_) :
  fold_left (fun stack rettyp => stack ++ [rettyp]) rets stack = stack ++ rets.
Proof.
  revert stack. induction rets as [|r rets IH]; intros stack; cbn.
  - rewrite app_nil_r. reflexivity.
  - rewrite IH, <- app_assoc. reflexivity.
Qed.

(** The comparison loop, when every pair is compatible. *)
Lemma compat_loop_ok gots wants goff tk extra :
  goff + length wants <= length gots ->
  (forall i got wanted, gots !! (goff + i) = Some got -> wants !! i = Some wanted ->
     TypeCompatibleWith got wanted = Ok true) ->
  for_range (length wants) 0 (check_compat gots wants goff tk extra) = Ok tt.
Proof.
  intros Hlen Hall. apply for_range_ok. intros i Hi. cbn.
  destruct (lookup_lt_is_Some_2 gots (goff + i)) as [got Hg]; [lia|].
  destruct (lookup_lt_is_Some_2 wants i) as [wanted Hw]; [lia|].
  rewrite (check_compat_eq _ _ _ _ _ _ _ _ Hg Hw), (Hall i got wanted Hg Hw).
  reflexivity.
Qed.

(** The comparison loop, at its first incompatible pair. *)
Lemma compat_loop_mismatch gots wants goff tk extra i got wanted :
  goff + length wants <= length gots ->
  gots !! (goff + i) = Some got -> wants !! i = Some wanted ->
  (forall j gj wj, j < i -> gots !! (goff + j) = Some gj -> wants !! j = Some wj ->
     TypeCompatibleWith gj wj = Ok true) ->
  TypeCompatibleWith got wanted = Ok false ->
  for_range (length wants) 0 (check_compat gots wants goff tk extra)
    = Err (TypeError wanted got tk extra).
Proof.
  intros Hlen Hg Hw Hbefore Hbad.
  assert (Hi : i < length wants) by (eapply lookup_lt_Some; eassumption).
  apply (for_range_first_err _ 0 _ i); [assumption | |].
  - intros j Hj. cbn.
    destruct (lookup_lt_is_Some_2 gots (goff + j)) as [gj Hgj]; [lia|].
    destruct (lookup_lt_is_Some_2 wants j) as [wj Hwj]; [lia|].
    rewrite (check_compat_eq _ _ _ _ _ _ _ _ Hgj Hwj), (Hbefore j gj wj Hj Hgj Hwj).
    reflexivity.
  - cbn. rewrite (check_compat_eq _ _ _ _ _ _ _ _ Hg Hw), Hbad. reflexivity.
Qed.

Section InferTypesRules.
Variable tk : option Token.          (* the ExpNode's token *)
Variable typeWorlds : TypeWorlds.

Lemma InferTypes_exp_cons v exps stack :
  InferTypes (ExpNode (v :: exps) tk) stack typeWorlds =
    rbind (InferTypes_item tk typeWorlds v stack)
          (fun stack' => InferTypes (ExpNode exps tk) stack' typeWorlds).
Proof. reflexivity. Qed.

Lemma InferTypes_exp_app pre post stack :
  InferTypes_exps tk typeWorlds (pre ++ post) stack =
    rbind (InferTypes_exps tk typeWorlds pre stack)
          (InferTypes_exps tk typeWorlds post).
Proof.
  revert stack. induction pre as [|v pre IH]; intros stack; [reflexivity|].
  cbn. destruct (InferTypes_item tk typeWorlds v stack); cbn; auto.
Qed.

Variables (verb : string) (vtk : option Token).
Variables ArgTypes RetTypes : list Type_.
Hypothesis Hlookup : Lookup typeWorlds verb = FuncType ArgTypes RetTypes.

Lemma InferTypes_verb_not_enough stack :
  length stack < length ArgTypes ->
  InferTypes_item tk typeWorlds (VerbNode verb vtk) stack
    = Err (ErrorString "Not enough arguments.").
Proof.
  intros Hlen. cbn [InferTypes_item]. unfold InferTypes_verb. rewrite Hlookup.
  apply Nat.ltb_lt in Hlen. rewrite Hlen. reflexivity.
Qed.

Lemma InferTypes_verb_mismatch stack i got formal :
  length ArgTypes <= length stack ->
  stack !! (length stack - length ArgTypes + i) = Some got ->
  ArgTypes !! i = Some formal ->
  (forall j gj fj, j < i ->
     stack !! (length stack - length ArgTypes + j) = Some gj ->
     ArgTypes !! j = Some fj -> TypeCompatibleWith gj fj = Ok true) ->
  TypeCompatibleWith got formal = Ok false ->
  InferTypes_item tk typeWorlds (VerbNode verb vtk) stack
    = Err (TypeError formal got tk (call_extra verb)).
Proof.
  intros Hlen Hg Hf Hbefore Hbad. cbn [InferTypes_item]. unfold InferTypes_verb.
  rewrite Hlookup. apply Nat.ltb_ge in Hlen as Hlt. rewrite Hlt.
  rewrite (compat_loop_mismatch stack ArgTypes _ tk (call_extra verb) i got formal);
    [reflexivity | lia | assumption..].
Qed.

Lemma InferTypes_verb_ok stack :
  length ArgTypes <= length stack ->
  (forall i got formal,
     stack !! (length stack - length ArgTypes + i) = Some got ->
     ArgTypes !! i = Some formal -> TypeCompatibleWith got formal = Ok true) ->
  InferTypes_item tk typeWorlds (VerbNode verb vtk) stack
    = Ok (take (length stack - length ArgTypes) stack ++ RetTypes).
Proof.
  intros Hlen Hall. cbn [InferTypes_item]. unfold InferTypes_verb.
  rewrite Hlookup. apply Nat.ltb_ge in Hlen as Hlt. rewrite Hlt.
  rewrite compat_loop_ok; [|lia|assumption]. cbn. rewrite push_all. reflexivity.
Qed.
End InferTypesRules.

(** C4.  Inference on an [ExpNode] with token [tk]: items are taken left
    to right; an integer literal pushes [int], a float literal [float]; a
    verb bound to [FuncType ArgTypes RetTypes] reports "Not enough
    arguments." on a stack shorter than [ArgTypes], reports at the first
    incompatible pair a [TypeError] with the formal as [Wanted], the actual
    [stack[|stack|-n+i]] as [Got] and [tk] as token, and otherwise replaces
    the top [n] entries by [RetTypes] in order.  "5 square.i;" yields
    [[int]]; "5.0 square.i;" yields the [TypeError] wanting [int] and
    getting [float]. *)
Theorem InferTypes_exp_rules (tk : option Token) (typeWorlds : TypeWorlds) :
  (forall stack, InferTypes (ExpNode [] tk) stack typeWorlds = Ok stack) /\
  (forall v exps stack,
     InferTypes (ExpNode (v :: exps) tk) stack typeWorlds =
       rbind (InferTypes_item tk typeWorlds v stack)
             (fun stack' => InferTypes (ExpNode exps tk) stack' typeWorlds)) /\
  (forall n ltk stack,
     InferTypes_item tk typeWorlds (LitIntNode n ltk) stack
       = Ok (stack ++ [PrimType "int"])) /\
  (forall f ltk stack,
     InferTypes_item tk typeWorlds (LitFloatNode f ltk) stack
       = Ok (stack ++ [PrimType "float"])) /\
  (forall verb vtk ArgTypes RetTypes stack,
     Lookup typeWorlds verb = FuncType ArgTypes RetTypes ->
     (length stack < length ArgTypes ->
      InferTypes_item tk typeWorlds (VerbNode verb vtk) stack
        = Err (ErrorString "Not enough arguments.")) /\
     (length ArgTypes <= length stack ->
      forall i got formal,
        stack !! (length stack - length ArgTypes + i) = Some got ->
        ArgTypes !! i = Some formal ->
        (forall j gj fj, j < i ->
           stack !! (length stack - length ArgTypes + j) = Some gj ->
           ArgTypes !! j = Some fj -> TypeCompatibleWith gj fj = Ok true) ->
        TypeCompatibleWith got formal = Ok false ->
        InferTypes_item tk typeWorlds (VerbNode verb vtk) stack
          = Err (TypeError formal got tk (call_extra verb))) /\
     (length ArgTypes <= length stack ->
      (forall i got formal,
         stack !! (length stack - length ArgTypes + i) = Some got ->
         ArgTypes !! i = Some formal -> TypeCompatibleWith got formal = Ok true) ->
      InferTypes_item tk typeWorlds (VerbNode verb vtk) stack
        = Ok (take (length stack - length ArgTypes) stack ++ RetTypes))) /\
  infer_exp "5 square.i;" = Ok [PrimType "int"] /\
  infer_exp "5.0 square.i;"
    = Err (TypeError (PrimType "int") (PrimType "float") (Some (mkToken "5.0" TT_LITFLOAT (mkFilePos 1 5 "<memory>")))
             "in a call to `square.i`.").
Proof.
  split; [reflexivity|]. split; [reflexivity|].
  split; [reflexivity|]. split; [reflexivity|].
  split; [|split; vm_compute; reflexivity].
  intros verb vtk ArgTypes RetTypes stack Hlookup. split; [|split].
  - apply (InferTypes_verb_not_enough tk typeWorlds verb vtk ArgTypes RetTypes Hlookup).
  - intros Hlen i got formal.
    apply (InferTypes_verb_mismatch tk typeWorlds verb vtk ArgTypes RetTypes Hlookup).
    assumption.
  - apply (InferTypes_verb_ok tk typeWorlds verb vtk ArgTypes RetTypes Hlookup).
Qed.

Lemma InferTypes_exp_rules_witness :
  let tws := NewTypeWorlds [builtins] in
  let sq := VerbNode "square.i" None in
  InferTypes_item None tws sq [] = Err (ErrorString "Not enough arguments.") /\
  InferTypes_item None tws sq [PrimType "int"; PrimType "float"]
    = Err (TypeError (PrimType "int") (PrimType "float") None (call_extra "square.i")) /\
  InferTypes_item None tws sq [PrimType "string"; PrimType "int"]
    = Ok (take 1 [PrimType "string"; PrimType "int"] ++ [PrimType "int"]).
Proof.
  intros tws sq.
  destruct (InferTypes_exp_rules None tws) as (_ & _ & _ & _ & Hverb & _).
  assert (Hl : Lookup tws "square.i" = FuncType [PrimType "int"] [PrimType "int"])
    by (vm_compute; reflexivity).
  split; [|split].
  - apply (proj1 (Hverb "square.i" None _ _ [] Hl)). cbn. lia.
  - apply (proj1 (proj2 (Hverb "square.i" None _ _ [PrimType "int"; PrimType "float"] Hl))
             ltac:(cbn; lia) 0 (PrimType "float") (PrimType "int")).
    + reflexivity.
    + reflexivity.
    + intros j gj fj Hj. lia.
    + vm_compute. reflexivity.
  - apply (proj2 (proj2 (Hverb "square.i" None _ _ [PrimType "string"; PrimType "int"] Hl))
             ltac:(cbn; lia)).
    intros [|i] got formal; cbn.
    + intros [= <-] [= <-]. vm_compute. reflexivity.
    + intros _ H. destruct i; discriminate H.
Defined.

(** C9.  Inside an [ExpNode] an item that is neither a literal nor a verb,
    a [QuotNode] in particular, leaves the stack as it is and reports
    nothing: removing the item from the expression does not change the
    outcome of [InferTypes].  The quoted identifier ['foo] parses to a
    [QuotNode]. *)
Theorem InferTypes_other_items_skipped (tk : option Token) (typeWorlds : TypeWorlds) :
  (forall v stack, is_lit_or_verb v = false ->
     InferTypes_item tk typeWorlds v stack = Ok stack) /\
  (forall name qtk stack,
     InferTypes_item tk typeWorlds (QuotNode name qtk) stack = Ok stack) /\
  (forall v pre post stack, is_lit_or_verb v = false ->
     InferTypes (ExpNode (pre ++ v :: post) tk) stack typeWorlds
       = InferTypes (ExpNode (pre ++ post) tk) stack typeWorlds) /\
  (exists qtk etk,
     parse parseExp "'foo;" = Ok (ExpNode [QuotNode "foo" qtk] etk)) /\
  infer_exp "'foo;" = Ok [].
Proof.
  assert (Hskip : forall v stack, is_lit_or_verb v = false ->
            InferTypes_item tk typeWorlds v stack = Ok stack).
  { intros v stack Hv. destruct v; try reflexivity; discriminate Hv. }
  split; [exact Hskip|]. split; [reflexivity|]. split; [|split].
  - intros v pre post stack Hv. cbn [InferTypes].
    rewrite !InferTypes_exp_app.
    destruct (InferTypes_exps tk typeWorlds pre stack) as [stack'| | |]; try reflexivity.
    cbn. rewrite (Hskip v stack' Hv). reflexivity.
  - eexists _, _. vm_compute. reflexivity.
  - vm_compute. reflexivity.
Qed.

Lemma InferTypes_other_items_skipped_witness :
  let tws := NewTypeWorlds [builtins] in
  let quot := QuotNode "foo" None in
  is_lit_or_verb quot = false /\
  InferTypes_item None tws quot [PrimType "int"] = Ok [PrimType "int"] /\
  InferTypes (ExpNode ([LitIntNode 5 None] ++ quot :: [VerbNode "square.i" None]) None) [] tws
    = InferTypes (ExpNode ([LitIntNode 5 None] ++ [VerbNode "square.i" None]) None) [] tws.
Proof.
  intros tws quot.
  destruct (InferTypes_other_items_skipped None tws) as (Hitem & _ & Hframe & _).
  split; [reflexivity|]. split.
  - apply Hitem. reflexivity.
  - apply Hframe. reflexivity.
Defined.

(** ** Checking functions and modules *)

Lemma TypeCheck_body_app typeWorlds b1 : forall b2 types,
  TypeCheck_body typeWorlds (b1 ++ b2) types =
    rbind (TypeCheck_body typeWorlds b1 types) (TypeCheck_body typeWorlds b2).
Proof.
  induction b1 as [|node b1 IH]; intros b2 types; [reflexivity|].
  cbn. destruct (InferTypes node types typeWorlds); cbn; auto.
Qed.

Lemma TypeCheck_funcs_pass typeWorlds funcs :
  funcs_pass typeWorlds funcs -> TypeCheck_funcs typeWorlds funcs = Ok tt.
Proof.
  induction funcs as [|[fk fn] funcs IH]; intros Hall; [reflexivity|].
  cbn [TypeCheck_funcs]. rewrite_head Hall. cbn.
  apply IH. intros e He. apply Hall. right. assumption.
Qed.

Lemma TypeCheck_funcs_first_err typeWorlds fpre fk fn fpost e :
  funcs_pass typeWorlds fpre ->
  TypeCheck_func typeWorlds fn = Err e ->
  TypeCheck_funcs typeWorlds (fpre ++ (fk, fn) :: fpost) = Err e.
Proof.
  intros Hpre Hfn. induction fpre as [|[k f] fpre IH]; cbn [app TypeCheck_funcs].
  - rewrite Hfn. reflexivity.
  - rewrite_head Hpre. cbn.
    apply IH. intros e' He'. apply Hpre. right. assumption.
Qed.

Lemma TypeCheck_world_names modules : forall tw0 tw,
  TypeCheck_world modules tw0 = Ok tw -> names_match modules.
Proof.
  induction modules as [|[k v] modules IH]; intros tw0 tw H e He; [destruct He|].
  cbn [TypeCheck_world] in H.
  destruct (String.eqb k (Mod_Name v)) eqn:Hk; cbn in H; [|discriminate].
  destruct He as [<-|He]; [exact Hk|]. eapply IH; eassumption.
Qed.

Lemma TypeCheck_modules_first_err typeWorlds pre k v post e :
  names_match (pre ++ (k, v) :: post) ->
  (forall m, In m pre -> funcs_pass typeWorlds (Mod_Funcs (snd m))) ->
  TypeCheck_funcs typeWorlds (Mod_Funcs v) = Err e ->
  TypeCheck_modules typeWorlds (pre ++ (k, v) :: post) = Err e.
Proof.
  intros Hnames Hpre Hv. induction pre as [|[k' v'] pre IH]; cbn [app TypeCheck_modules].
  - rewrite_head Hnames. cbn. rewrite Hv. reflexivity.
  - rewrite_head Hnames. cbn.
    rewrite (TypeCheck_funcs_pass typeWorlds (Mod_Funcs v'))
      by (apply (Hpre (k', v')); left; reflexivity).
    cbn. apply IH.
    + intros m Hm. apply Hnames. right. assumption.
    + intros m Hm. apply Hpre. right. assumption.
Qed.

Lemma TypeCheck_modules_pass typeWorlds modules :
  names_match modules ->
  (forall m, In m modules -> funcs_pass typeWorlds (Mod_Funcs (snd m))) ->
  TypeCheck_modules typeWorlds modules = Ok tt.
Proof.
  induction modules as [|[k v] modules IH]; intros Hnames Hall; [reflexivity|].
  cbn [TypeCheck_modules]. rewrite_head Hnames. cbn.
  rewrite (TypeCheck_funcs_pass typeWorlds (Mod_Funcs v))
    by (apply (Hall (k, v)); left; reflexivity).
  cbn. apply IH.
  - intros m Hm. apply Hnames. right. assumption.
  - intros m Hm. apply Hall. right. assumption.
Qed.

Section TypeCheckFunc.
Variable typeWorlds : TypeWorlds.
Variable fn : Func.
Let body := FuncNode_Body (Func_FuncNode fn).
Let rets := Sig_RetTypes (Func_Type fn).
Let ftk := FuncNode_Token (Func_FuncNode fn).

Lemma TypeCheck_func_body_err e :
  TypeCheck_body typeWorlds body [] = Err e -> TypeCheck_func typeWorlds fn = Err e.
Proof. intros H. unfold TypeCheck_func. fold body. rewrite H. reflexivity. Qed.

Variable types : list Type_.
Hypothesis Hbody : TypeCheck_body typeWorlds body [] = Ok types.

Lemma TypeCheck_func_arity :
  length types <> length rets ->
  TypeCheck_func typeWorlds fn
    = Err (ErrorString (arity_message (Func_Name fn) (length rets) (length types))).
Proof.
  intros Hlen. unfold TypeCheck_func. fold body. rewrite Hbody. cbn. fold rets.
  apply Nat.eqb_neq in Hlen. rewrite Hlen. reflexivity.
Qed.

Lemma TypeCheck_func_mismatch i got wanted :
  length types = length rets ->
  types !! i = Some got -> rets !! i = Some wanted ->
  (forall j gj wj, j < i -> types !! j = Some gj -> rets !! j = Some wj ->
     TypeCompatibleWith gj wj = Ok true) ->
  TypeCompatibleWith got wanted = Ok false ->
  TypeCheck_func typeWorlds fn
    = Err (TypeError wanted got ftk (returned_extra (Func_Name fn))).
Proof.
  intros Hlen Hg Hw Hbefore Hbad. unfold TypeCheck_func. fold body. rewrite Hbody.
  cbn. fold rets ftk. rewrite Hlen, Nat.eqb_refl. cbn.
  apply (compat_loop_mismatch types rets 0 ftk _ i got wanted); auto. cbn. lia.
Qed.

Lemma TypeCheck_func_ok :
  length types = length rets ->
  (forall i got wanted, types !! i = Some got -> rets !! i = Some wanted ->
     TypeCompatibleWith got wanted = Ok true) ->
  TypeCheck_func typeWorlds fn = Ok tt.
Proof.
  intros Hlen Hall. unfold TypeCheck_func. fold body. rewrite Hbody.
  cbn. fold rets ftk. rewrite Hlen, Nat.eqb_refl. cbn.
  apply (compat_loop_ok types rets 0 ftk); auto. cbn. lia.
Qed.
End TypeCheckFunc.

(** C5.  [TypeCheck] checks a function [fn] from the empty stack, the
    declared arguments not being pushed, and threads the stack through the
    body nodes in order.  An error of the body is the function's error.
    After the body, a stack whose length differs from the declared return
    arity gives the arity error; otherwise the first index [i] with
    [stack[i]] incompatible with [retTypes[i]] gives a [TypeError] whose
    extra names the returned values of the function; with all indices
    compatible the function passes.  The error of the first failing
    function, in the order the ranges visit modules and functions, is the
    result of [TypeCheck]: nothing after it is checked. *)
Theorem TypeCheck_rules (typeWorlds : TypeWorlds) (fn : Func) :
  let body := FuncNode_Body (Func_FuncNode fn) in
  let rets := Sig_RetTypes (Func_Type fn) in
  let name := Func_Name fn in
  let ftk := FuncNode_Token (Func_FuncNode fn) in
  (forall b1 b2 types,
     TypeCheck_body typeWorlds (b1 ++ b2) types =
       rbind (TypeCheck_body typeWorlds b1 types) (TypeCheck_body typeWorlds b2)) /\
  (forall node types,
     TypeCheck_body typeWorlds [node] types = InferTypes node types typeWorlds) /\
  (forall e, TypeCheck_body typeWorlds body [] = Err e ->
     TypeCheck_func typeWorlds fn = Err e) /\
  (forall types, TypeCheck_body typeWorlds body [] = Ok types ->
     (length types <> length rets ->
      TypeCheck_func typeWorlds fn
        = Err (ErrorString (arity_message name (length rets) (length types)))) /\
     (length types = length rets ->
      forall i got wanted,
        types !! i = Some got -> rets !! i = Some wanted ->
        (forall j gj wj, j < i -> types !! j = Some gj -> rets !! j = Some wj ->
           TypeCompatibleWith gj wj = Ok true) ->
        TypeCompatibleWith got wanted = Ok false ->
        TypeCheck_func typeWorlds fn
          = Err (TypeError wanted got ftk (returned_extra name))) /\
     (length types = length rets ->
      (forall i got wanted, types !! i = Some got -> rets !! i = Some wanted ->
         TypeCompatibleWith got wanted = Ok true) ->
      TypeCheck_func typeWorlds fn = Ok tt)) /\
  (forall modules tw pre k v post fpre fk fpost e,
     modules = pre ++ (k, v) :: post ->
     Mod_Funcs v = fpre ++ (fk, fn) :: fpost ->
     TypeCheck_world modules ∅ = Ok tw ->
     typeWorlds = [builtins; tw] ->
     (forall m, In m pre -> funcs_pass typeWorlds (Mod_Funcs (snd m))) ->
     funcs_pass typeWorlds fpre ->
     TypeCheck_func typeWorlds fn = Err e ->
     TypeCheck modules = Err e) /\
  (forall modules tw,
     TypeCheck_world modules ∅ = Ok tw ->
     (forall m, In m modules -> funcs_pass [builtins; tw] (Mod_Funcs (snd m))) ->
     TypeCheck modules = Ok tt) /\
  arity_message "f" 2 1
    = "Function `f` does not return the right amount of values. Wanted 2 but got 1." /\
  returned_extra "f" = "(in returned values of function `f`)" /\
  TypeCheck
    [("m", mkModule "m" "/m"
             [("f", mkFunc (FuncNode "f" [mkArg "a" (PrimType "int")]
                              [ExpNode [VerbNode "square.i" None] None]
                              [PrimType "int"] None))])]
    = Err (ErrorString "Not enough arguments.").
Proof.
  intros body rets name ftk.
  split; [apply TypeCheck_body_app|].
  split.
  { intros node types. cbn. destruct (InferTypes node types typeWorlds); reflexivity. }
  split; [apply TypeCheck_func_body_err|].
  split.
  { intros types Hbody. split; [|split].
    - apply TypeCheck_func_arity. exact Hbody.
    - intros Hlen i got wanted. apply TypeCheck_func_mismatch; assumption.
    - apply TypeCheck_func_ok. exact Hbody. }
  split.
  { intros modules tw pre k v post fpre fk fpost e -> Hfuncs Hworld -> Hpre Hfpre Hfn.
    unfold TypeCheck. rewrite Hworld. cbn [rbind NewTypeWorlds].
    apply TypeCheck_modules_first_err.
    - eapply TypeCheck_world_names. eassumption.
    - assumption.
    - rewrite Hfuncs. apply TypeCheck_funcs_first_err; assumption. }
  split.
  { intros modules tw Hworld Hall. unfold TypeCheck. rewrite Hworld.
    cbn [rbind NewTypeWorlds]. apply TypeCheck_modules_pass; [|assumption].
    eapply TypeCheck_world_names. eassumption. }
  repeat split; vm_compute; reflexivity.
Qed.

Lemma TypeCheck_rules_witness :
  let f := mkFunc (FuncNode "f" []
             [ExpNode [LitIntNode 5 None; VerbNode "square.i" None] None]
             [PrimType "int"] None) in
  let g := mkFunc (FuncNode "g" [] [ExpNode [LitIntNode 5 None] None] [] None) in
  let h := mkFunc (FuncNode "h" []
             [ExpNode [LitFloatNode (mkFloat false 50 1) None] None]
             [PrimType "int"] None) in
  let k := mkFunc (FuncNode "k" [] [ExpNode [VerbNode "nope" None] None] [] None) in
  let m := mkModule "m" "/m" [("f", f); ("g", g); ("h", h); ("k", k)] in
  let m1 := mkModule "m1" "/m1" [("f", f)] in
  let tws := [builtins; TypeCheck_register m ∅] in
  TypeCheck_func tws f = Ok tt /\
  TypeCheck_func tws h
    = Err (TypeError (PrimType "int") (PrimType "float") None
             "(in returned values of function `h`)") /\
  TypeCheck_func tws k = Err (ErrorString "Function `nope` does not exist!") /\
  TypeCheck [("m", m)]
    = Err (ErrorString
             "Function `g` does not return the right amount of values. Wanted 0 but got 1.") /\
  TypeCheck [("m1", m1)] = Ok tt.
Proof.
  intros f g h k m m1 tws.
  assert (Hpass : forall tws', In tws' [tws; [builtins; TypeCheck_register m1 ∅]] ->
            TypeCheck_func tws' f = Ok tt).
  { intros tws' Hin. destruct (TypeCheck_rules tws' f) as (_ & _ & _ & Hpost & _).
    destruct (Hpost [PrimType "int"]) as (_ & _ & Hok).
    { destruct Hin as [<-|[<-|[]]]; vm_compute; reflexivity. }
    apply Hok; [reflexivity|].
    intros [|i] got wanted; cbn.
    - intros [= <-] [= <-]. vm_compute. reflexivity.
    - intros H. destruct i; discriminate H. }
  split; [apply Hpass; left; reflexivity|]. split; [|split; [|split]].
  - destruct (TypeCheck_rules tws h) as (_ & _ & _ & Hpost & _).
    destruct (Hpost [PrimType "float"]) as (_ & Hbad & _); [vm_compute; reflexivity|].
    apply (Hbad eq_refl 0 (PrimType "float") (PrimType "int")).
    + reflexivity.
    + reflexivity.
    + intros j gj wj Hj. lia.
    + vm_compute. reflexivity.
  - destruct (TypeCheck_rules tws k) as (_ & _ & Hbody & _).
    apply Hbody. vm_compute. reflexivity.
  - destruct (TypeCheck_rules tws g) as (_ & _ & _ & Hpost & Hhalt & _).
    apply (Hhalt [("m", m)] (TypeCheck_register m ∅) [] "m" m []
             [("f", f)] "g" [("h", h); ("k", k)]).
    + reflexivity.
    + reflexivity.
    + reflexivity.
    + reflexivity.
    + intros e [].
    + intros e [<-|[]]. apply Hpass. left; reflexivity.
    + destruct (Hpost [PrimType "int"]) as (Harity & _); [vm_compute; reflexivity|].
      apply Harity. cbn. lia.
  - destruct (TypeCheck_rules tws f) as (_ & _ & _ & _ & _ & Hall & _).
    apply (Hall [("m1", m1)] (TypeCheck_register m1 ∅)); [reflexivity|].
    intros e [<-|[]] e' [<-|[]]. apply Hpass. right; left; reflexivity.
Defined.

(** ** The parser on concrete and arbitrary inputs *)

(** [parseFunc] fails on a buffered token that is not [func]. *)
Lemma parseFunc_not_func p tk rest :
  tkbuf p = tk :: rest -> Typ tk <> TT_FUNC ->
  exists e, parseFunc p = (Err e, mkParser (tz p) rest).
Proof.
  intros Hbuf Hne. unfold parseFunc. unfold bind at 1.
  rewrite (read_buffered p tk rest Hbuf).
  destruct (Typ tk); try contradiction; eexists; reflexivity.
Qed.

Lemma parseFuncs_loop_fresh fuel t :
  fst (parseFuncs_loop (S fuel) [] (NewParser t)) = Ok []
  \/ exists e, fst (parseFuncs_loop (S fuel) [] (NewParser t)) = Err e.
Proof.
  cut (exists out, parseFuncs_loop (S fuel) [] (NewParser t) = out /\
         (fst out = Ok [] \/ exists e, fst out = Err e)).
  { intros (out & -> & H). exact H. }
  cbn [parseFuncs_loop]. unfold bind at 1.
  replace (read (NewParser t))
    with (let '(r, t') := Next t in (r, mkParser t' [])) by reflexivity.
  destruct (Next_spec t) as (r & t' & -> & Hr & _).
  destruct r as [tk|e|msg|]; cbn in Hr; try contradiction;
    [|eexists; split; [reflexivity|]; right; eexists; reflexivity].
  destruct (Typ tk) eqn:Htyp;
    try (eexists; split; [reflexivity|]; right; eexists; reflexivity);
    try (eexists; split; [reflexivity|]; left; reflexivity).
  change (bind (unread tk) ?k (mkParser t' []))
    with (k tt (mkParser t' [tk])).
  cbv beta. unfold bind at 1.
  destruct (parseFunc_not_func (mkParser t' [tk]) tk [] eq_refl) as [e ->];
    [congruence|].
  eexists; split; [reflexivity|]. right. eexists. reflexivity.
Qed.

(** X14.  Whatever the text, [parseFuncs] on a fresh parser returns no
    function: it leaves at [EOF] with the empty list, and every other first
    token ends in an error, since the loop asks for a left parenthesis where
    [parseFunc] asks for [func]. *)
Lemma parseFuncs_only_empty (t : tokenizer) :
  fst (parseFuncs (NewParser t)) = Ok []
  \/ exists e, fst (parseFuncs (NewParser t)) = Err e.
Proof. unfold parseFuncs, p_fuel. apply parseFuncs_loop_fresh. Qed.

(** C1.  [parseFuncs] rejects a file made of one well-formed definition:
    the [func] token that begins it is answered with "Expected `(`", while
    [parseFunc] on the same text returns the [FuncNode].  Only the empty
    file parses. *)
Theorem parseFuncs_rejects_func_definition :
  let code := "func main [(a int)] [float] {}" in
  let functk := mkToken "func" TT_FUNC (mkFilePos 1 6 "<memory>") in
  parse parseFuncs code = Err (ParserError functk "Expected `(` but got `func`.") /\
  parse Funcs code = Err (ParserError functk "Expected `(` but got `func`.") /\
  parse parseFunc code
    = Ok (FuncNode "main" [mkArg "a" (PrimType "int")] [] [PrimType "float"]
            (Some functk)) /\
  parse parseFuncs "" = Ok [].
Proof. repeat split; vm_compute; reflexivity. Qed.

(** A tokenizer error right after a quotation token makes [parseData]
    dereference the nil token. *)
Lemma parseData_quot_then_error (p p1 p2 : Parser) (tk : Token) (e : error) :
  read p = (Ok tk, p1) -> Typ tk = TT_QUOT -> read p1 = (Err e, p2) ->
  parseData p = (Panic nil_deref, p2).
Proof.
  intros H1 Hq H2. unfold parseData. unfold bind at 1. rewrite H1, Hq.
  unfold bind, read_unchecked, bind, attempt. rewrite H2. reflexivity.
Qed.

(** C3.  Source texts on which parser entry points panic: a rune the
    tokenizer rejects right after a quotation token ([parseData],
    [parseExp]) or where the brace opening a function body is expected
    ([parseFunc]) is a nil dereference; a ninth item of an expression, a
    ninth argument or a ninth body expression indexes past a slice of
    length 8. *)
Theorem parser_panics_on_source_text :
  parse parseData "'$" = Panic nil_deref /\
  parse parseExp "5 '$;" = Panic nil_deref /\
  parse parseFunc "func f [] [] $" = Panic nil_deref /\
  parse parseExp "1 2 3 4 5 6 7 8 9;" = Panic index_out_of_range_8 /\
  parse parseFunc "func f [(a x)(b x)(c x)(d x)(e x)(f x)(g x)(h x)(i x)] [] {}"
    = Panic index_out_of_range_8 /\
  parse parseFunc "func f [] [] {;;;;;;;;;}" = Panic index_out_of_range_8.
Proof. repeat split; vm_compute; reflexivity. Qed.

(** [parseArg] turns a tokenizer error at its first or second read into
    the placeholder argument and a nil error. *)
Lemma parseArg_first_read_error (p p1 : Parser) (e : error) :
  read p = (Err e, p1) -> parseArg p = (Ok VoidArg, p1).
Proof.
  intros H. unfold parseArg, bind, attempt. rewrite H. reflexivity.
Qed.

Lemma parseArg_second_read_error (p p1 p2 : Parser) (tk : Token) (e : error) :
  read p = (Ok tk, p1) -> Typ tk = TT_LPAREN -> read p1 = (Err e, p2) ->
  parseArg p = (Ok VoidArg, p2).
Proof.
  intros H1 Hl H2. unfold parseArg, bind, attempt. rewrite H1, Hl, H2. reflexivity.
Qed.

(** C6.  [parseArg] returns the placeholder [VoidArg] with a nil error
    when the tokenizer fails at the parenthesis or at the identifier, and
    [parseFunc] then goes on and returns a function holding that
    placeholder. *)
Theorem parseArg_swallows_tokenizer_error :
  parse parseArg "$" = Ok VoidArg /\
  parse parseArg "($ int)" = Ok VoidArg /\
  parse parseFunc "func f [($] [] {}"
    = Ok (FuncNode "f" [VoidArg] [] []
            (Some (mkToken "func" TT_FUNC (mkFilePos 1 6 "<memory>")))) /\
  fst (Next (NewTokenizerString "$"))
    = Err (TokenizerError (mkFilePos 1 2 "<memory>") (Some "Unexpected rune: 36")).
Proof. repeat split; vm_compute; reflexivity. Qed.

(** ** The tokenizer on numeric literals *)

(** C8.  The text [-.] is emitted as one [LITFLOAT] token whose lexeme
    holds no digit.  The bare [-] is the error the claim names, and [-399]
    is the [LITINT] the claim names. *)
Theorem litfloat_lexeme_without_digit :
  tokenize "-." = Ok [mkToken "-." TT_LITFLOAT (mkFilePos 1 3 "<memory>");
                      mkToken "<eof>" TT_EOF (mkFilePos 1 3 "<memory>")] /\
  existsb isdigit (runes_of_string "-.") = false /\
  tokenize "-"
    = Err (TokenizerError (mkFilePos 1 2 "<memory>")
             (Some ("Literal " +:+ dquote +:+ "-" +:+ dquote
                      +:+ " is missing at least one digit."))) /\
  tokenize "-399" = Ok [mkToken "-399" TT_LITINT (mkFilePos 1 5 "<memory>");
                        mkToken "<eof>" TT_EOF (mkFilePos 1 5 "<memory>")].
Proof. repeat split; vm_compute; reflexivity. Qed.

(** ** The empty union *)

(** C10.  [parseType] on the text of an empty pair of braces succeeds and
    returns the union without members; [NewUnionType] accepts the empty
    list. *)
Theorem parseType_empty_union :
  parse parseType "{}" = Ok (UnionType []) /\
  NewUnionType [] = Ok (UnionType []).
Proof. split; vm_compute; reflexivity. Qed.

(** * Further properties of the code *)

(** ** The order on the void type and the prims *)

Lemma str_cmp_eq a b : String.compare a b = Eq <-> a = b.
Proof. apply OrderedTypeEx.String_as_OT.cmp_eq. Qed.

Lemma str_cmp_antisym a b : String.compare a b = CompOpp (String.compare b a).
Proof. apply String.compare_antisym. Qed.

Lemma str_lt_trans a b c : str_lt a b -> str_lt b c -> str_lt a c.
Proof.
  unfold str_lt. intros H1 H2.
  apply OrderedTypeEx.String_as_OT.cmp_lt.
  apply OrderedTypeEx.String_as_OT.cmp_lt in H1, H2.
  eapply OrderedTypeEx.String_as_OT.lt_trans; eassumption.
Qed.

Lemma str_le_trans a b c : str_le a b -> str_le b c -> str_le a c.
Proof.
  unfold str_le. intros H1 H2 H3.
  destruct (String.compare a b) eqn:Hab; try contradiction.
  - apply str_cmp_eq in Hab. subst. contradiction.
  - destruct (String.compare b c) eqn:Hbc; try contradiction.
    + apply str_cmp_eq in Hbc. subst. congruence.
    + pose proof (str_lt_trans a b c Hab Hbc) as H. unfold str_lt in H. congruence.
Qed.

Lemma str_le_antisym a b : str_le a b -> str_le b a -> a = b.
Proof.
  unfold str_le. intros H1 H2. rewrite str_cmp_antisym in H2.
  destruct (String.compare a b) eqn:Hab; cbn in *; try contradiction.
  apply str_cmp_eq. assumption.
Qed.

Lemma strings_Compare_opp a b : strings_Compare b a = (- strings_Compare a b)%Z.
Proof.
  unfold strings_Compare. rewrite (str_cmp_antisym b a).
  destruct (String.compare a b); reflexivity.
Qed.

Lemma strings_Compare_zero a b : strings_Compare a b = 0%Z <-> a = b.
Proof.
  unfold strings_Compare. rewrite <- str_cmp_eq.
  destruct (String.compare a b); split; congruence || discriminate.
Qed.

Lemma strings_Compare_neg a b : (strings_Compare a b <? 0)%Z = true <-> str_lt a b.
Proof.
  unfold strings_Compare, str_lt.
  destruct (String.compare a b); cbn; split; congruence || discriminate.
Qed.

Lemma TypeCmp_simple a b :
  simple a = true -> simple b = true ->
  exists c, TypeCmp a b = Ok c /\ TypeCmp b a = Ok (- c)%Z /\
    (c = 0%Z <-> a = b) /\ (c = -1 \/ c = 0 \/ c = 1)%Z.
Proof.
  destruct a as [| |na| |]; try discriminate; destruct b as [| |nb| |]; try discriminate;
    intros _ _; cbn [TypeCmp].
  - exists 0%Z. repeat split; auto.
  - exists (-1)%Z. repeat split; auto; discriminate.
  - exists 1%Z. repeat split; auto; discriminate.
  - exists (strings_Compare na nb). rewrite (strings_Compare_opp na nb).
    split; [reflexivity|]. split; [reflexivity|]. split.
    + rewrite strings_Compare_zero. split; congruence.
    + unfold strings_Compare. destruct (String.compare na nb); auto.
Qed.

Lemma TypeCmp_simple_trans a b c :
  simple a = true -> simple b = true -> simple c = true ->
  TypeCmp a b = Ok (-1)%Z -> TypeCmp b c = Ok (-1)%Z -> TypeCmp a c = Ok (-1)%Z.
Proof.
  destruct a as [| |na| |]; try discriminate; destruct b as [| |nb| |]; try discriminate;
    destruct c as [| |nc| |]; try discriminate; intros _ _ _; cbn [TypeCmp];
    try discriminate; try reflexivity.
  unfold strings_Compare. intros H1 H2.
  destruct (String.compare na nb) eqn:Hab; try discriminate.
  destruct (String.compare nb nc) eqn:Hbc; try discriminate.
  pose proof (str_lt_trans na nb nc Hab Hbc) as H. unfold str_lt in H. rewrite H.
  reflexivity.
Qed.

(** X15.  On the void type and the prims [TypeCmp] is the comparison of a
    total order: it returns -1, 0 or 1, the reversed comparison returns the
    opposite sign, 0 is returned on equal types only, and the strict order
    is transitive.  [TypeEqual] on these types is equality. *)
Theorem TypeCmp_simple_order (a b c : Type_) :
  simple a = true -> simple b = true -> simple c = true ->
  (exists n, TypeCmp a b = Ok n /\ TypeCmp b a = Ok (- n)%Z /\
     (n = 0%Z <-> a = b) /\ (n = -1 \/ n = 0 \/ n = 1)%Z) /\
  (TypeCmp a b = Ok (-1)%Z -> TypeCmp b c = Ok (-1)%Z -> TypeCmp a c = Ok (-1)%Z) /\
  (TypeEqual a b = Ok true <-> a = b).
Proof.
  intros Ha Hb Hc. pose proof (TypeCmp_simple a b Ha Hb) as Hab.
  split; [exact Hab|]. split; [apply TypeCmp_simple_trans; assumption|].
  destruct Hab as (n & Hn & _ & Hz & _). unfold TypeEqual. rewrite Hn. cbn.
  split.
  - intros [= H]. apply Hz. apply Z.eqb_eq. exact H.
  - intros H. apply Hz in H. subst n. reflexivity.
Qed.

Lemma TypeCmp_simple_order_witness :
  let a := VoidType in
  let b := PrimType "float" in
  let c := PrimType "int" in
  (exists n, TypeCmp a b = Ok n /\ TypeCmp b a = Ok (- n)%Z /\
     (n = 0%Z <-> a = b) /\ (n = -1 \/ n = 0 \/ n = 1)%Z) /\
  (TypeCmp a b = Ok (-1)%Z -> TypeCmp b c = Ok (-1)%Z -> TypeCmp a c = Ok (-1)%Z) /\
  (TypeEqual a b = Ok true <-> a = b).
Proof.
  intros a b c. apply (TypeCmp_simple_order a b c); reflexivity.
Defined.

Lemma TypeCmp_members_prims l1 : forall l2,
  length l1 <= length l2 ->
  exists c, TypeCmp_members (prims l1) (prims l2) = Ok c /\
    (c = 0%Z <-> exists rest, l2 = l1 ++ rest).
Proof.
  induction l1 as [|a l1 IH]; intros l2 Hlen.
  { exists 0%Z. split; [reflexivity|]. split; [intros _; exists l2; reflexivity | reflexivity]. }
  destruct l2 as [|b l2]; [cbn in Hlen; lia|].
  cbn [prims map TypeCmp_members TypeCmp].
  destruct (strings_Compare a b =? 0)%Z eqn:Hc.
  - apply Z.eqb_eq, strings_Compare_zero in Hc. subst b.
    destruct (IH l2 ltac:(cbn in Hlen; lia)) as (c & Hcmp & Hiff).
    exists c. split; [exact Hcmp|]. rewrite Hiff. split.
    + intros (rest & ->). exists rest. reflexivity.
    + intros (rest & [= ->]). exists rest. reflexivity.
  - exists (strings_Compare a b). split; [reflexivity|].
    apply Z.eqb_neq in Hc. split; [contradiction|].
    intros (rest & [= -> _]). exfalso. apply Hc. apply strings_Compare_zero. reflexivity.
Qed.

(** X16.  [TypeEqual] on two unions of prims does not test equality: it
    returns true exactly when the members of the first union, in order, are
    a prefix of the members of the second. *)
Theorem TypeEqual_union_prefix (l1 l2 : list string) :
  exists b, TypeEqual (UnionType (prims l1)) (UnionType (prims l2)) = Ok b /\
    (b = true <-> exists rest, l2 = l1 ++ rest).
Proof.
  unfold TypeEqual. rewrite TypeCmp_union. rewrite Nat.ltb_irrefl.
  unfold prims at 1 2. rewrite !length_map.
  destruct (length l2 <? length l1) eqn:Hlt.
  - apply Nat.ltb_lt in Hlt. exists false. split; [reflexivity|].
    split; [discriminate|]. intros (rest & ->). rewrite length_app in Hlt. lia.
  - apply Nat.ltb_ge in Hlt.
    destruct (TypeCmp_members_prims l1 l2 Hlt) as (c & Hc & Hiff).
    fold (prims l1). fold (prims l2). rewrite Hc. cbn [rbind].
    exists (c =? 0)%Z. split; [reflexivity|]. rewrite <- Hiff. apply Z.eqb_eq.
Qed.

Lemma TypesEqual_loop_simple ts1 : forall ts2,
  forallb simple ts1 = true -> forallb simple ts2 = true ->
  length ts1 = length ts2 ->
  exists b, TypesEqual_loop ts1 ts2 = Ok b /\ (b = true <-> ts1 = ts2).
Proof.
  induction ts1 as [|x ts1 IH]; intros [|y ts2] H1 H2 Hlen; try discriminate Hlen.
  { exists true. split; [reflexivity|]. split; reflexivity. }
  cbn in H1, H2. apply andb_true_iff in H1 as [Hx H1], H2 as [Hy H2].
  cbn [TypesEqual_loop].
  destruct (TypeCmp_simple x y Hx Hy) as (n & Hn & _ & Hz & _).
  unfold TypeEqual. rewrite Hn. cbn [rbind].
  destruct (n =? 0)%Z eqn:E.
  - apply Z.eqb_eq, Hz in E. subst y.
    destruct (IH ts2 H1 H2 ltac:(cbn in Hlen; lia)) as (b & Hb & Hiff).
    exists b. split; [exact Hb|]. rewrite Hiff. split; [intros ->; reflexivity|].
    intros [= ->]. reflexivity.
  - exists false. split; [reflexivity|]. split; [discriminate|].
    intros [= -> _]. exfalso. apply Z.eqb_neq in E. apply E. apply Hz. reflexivity.
Qed.

(** X17.  On lists of void and prim types [TypesEqual] returns true
    exactly on equal lists. *)
Theorem TypesEqual_simple (ts1 ts2 : list Type_) :
  forallb simple ts1 = true -> forallb simple ts2 = true ->
  exists b, TypesEqual ts1 ts2 = Ok b /\ (b = true <-> ts1 = ts2).
Proof.
  intros H1 H2. unfold TypesEqual.
  destruct (length ts1 =? length ts2) eqn:Hlen; cbn [negb].
  - apply Nat.eqb_eq in Hlen. apply TypesEqual_loop_simple; assumption.
  - apply Nat.eqb_neq in Hlen. exists false. split; [reflexivity|].
    split; [discriminate|]. intros ->. contradiction.
Qed.

Lemma TypesEqual_simple_witness :
  exists b, TypesEqual [PrimType "int"; VoidType] [PrimType "int"; VoidType] = Ok b /\
    (b = true <-> [PrimType "int"; VoidType] = [PrimType "int"; VoidType]).
Proof.
  apply (TypesEqual_simple [PrimType "int"; VoidType] [PrimType "int"; VoidType]);
    reflexivity.
Defined.

(** ** [NewUnionType] on prims *)

Lemma sort_insert_prims a rp :
  sort_insert (PrimType a) (prims rp) = Ok (prims (ins_name a rp)).
Proof.
  induction rp as [|b rp IH]; [reflexivity|].
  cbn [prims map sort_insert TypeCmp rbind ins_name].
  destruct (strings_Compare a b <? 0)%Z; [|reflexivity].
  fold (prims rp). rewrite IH. reflexivity.
Qed.

Lemma sort_Slice_from_prims todo : forall rp,
  sort_Slice_from (prims rp) (prims todo) = Ok (prims (sort_names_from rp todo)).
Proof.
  induction todo as [|a todo IH]; intros rp.
  - cbn. unfold prims. rewrite List.map_rev. reflexivity.
  - cbn [prims map sort_Slice_from sort_names_from].
    fold (prims rp). rewrite sort_insert_prims. cbn [rbind].
    fold (prims todo). apply IH.
Qed.

Lemma ins_name_perm a rp : Permutation (a :: rp) (ins_name a rp).
Proof.
  induction rp as [|b rp IH]; cbn; [reflexivity|].
  destruct (strings_Compare a b <? 0)%Z; [|reflexivity].
  rewrite perm_swap. constructor. exact IH.
Qed.

Lemma sort_names_from_perm todo : forall rp,
  Permutation (rp ++ todo) (sort_names_from rp todo).
Proof.
  induction todo as [|a todo IH]; intros rp; cbn.
  - rewrite app_nil_r. apply Permutation_rev.
  - rewrite <- IH. rewrite <- (ins_name_perm a rp).
    symmetry. apply Permutation_middle.
Qed.

Lemma ins_name_desc a rp : desc rp -> desc (ins_name a rp).
Proof.
  unfold desc. induction 1 as [|b rp Hrp IH Hb]; cbn.
  - repeat constructor.
  - destruct (strings_Compare a b <? 0)%Z eqn:Hlt.
    + apply strings_Compare_neg in Hlt. constructor; [exact IH|].
      apply List.Forall_forall. intros x Hx.
      apply (Permutation_in _ (Permutation_sym (ins_name_perm a rp))) in Hx.
      destruct Hx as [<-|Hx].
      * unfold str_le, str_lt in *. congruence.
      * rewrite List.Forall_forall in Hb. auto.
    + assert (Hba : str_le b a).
      { unfold str_le. rewrite str_cmp_antisym.
        assert (Hn : ~ str_lt a b) by (rewrite <- strings_Compare_neg; congruence).
        unfold str_lt in Hn. destruct (String.compare a b); cbn; congruence. }
      constructor; [constructor; assumption|].
      constructor; [exact Hba|].
      rewrite List.Forall_forall in *. intros x Hx.
      eapply str_le_trans; [apply Hb; exact Hx | exact Hba].
Qed.

Lemma StronglySorted_snoc {A} (R : A -> A -> Prop) l a :
  StronglySorted R l -> Forall (fun x => R x a) l -> StronglySorted R (l ++ [a]).
Proof.
  induction 1 as [|b l Hl IH Hb]; intros Hall; cbn; [repeat constructor|].
  inversion Hall as [|? ? Hba Hla]; subst.
  constructor; [apply IH; assumption|].
  apply List.Forall_app. split; [assumption | repeat constructor; assumption].
Qed.

Lemma StronglySorted_rev {A} (R : A -> A -> Prop) l :
  StronglySorted R l -> StronglySorted (fun x y => R y x) (rev l).
Proof.
  induction 1 as [|a l Hl IH Ha]; cbn; [constructor|].
  apply StronglySorted_snoc; [exact IH|].
  apply List.Forall_rev. exact Ha.
Qed.

Lemma sort_names_from_sorted todo : forall rp,
  desc rp -> StronglySorted str_le (sort_names_from rp todo).
Proof.
  induction todo as [|a todo IH]; intros rp Hrp; cbn.
  - apply (StronglySorted_rev (fun x y => str_le y x)). exact Hrp.
  - apply IH, ins_name_desc, Hrp.
Qed.

(** Two sorted lists with the same elements are the same list. *)
Lemma sorted_perm_eq l1 : forall l2,
  StronglySorted str_le l1 -> StronglySorted str_le l2 ->
  Permutation l1 l2 -> l1 = l2.
Proof.
  induction l1 as [|a l1 IH]; intros l2 H1 H2 Hp.
  - apply Permutation_nil in Hp. congruence.
  - destruct l2 as [|b l2]; [symmetry in Hp; apply Permutation_nil in Hp; discriminate|].
    inversion H1 as [|? ? S1 F1]; inversion H2 as [|? ? S2 F2]; subst.
    rewrite List.Forall_forall in F1, F2.
    assert (a = b).
    { assert (Hb : In b (a :: l1))
        by (apply (Permutation_in _ (Permutation_sym Hp)); left; reflexivity).
      assert (Ha : In a (b :: l2)) by (apply (Permutation_in _ Hp); left; reflexivity).
      destruct Hb as [->|Hb]; [reflexivity|]. destruct Ha as [->|Ha]; [reflexivity|].
      apply str_le_antisym; auto. }
    subst b. f_equal. apply IH; auto. eapply Permutation_cons_inv; eassumption.
Qed.

Lemma sort_names_perm_eq l1 l2 :
  Permutation l1 l2 -> sort_names_from [] l1 = sort_names_from [] l2.
Proof.
  intros Hp. apply sorted_perm_eq.
  - apply sort_names_from_sorted. constructor.
  - apply sort_names_from_sorted. constructor.
  - rewrite <- (sort_names_from_perm l1 []), <- (sort_names_from_perm l2 []).
    exact Hp.
Qed.

Lemma TypeEqual_prims a b :
  TypeEqual (PrimType a) (PrimType b) = Ok (String.eqb a b).
Proof.
  unfold TypeEqual. cbn. f_equal.
  destruct (String.eqb_spec a b) as [->|Hne].
  - rewrite strings_Compare_refl. reflexivity.
  - apply Z.eqb_neq. rewrite strings_Compare_zero. exact Hne.
Qed.

Lemma NewUnionType_scan_prims_ok all l : forall prev,
  adjdup (match prev with Some p => p :: l | None => l end) = false ->
  NewUnionType_scan all (option_map PrimType prev) (prims l) = Ok tt.
Proof.
  induction l as [|x l IH]; intros prev.
  - destruct prev; reflexivity.
  - destruct prev as [p|]; cbn [option_map prims map NewUnionType_scan adjdup].
    + rewrite TypeEqual_prims. cbn [rbind].
      destruct (String.eqb x p); cbn [orb]; [discriminate|].
      apply (IH (Some x)).
    + apply (IH (Some x)).
Qed.

Lemma NewUnionType_scan_prims_dup all l : forall prev,
  adjdup (match prev with Some p => p :: l | None => l end) = true ->
  exists msg, NewUnionType_scan all (option_map PrimType prev) (prims l)
              = Err (ErrorString msg).
Proof.
  induction l as [|x l IH]; intros prev.
  - destruct prev; discriminate.
  - destruct prev as [p|]; cbn [option_map prims map NewUnionType_scan adjdup].
    + rewrite TypeEqual_prims. cbn [rbind].
      destruct (String.eqb x p); cbn [orb]; [eexists; reflexivity|].
      apply (IH (Some x)).
    + apply (IH (Some x)).
Qed.

Lemma adjdup_false_strict l :
  StronglySorted str_le l -> adjdup l = false -> StronglySorted str_lt l.
Proof.
  induction 1 as [|a l Hl IH Ha]; intros Hd; [constructor|].
  destruct l as [|b l]; [repeat constructor|].
  cbn [adjdup] in Hd. apply orb_false_iff in Hd as [Hne Hd].
  specialize (IH Hd). constructor; [exact IH|].
  inversion Ha as [|? ? Hab Hal]; subst.
  assert (Hlt : str_lt a b).
  { apply String.eqb_neq in Hne. unfold str_le, str_lt in *.
    destruct (String.compare a b) eqn:E; try congruence.
    apply str_cmp_eq in E. congruence. }
  constructor; [exact Hlt|].
  inversion IH as [|? ? _ Hbl]; subst.
  rewrite List.Forall_forall in *. intros x Hx. eapply str_lt_trans; eauto.
Qed.

Lemma adjdup_true_dup l : adjdup l = true -> ~ List.NoDup l.
Proof.
  induction l as [|a l IH]; [discriminate|].
  destruct l as [|b l]; [discriminate|]. cbn [adjdup].
  intros H Hnd. apply orb_true_iff in H as [H|H].
  - apply String.eqb_eq in H. subst b. inversion Hnd as [|? ? Hin _]. apply Hin. left; reflexivity.
  - inversion Hnd; subst. apply IH; assumption.
Qed.

Lemma strict_sorted_NoDup l : StronglySorted str_lt l -> List.NoDup l.
Proof.
  induction 1 as [|a l Hl IH Ha]; constructor; [|exact IH].
  intros Hin. rewrite List.Forall_forall in Ha. specialize (Ha a Hin).
  unfold str_lt in Ha.
  assert (String.compare a a = Eq) by (apply str_cmp_eq; reflexivity). congruence.
Qed.

Lemma NewUnionType_prims_eq names :
  NewUnionType (prims names) =
    rbind (NewUnionType_scan (prims (sort_names_from [] names)) None
             (prims (sort_names_from [] names)))
          (fun _ => Ok (UnionType (prims (sort_names_from [] names)))).
Proof.
  unfold NewUnionType, sort_Slice.
  change (@nil Type_) with (prims []). rewrite sort_Slice_from_prims. reflexivity.
Qed.

Lemma NewUnionType_prims_NoDup names :
  List.NoDup names ->
  exists sorted,
    NewUnionType (prims names) = Ok (UnionType (prims sorted)) /\
    Permutation names sorted /\ StronglySorted str_lt sorted.
Proof.
  intros Hnd. exists (sort_names_from [] names).
  pose proof (sort_names_from_perm names []) as Hp. cbn in Hp.
  pose proof (sort_names_from_sorted names [] ltac:(constructor)) as Hs.
  destruct (adjdup (sort_names_from [] names)) eqn:Hd.
  - exfalso. apply (adjdup_true_dup _ Hd).
    eapply Permutation_NoDup; eassumption.
  - split; [|split; [exact Hp | apply adjdup_false_strict; assumption]].
    rewrite NewUnionType_prims_eq.
    pose proof (NewUnionType_scan_prims_ok
                  (prims (sort_names_from [] names)) _ None Hd) as Hscan.
    cbn [option_map] in Hscan. rewrite Hscan. reflexivity.
Qed.

Lemma NewUnionType_prims_dup names :
  ~ List.NoDup names ->
  exists msg, NewUnionType (prims names) = Err (ErrorString msg).
Proof.
  intros Hnd.
  pose proof (sort_names_from_perm names []) as Hp. cbn in Hp.
  pose proof (sort_names_from_sorted names [] ltac:(constructor)) as Hs.
  destruct (adjdup (sort_names_from [] names)) eqn:Hd.
  - rewrite NewUnionType_prims_eq.
    destruct (NewUnionType_scan_prims_dup (prims (sort_names_from [] names)) _ None Hd)
      as [msg Hscan].
    cbn [option_map] in Hscan. rewrite Hscan. exists msg. reflexivity.
  - exfalso. apply Hnd.
    eapply Permutation_NoDup; [symmetry; exact Hp|].
    apply strict_sorted_NoDup, adjdup_false_strict; assumption.
Qed.

(** X18.  [NewUnionType] on a list of prims without duplicates returns the
    union of the same prims with their names in strictly ascending order;
    on a list with a duplicate it returns an error, wherever the two equal
    members stand in the list. *)
Theorem NewUnionType_of_prims (names : list string) :
  (List.NoDup names ->
   exists sorted,
     NewUnionType (prims names) = Ok (UnionType (prims sorted)) /\
     Permutation names sorted /\ StronglySorted str_lt sorted) /\
  (~ List.NoDup names ->
   exists msg, NewUnionType (prims names) = Err (ErrorString msg)).
Proof.
  split; [apply NewUnionType_prims_NoDup | apply NewUnionType_prims_dup].
Qed.

Lemma NewUnionType_of_prims_witness :
  (exists sorted,
     NewUnionType (prims ["int"; "float"; "bool"]) = Ok (UnionType (prims sorted)) /\
     Permutation ["int"; "float"; "bool"] sorted /\ StronglySorted str_lt sorted) /\
  (exists msg, NewUnionType (prims ["int"; "float"; "int"]) = Err (ErrorString msg)).
Proof.
  split.
  - apply (proj1 (NewUnionType_of_prims ["int"; "float"; "bool"])).
    repeat constructor; cbn; intros H; repeat destruct H as [H|H]; try discriminate H;
      try exact H.
  - apply (proj2 (NewUnionType_of_prims ["int"; "float"; "int"])).
    intros H. inversion H as [|x l Hin _]. apply Hin. right. left. reflexivity.
Defined.

(** X19.  The outcome of [NewUnionType] on prims, union or error with its
    message, does not depend on the order in which the members are
    given. *)
Theorem NewUnionType_order_independent names names' :
  Permutation names names' ->
  NewUnionType (prims names') = NewUnionType (prims names).
Proof.
  intros Hp. rewrite !NewUnionType_prims_eq.
  rewrite (sort_names_perm_eq names names' Hp). reflexivity.
Qed.

Lemma NewUnionType_order_independent_witness :
  NewUnionType (prims ["float"; "int"]) = NewUnionType (prims ["int"; "float"]).
Proof.
  apply (NewUnionType_order_independent ["int"; "float"] ["float"; "int"]).
  apply perm_swap.
Defined.

(** ** Compatibility on the types the parser spells *)

Lemma TypeEqual_prim_plain a typ :
  plain typ = true ->
  exists b, TypeEqual (PrimType a) typ = Ok b /\ (b = true <-> typ = PrimType a).
Proof.
  destruct typ as [| |nb|ts|]; try discriminate; intros _.
  - exists false. split; [reflexivity|]. split; discriminate.
  - rewrite TypeEqual_prims. eexists. split; [reflexivity|].
    rewrite String.eqb_eq. split; congruence.
  - exists false. split; [reflexivity|]. split; discriminate.
Qed.

Lemma compat_member_prim a ts :
  forallb plain ts = true ->
  exists b, compat_member (PrimType a) ts = Ok b /\ (b = true <-> In (PrimType a) ts).
Proof.
  induction ts as [|typ ts IH]; cbn [forallb compat_member]; intros Hp.
  - exists false. split; [reflexivity|]. split; [discriminate | intros []].
  - apply andb_true_iff in Hp as [Ht Hts].
    destruct (TypeEqual_prim_plain a typ Ht) as (b & -> & Hb). cbn [rbind].
    destruct b.
    + exists true. split; [reflexivity|].
      split; [intros _; left; apply (proj1 Hb); reflexivity | reflexivity].
    + destruct (IH Hts) as (b' & -> & Hb'). exists b'. split; [reflexivity|].
      rewrite Hb'. split; [right; assumption|].
      intros [Heq|Hin]; [|exact Hin]. apply (proj2 Hb) in Heq. discriminate.
Qed.

Lemma is_prim_plain ts : forallb is_prim ts = true -> forallb plain ts = true.
Proof.
  rewrite !List.forallb_forall. intros H x Hx. specialize (H x Hx).
  destruct x; try discriminate; reflexivity.
Qed.

Lemma compat_subset_prims ts_a ts_b :
  forallb is_prim ts_a = true -> forallb plain ts_b = true ->
  exists b, compat_subset ts_a ts_b = Ok b /\ (b = true <-> incl ts_a ts_b).
Proof.
  induction ts_a as [|x ts_a IH]; cbn [forallb compat_subset]; intros Ha Hb.
  - exists true. split; [reflexivity|]. split; [intros _ y [] | reflexivity].
  - apply andb_true_iff in Ha as [Hx Ha]. destruct x as [| |n| |]; try discriminate.
    destruct (compat_member_prim n ts_b Hb) as (f & -> & Hf). cbn [rbind].
    destruct f.
    + destruct (IH Ha Hb) as (b & -> & Hbb). exists b. split; [reflexivity|].
      rewrite Hbb. split.
      * intros Hi y [<-|Hy]; [apply Hf; reflexivity | auto].
      * intros Hi y Hy. apply Hi. right. assumption.
    + exists false. split; [reflexivity|]. split; [discriminate|].
      intros Hi. apply Hf. apply Hi. left. reflexivity.
Qed.

(** X20.  A prim is compatible with a union of void, prim and union
    members exactly when it is one of the members. *)
Theorem TypeCompatibleWith_prim_in_union (a : string) (ts : list Type_) :
  forallb plain ts = true ->
  exists b, TypeCompatibleWith (PrimType a) (UnionType ts) = Ok b /\
    (b = true <-> In (PrimType a) ts).
Proof. intros H. cbn [TypeCompatibleWith]. apply compat_member_prim. exact H. Qed.

Lemma TypeCompatibleWith_prim_in_union_witness :
  exists b,
    TypeCompatibleWith (PrimType "int") (UnionType [VoidType; PrimType "float"; PrimType "int"])
      = Ok b /\
    (b = true <-> In (PrimType "int") [VoidType; PrimType "float"; PrimType "int"]).
Proof.
  apply (TypeCompatibleWith_prim_in_union "int" [VoidType; PrimType "float"; PrimType "int"]).
  reflexivity.
Defined.

(** X21.  A union of prims is compatible with a union exactly when each
    of its members is a member of the other. *)
Theorem TypeCompatibleWith_union_subset (ts_a ts_b : list Type_) :
  forallb is_prim ts_a = true -> forallb plain ts_b = true ->
  exists b, TypeCompatibleWith (UnionType ts_a) (UnionType ts_b) = Ok b /\
    (b = true <-> incl ts_a ts_b).
Proof. intros Ha Hb. cbn [TypeCompatibleWith]. apply compat_subset_prims; assumption. Qed.

Lemma TypeCompatibleWith_union_subset_witness :
  exists b,
    TypeCompatibleWith (UnionType [PrimType "int"])
      (UnionType [PrimType "float"; PrimType "int"]) = Ok b /\
    (b = true <-> incl [PrimType "int"] [PrimType "float"; PrimType "int"]).
Proof.
  apply (TypeCompatibleWith_union_subset [PrimType "int"] [PrimType "float"; PrimType "int"]);
    reflexivity.
Defined.

(** X22.  On the types the parser can spell (prims and unions of prims)
    and the void type, compatibility is transitive. *)
Theorem TypeCompatibleWith_trans a b c :
  flat_or_void a = true -> flat_or_void b = true -> flat_or_void c = true ->
  TypeCompatibleWith a b = Ok true -> TypeCompatibleWith b c = Ok true ->
  TypeCompatibleWith a c = Ok true.
Proof.
  intros Fa Fb Fc.
  destruct a as [| |na|tsa|]; try discriminate;
    destruct b as [| |nb|tsb|]; try discriminate;
    destruct c as [| |nc|tsc|]; try discriminate;
    cbn [TypeCompatibleWith flat_or_void flat] in *; try discriminate; auto.
  - (* prim prim prim *)
    rewrite !TypeEqual_prims. intros [= H1] [= H2].
    apply String.eqb_eq in H1, H2. subst. rewrite String.eqb_refl. reflexivity.
  - (* prim prim union *)
    rewrite TypeEqual_prims. intros [= H1]. apply String.eqb_eq in H1. subst. auto.
  - (* prim union union *)
    intros H1 H2.
    destruct (compat_member_prim na tsb (is_prim_plain _ Fb)) as (b1 & E1 & I1).
    destruct (compat_subset_prims tsb tsc Fb (is_prim_plain _ Fc)) as (b2 & E2 & I2).
    destruct (compat_member_prim na tsc (is_prim_plain _ Fc)) as (b3 & E3 & I3).
    rewrite E1 in H1. rewrite E2 in H2. injection H1 as ->. injection H2 as ->.
    rewrite E3. f_equal. apply I3. apply I2; [reflexivity|]. apply I1. reflexivity.
  - (* union union union *)
    intros H1 H2.
    destruct (compat_subset_prims tsa tsb Fa (is_prim_plain _ Fb)) as (b1 & E1 & I1).
    destruct (compat_subset_prims tsb tsc Fb (is_prim_plain _ Fc)) as (b2 & E2 & I2).
    destruct (compat_subset_prims tsa tsc Fa (is_prim_plain _ Fc)) as (b3 & E3 & I3).
    rewrite E1 in H1. rewrite E2 in H2. injection H1 as ->. injection H2 as ->.
    rewrite E3. f_equal. apply I3. intros y Hy. apply I2; [reflexivity|].
    apply I1; [reflexivity | exact Hy].
Qed.

Lemma TypeCompatibleWith_trans_witness :
  TypeCompatibleWith (PrimType "int")
    (UnionType [PrimType "bool"; PrimType "float"; PrimType "int"]) = Ok true.
Proof.
  apply (TypeCompatibleWith_trans (PrimType "int")
           (UnionType [PrimType "float"; PrimType "int"])
           (UnionType [PrimType "bool"; PrimType "float"; PrimType "int"]));
    vm_compute; reflexivity.
Defined.

(** ** Lookup in the type worlds *)

Lemma Lookup_snoc tws (tw : gmap string Type_) name :
  Lookup (tws ++ [tw]) name =
    match TypeWorld_get tw name with
    | InvalidType => Lookup tws name
    | it => it
    end.
Proof. unfold Lookup. rewrite rev_app_distr. reflexivity. Qed.

Lemma Lookup_found tws : forall name ty,
  Lookup tws name = ty -> ty <> InvalidType ->
  exists tw : gmap string Type_, In tw tws /\ tw !! name = Some ty.
Proof.
  induction tws as [|tw tws IH] using rev_ind; intros name ty H Hne.
  - cbn in H. congruence.
  - rewrite Lookup_snoc in H. unfold TypeWorld_get in H.
    destruct (tw !! name) as [it|] eqn:Hit.
    + destruct it; try (exists tw; split; [apply in_or_app; right; left; reflexivity | congruence]).
      destruct (IH name ty H Hne) as (tw' & Hin & Hl).
      exists tw'. split; [apply in_or_app; left; exact Hin | exact Hl].
    + destruct (IH name ty H Hne) as (tw' & Hin & Hl).
      exists tw'. split; [apply in_or_app; left; exact Hin | exact Hl].
Qed.

Lemma Lookup_undefined tws : forall name,
  (forall tw : gmap string Type_, In tw tws -> tw !! name = None) ->
  Lookup tws name = InvalidType.
Proof.
  induction tws as [|tw tws IH] using rev_ind; intros name H; [reflexivity|].
  rewrite Lookup_snoc. unfold TypeWorld_get.
  rewrite (H tw) by (apply in_or_app; right; left; reflexivity).
  apply IH. intros tw' Hin. apply H. apply in_or_app. left. exact Hin.
Qed.

(** X23.  [Lookup] prefers later worlds: the binding of the last world
    wins, and only a name the last world does not bind is looked up in the
    worlds before it.  Whatever [Lookup] returns is bound to the name in one
    of the worlds, and a name bound in no world is answered with the nil
    type. *)
Theorem Lookup_last_world_wins (tws : TypeWorlds) (tw : TypeWorld) (name : string) :
  Lookup (tws ++ [tw]) name =
    match TypeWorld_get tw name with
    | InvalidType => Lookup tws name
    | it => it
    end /\
  (forall ty, Lookup tws name = ty -> ty <> InvalidType ->
     exists tw' : TypeWorld, In tw' tws /\ tw' !! name = Some ty) /\
  ((forall tw' : TypeWorld, In tw' tws -> tw' !! name = None) ->
   Lookup tws name = InvalidType).
Proof.
  split; [apply Lookup_snoc|]. split; [apply Lookup_found | apply Lookup_undefined].
Qed.

Lemma Lookup_last_world_wins_witness :
  let shadow : TypeWorld := {[ "square.i" := PrimType "int" ]} in
  Lookup ([builtins] ++ [shadow]) "square.i" = PrimType "int" /\
  (exists tw' : TypeWorld, In tw' [builtins] /\
     tw' !! "square.i" = Some (FuncType [PrimType "int"] [PrimType "int"])) /\
  Lookup [] "square.i" = InvalidType.
Proof.
  intros shadow.
  destruct (Lookup_last_world_wins [builtins] shadow "square.i") as (H1 & H2 & _).
  split; [rewrite H1; vm_compute; reflexivity|]. split.
  - apply H2; [vm_compute; reflexivity | discriminate].
  - apply (proj2 (proj2 (Lookup_last_world_wins [] shadow "square.i"))).
    intros tw' [].
Defined.

(** ** The frame of inference *)

Lemma for_range_ext n : forall from body body',
  (forall i, i < n -> body (from + i) = body' (from + i)) ->
  for_range n from body = for_range n from body'.
Proof.
  induction n as [|n IH]; intros from body body' H; [reflexivity|].
  cbn [for_range]. pose proof (H 0 ltac:(lia)) as H0. rewrite Nat.add_0_r in H0.
  rewrite H0. destruct (body' from); cbn; try reflexivity.
  apply IH. intros i Hi. replace (S from + i) with (from + S i) by lia. apply H. lia.
Qed.

Lemma for_range_inv n : forall from body,
  for_range n from body = Ok tt -> forall i, i < n -> body (from + i) = Ok tt.
Proof.
  induction n as [|n IH]; intros from body H i Hi; [lia|].
  cbn [for_range] in H. destruct (body from) as [[]| | |] eqn:Hb; cbn in H; try discriminate.
  destruct i as [|i]; [rewrite Nat.add_0_r; exact Hb|].
  replace (from + S i) with (S from + i) by lia. apply IH; [exact H | lia].
Qed.

Lemma InferTypes_verb_frame tk tws verb P S :
  InferTypes_verb tk verb S tws <> Err not_enough ->
  InferTypes_verb tk verb (P ++ S) tws = rmap (app P) (InferTypes_verb tk verb S tws).
Proof.
  unfold InferTypes_verb. destruct (Lookup tws verb) as [| | | |args rets]; try reflexivity.
  destruct (length S <? length args) eqn:Hlen; [intros H; exfalso; apply H; reflexivity|].
  intros _. apply Nat.ltb_ge in Hlen.
  assert (Hlen' : (length (P ++ S) <? length args) = false)
    by (apply Nat.ltb_ge; rewrite length_app; lia).
  rewrite Hlen'.
  rewrite (for_range_ext (length args) 0
             (check_compat (P ++ S) args (length (P ++ S) - length args) tk (call_extra verb))
             (check_compat S args (length S - length args) tk (call_extra verb))).
  2:{ intros i Hi. cbn. unfold check_compat, index.
      rewrite length_app.
      replace (length P + length S - length args + i)
        with (length P + (length S - length args + i)) by lia.
      rewrite lookup_app_r by lia.
      replace (length P + (length S - length args + i) - length P)
        with (length S - length args + i) by lia.
      reflexivity. }
  destruct (for_range (length args) 0 _) as [[]| | |]; cbn; try reflexivity.
  rewrite !push_all. f_equal. rewrite length_app.
  replace (length P + length S - length args)
    with (length P + (length S - length args)) by lia.
  rewrite take_app_add. rewrite app_assoc. reflexivity.
Qed.

Lemma InferTypes_item_frame tk tws v P S :
  InferTypes_item tk tws v S <> Err not_enough ->
  InferTypes_item tk tws v (P ++ S) = rmap (app P) (InferTypes_item tk tws v S).
Proof.
  destruct v; cbn [InferTypes_item rmap]; intros H;
    try reflexivity; try (rewrite app_assoc; reflexivity).
  apply InferTypes_verb_frame. exact H.
Qed.

Lemma InferTypes_exps_frame tk tws P exps : forall S,
  InferTypes_exps tk tws exps S <> Err not_enough ->
  InferTypes_exps tk tws exps (P ++ S)
    = rmap (app P) (InferTypes_exps tk tws exps S).
Proof.
  induction exps as [|v exps IH]; intros S H; [reflexivity|].
  cbn [InferTypes_exps] in *.
  rewrite InferTypes_item_frame.
  - destruct (InferTypes_item tk tws v S) as [S1| | |]; cbn in *; try reflexivity.
    apply IH. exact H.
  - intros Hv. rewrite Hv in H. apply H. reflexivity.
Qed.

(** X24.  Inference only looks at the top of the stack: unless it fails
    for want of arguments, [InferTypes] on a stack with further entries
    below gives the same error, or the same resulting stack on top of those
    entries, which it leaves untouched. *)
Theorem InferTypes_frame node tws P S :
  InferTypes node S tws <> Err not_enough ->
  InferTypes node (P ++ S) tws = rmap (app P) (InferTypes node S tws).
Proof.
  destruct node; cbn [InferTypes rmap]; intros H;
    try reflexivity; try (rewrite app_assoc; reflexivity).
  apply InferTypes_exps_frame. exact H.
Qed.

Lemma InferTypes_frame_witness :
  let node := ExpNode [VerbNode "square.i" None; LitFloatNode (mkFloat false 15 1) None] None in
  let tws := NewTypeWorlds [builtins] in
  InferTypes node [PrimType "int"] tws <> Err not_enough /\
  InferTypes node ([PrimType "float"; PrimType "bool"] ++ [PrimType "int"]) tws
    = Ok [PrimType "float"; PrimType "bool"; PrimType "int"; PrimType "float"].
Proof.
  intros node tws.
  assert (H : InferTypes node [PrimType "int"] tws <> Err not_enough)
    by (vm_compute; discriminate).
  split; [exact H|].
  rewrite (InferTypes_frame node tws [PrimType "float"; PrimType "bool"] [PrimType "int"] H).
  vm_compute. reflexivity.
Defined.

(** ** What a successful inference or check says *)

Lemma check_compat_inv gots wants goff tk extra i :
  check_compat gots wants goff tk extra i = Ok tt ->
  exists got wanted, gots !! (goff + i) = Some got /\ wants !! i = Some wanted /\
    TypeCompatibleWith got wanted = Ok true.
Proof.
  unfold check_compat, index.
  destruct (gots !! (goff + i)) as [got|]; cbn; [|discriminate].
  destruct (wants !! i) as [wanted|]; cbn; [|discriminate].
  destruct (TypeCompatibleWith got wanted) as [[|]| | |] eqn:Hc; cbn; try discriminate.
  intros _. exists got, wanted. split; [reflexivity|]. split; [reflexivity | exact Hc].
Qed.

Lemma compat_loop_inv gots wants goff tk extra :
  for_range (length wants) 0 (check_compat gots wants goff tk extra) = Ok tt ->
  forall i got wanted, gots !! (goff + i) = Some got -> wants !! i = Some wanted ->
    TypeCompatibleWith got wanted = Ok true.
Proof.
  intros H i got wanted Hg Hw.
  assert (Hi : i < length wants) by (eapply lookup_lt_Some; eassumption).
  pose proof (for_range_inv _ _ _ H i Hi) as Hc. cbn in Hc.
  destruct (check_compat_inv _ _ _ _ _ _ Hc) as (g & w & Hg' & Hw' & Hcw).
  congruence.
Qed.

(** X25.  When a verb is accepted, it is bound to a function type, the
    stack holds at least as many entries as the function has arguments, each
    of the top entries is compatible with the argument type at its
    position, and the new stack is the old one with those entries replaced
    by the return types. *)
Theorem InferTypes_verb_sound tk tws verb vtk S S' :
  InferTypes_item tk tws (VerbNode verb vtk) S = Ok S' ->
  exists args rets,
    Lookup tws verb = FuncType args rets /\
    length args <= length S /\
    S' = take (length S - length args) S ++ rets /\
    (forall i got formal,
       S !! (length S - length args + i) = Some got -> args !! i = Some formal ->
       TypeCompatibleWith got formal = Ok true).
Proof.
  cbn [InferTypes_item]. unfold InferTypes_verb.
  destruct (Lookup tws verb) as [| | | |args rets]; try discriminate.
  destruct (length S <? length args) eqn:Hlen; [discriminate|].
  apply Nat.ltb_ge in Hlen.
  destruct (for_range (length args) 0 _) as [[]| | |] eqn:Hloop; cbn; try discriminate.
  rewrite push_all. intros [= <-]. exists args, rets.
  split; [reflexivity|]. split; [exact Hlen|]. split; [reflexivity|].
  apply (compat_loop_inv _ _ _ _ _ Hloop).
Qed.

Lemma InferTypes_verb_sound_witness :
  let tws := NewTypeWorlds [builtins] in
  let stack := [PrimType "float"; PrimType "int"] in
  exists args rets,
    Lookup tws "square.i" = FuncType args rets /\
    length args <= length stack /\
    [PrimType "float"; PrimType "int"] = take (length stack - length args) stack ++ rets /\
    (forall i got formal,
       stack !! (length stack - length args + i) = Some got -> args !! i = Some formal ->
       TypeCompatibleWith got formal = Ok true).
Proof.
  intros tws stack.
  apply (InferTypes_verb_sound None tws "square.i" None stack).
  vm_compute. reflexivity.
Defined.

Lemma TypeCheck_func_inv tws fn :
  TypeCheck_func tws fn = Ok tt ->
  exists types,
    TypeCheck_body tws (FuncNode_Body (Func_FuncNode fn)) [] = Ok types /\
    length types = length (Sig_RetTypes (Func_Type fn)) /\
    (forall i got wanted,
       types !! i = Some got -> Sig_RetTypes (Func_Type fn) !! i = Some wanted ->
       TypeCompatibleWith got wanted = Ok true).
Proof.
  unfold TypeCheck_func.
  destruct (TypeCheck_body tws (FuncNode_Body (Func_FuncNode fn)) []) as [types| | |];
    cbn; try discriminate.
  destruct (length types =? length (Sig_RetTypes (Func_Type fn))) eqn:Hlen;
    cbn; [|discriminate].
  apply Nat.eqb_eq in Hlen. intros H. exists types.
  split; [reflexivity|]. split; [exact Hlen|].
  rewrite Hlen in H. apply (compat_loop_inv _ _ 0 _ _ H).
Qed.

Lemma TypeCheck_funcs_inv tws funcs :
  TypeCheck_funcs tws funcs = Ok tt -> funcs_pass tws funcs.
Proof.
  induction funcs as [|[fk fn] funcs IH]; intros H e He; [destruct He|].
  cbn [TypeCheck_funcs] in H.
  destruct (TypeCheck_func tws fn) as [[]| | |] eqn:Hfn; cbn in H; try discriminate.
  destruct He as [<-|He]; [exact Hfn | apply IH; assumption].
Qed.

Lemma TypeCheck_modules_inv tws modules :
  TypeCheck_modules tws modules = Ok tt ->
  forall m, In m modules -> funcs_pass tws (Mod_Funcs (snd m)).
Proof.
  induction modules as [|[k v] modules IH]; intros H m Hm; [destruct Hm|].
  cbn [TypeCheck_modules] in H.
  destruct (negb (String.eqb k (Mod_Name v))); [discriminate|].
  destruct (TypeCheck_funcs tws (Mod_Funcs v)) as [[]| | |] eqn:Hv; cbn in H; try discriminate.
  destruct Hm as [<-|Hm]; [apply TypeCheck_funcs_inv; exact Hv | apply IH; assumption].
Qed.

(** X26.  When [TypeCheck] returns no error, every module is stored under
    its own name, and for every function of every module the inference of
    the body from the empty stack succeeds, under the builtins and the type
    world of all modules, with exactly as many types as the function
    declares results, each compatible with the declared type at its
    position. *)
Theorem TypeCheck_sound (modules : list (string * Module)) :
  TypeCheck modules = Ok tt ->
  exists tw : TypeWorld,
    TypeCheck_world modules ∅ = Ok tw /\ names_match modules /\
    forall k v fk fn, In (k, v) modules -> In (fk, fn) (Mod_Funcs v) ->
      exists types,
        TypeCheck_body (NewTypeWorlds [builtins; tw])
          (FuncNode_Body (Func_FuncNode fn)) [] = Ok types /\
        length types = length (Sig_RetTypes (Func_Type fn)) /\
        (forall i got wanted,
           types !! i = Some got -> Sig_RetTypes (Func_Type fn) !! i = Some wanted ->
           TypeCompatibleWith got wanted = Ok true).
Proof.
  unfold TypeCheck. destruct (TypeCheck_world modules ∅) as [tw| | |] eqn:Hw; try discriminate.
  cbn [rbind]. intros H. exists tw. split; [reflexivity|].
  split; [eapply TypeCheck_world_names; exact Hw|].
  intros k v fk fn Hm Hf.
  apply TypeCheck_func_inv.
  apply (TypeCheck_modules_inv _ _ H (k, v) Hm (fk, fn) Hf).
Qed.

Lemma TypeCheck_sound_witness :
  let f := mkFunc (FuncNode "f" []
             [ExpNode [LitIntNode 5 None; VerbNode "square.i" None] None]
             [PrimType "int"] None) in
  let m := mkModule "m" "/m" [("f", f)] in
  exists tw : TypeWorld,
    TypeCheck_world [("m", m)] ∅ = Ok tw /\ names_match [("m", m)] /\
    forall k v fk fn, In (k, v) [("m", m)] -> In (fk, fn) (Mod_Funcs v) ->
      exists types,
        TypeCheck_body (NewTypeWorlds [builtins; tw])
          (FuncNode_Body (Func_FuncNode fn)) [] = Ok types /\
        length types = length (Sig_RetTypes (Func_Type fn)) /\
        (forall i got wanted,
           types !! i = Some got -> Sig_RetTypes (Func_Type fn) !! i = Some wanted ->
           TypeCompatibleWith got wanted = Ok true).
Proof.
  intros f m. apply (TypeCheck_sound [("m", m)]). vm_compute. reflexivity.
Defined.

(** ** The type world of the modules *)

Lemma strings_ContainsRune_app a b c :
  strings_ContainsRune (a +:+ b) c = strings_ContainsRune a c || strings_ContainsRune b c.
Proof.
  induction a as [|x a IH]; simpl; [reflexivity|].
  rewrite IH. rewrite orb_assoc. reflexivity.
Qed.

Lemma fqname_has_colon v fn : strings_ContainsRune (fqname_of v fn) ":" = true.
Proof.
  unfold fqname_of. rewrite !strings_ContainsRune_app. cbn.
  rewrite orb_true_r. reflexivity.
Qed.

Lemma register_fold_lookup v (funcs : list (string * Func)) : forall (tw : gmap string Type_) name ty,
  fold_left
    (fun (tw : gmap string Type_) (e : string * Func) =>
       <[ fqname_of v (snd e) := FuncType_of (Func_Type (snd e)) ]> tw)
    funcs tw !! name = Some ty ->
  tw !! name = Some ty \/
  exists e, In e funcs /\ name = fqname_of v (snd e) /\ ty = FuncType_of (Func_Type (snd e)).
Proof.
  induction funcs as [|e funcs IH]; intros tw name ty H; cbn in H; [left; exact H|].
  destruct (IH _ _ _ H) as [Hl|(e' & Hin & Hn & Ht)].
  - destruct (decide (fqname_of v (snd e) = name)) as [Heq|Hne].
    + subst name. rewrite lookup_insert_eq in Hl. injection Hl as <-.
      right. exists e. split; [left; reflexivity | split; reflexivity].
    + rewrite lookup_insert_ne in Hl by exact Hne. left. exact Hl.
  - right. exists e'. split; [right; exact Hin | split; assumption].
Qed.

Lemma register_fold_mono v (funcs : list (string * Func)) : forall (tw : gmap string Type_) name,
  is_Some (tw !! name) ->
  is_Some (fold_left
    (fun (tw : gmap string Type_) (e : string * Func) =>
       <[ fqname_of v (snd e) := FuncType_of (Func_Type (snd e)) ]> tw)
    funcs tw !! name).
Proof.
  induction funcs as [|e funcs IH]; intros tw name H; cbn; [exact H|].
  apply IH. destruct (decide (fqname_of v (snd e) = name)) as [<-|Hne].
  - rewrite lookup_insert_eq. eauto.
  - rewrite lookup_insert_ne by exact Hne. exact H.
Qed.

Lemma register_fold_added v (funcs : list (string * Func)) : forall (tw : gmap string Type_) e,
  In e funcs ->
  is_Some (fold_left
    (fun (tw : gmap string Type_) (e : string * Func) =>
       <[ fqname_of v (snd e) := FuncType_of (Func_Type (snd e)) ]> tw)
    funcs tw !! fqname_of v (snd e)).
Proof.
  induction funcs as [|e0 funcs IH]; intros tw e Hin; [destruct Hin|].
  destruct Hin as [<-|Hin]; cbn.
  - apply register_fold_mono. rewrite lookup_insert_eq. eauto.
  - apply IH. exact Hin.
Qed.

Lemma TypeCheck_world_lookup modules : forall (tw0 tw : gmap string Type_) name ty,
  TypeCheck_world modules tw0 = Ok tw -> tw !! name = Some ty ->
  tw0 !! name = Some ty \/
  exists k v fk fn, In (k, v) modules /\ In (fk, fn) (Mod_Funcs v) /\
    name = fqname_of v fn /\ ty = FuncType_of (Func_Type fn).
Proof.
  induction modules as [|[k v] modules IH]; intros tw0 tw name ty H Hl.
  - cbn in H. injection H as <-. left. exact Hl.
  - cbn [TypeCheck_world] in H.
    destruct (negb (String.eqb k (Mod_Name v))); [discriminate|].
    destruct (IH _ _ _ _ H Hl) as [Hreg|(k' & v' & fk & fn & Hm & Hf & Hn & Ht)].
    + unfold TypeCheck_register in Hreg.
      destruct (register_fold_lookup v _ _ _ _ Hreg) as [H0|([fk fn] & Hin & Hn & Ht)].
      * left. exact H0.
      * right. exists k, v, fk, fn. split; [left; reflexivity|]. auto.
    + right. exists k', v', fk, fn. split; [right; exact Hm|]. auto.
Qed.

Lemma TypeCheck_world_mono modules : forall (tw0 tw : gmap string Type_) name,
  TypeCheck_world modules tw0 = Ok tw -> is_Some (tw0 !! name) -> is_Some (tw !! name).
Proof.
  induction modules as [|[k v] modules IH]; intros tw0 tw name H Hs.
  - cbn in H. injection H as <-. exact Hs.
  - cbn [TypeCheck_world] in H.
    destruct (negb (String.eqb k (Mod_Name v))); [discriminate|].
    apply (IH _ _ _ H). unfold TypeCheck_register. apply register_fold_mono. exact Hs.
Qed.

Lemma TypeCheck_world_registered modules : forall (tw0 tw : gmap string Type_) k v fk fn,
  TypeCheck_world modules tw0 = Ok tw ->
  In (k, v) modules -> In (fk, fn) (Mod_Funcs v) ->
  is_Some (tw !! fqname_of v fn).
Proof.
  induction modules as [|[k0 v0] modules IH]; intros tw0 tw k v fk fn H Hm Hf;
    [destruct Hm|].
  cbn [TypeCheck_world] in H.
  destruct (negb (String.eqb k0 (Mod_Name v0))); [discriminate|].
  destruct Hm as [[= -> ->]|Hm].
  - apply (TypeCheck_world_mono _ _ _ _ H). unfold TypeCheck_register.
    apply (register_fold_added v _ _ (fk, fn) Hf).
  - eapply IH; eassumption.
Qed.

(** X27.  The type world that [TypeCheck] builds binds the functions of
    the modules under their qualified names only, module name, colon,
    function name: each of its keys holds a colon and is such a name, bound
    to the type of a function with that name, and every function is bound.
    A name without a colon is therefore resolved by the builtins alone: no
    module function overrides a builtin such as [square.i]. *)
Theorem TypeCheck_world_qualified (modules : list (string * Module)) (tw : TypeWorld) :
  TypeCheck_world modules ∅ = Ok tw ->
  (forall name ty, tw !! name = Some ty ->
     strings_ContainsRune name ":" = true /\
     exists k v fk fn, In (k, v) modules /\ In (fk, fn) (Mod_Funcs v) /\
       name = Mod_Name v +:+ ":" +:+ Func_Name fn /\
       ty = FuncType_of (Func_Type fn)) /\
  (forall k v fk fn, In (k, v) modules -> In (fk, fn) (Mod_Funcs v) ->
     is_Some (tw !! (Mod_Name v +:+ ":" +:+ Func_Name fn))) /\
  (forall name, strings_ContainsRune name ":" = false ->
     Lookup (NewTypeWorlds [builtins; tw]) name = TypeWorld_get builtins name).
Proof.
  intros Hw.
  assert (Hkeys : forall name ty, tw !! name = Some ty ->
     strings_ContainsRune name ":" = true /\
     exists k v fk fn, In (k, v) modules /\ In (fk, fn) (Mod_Funcs v) /\
       name = Mod_Name v +:+ ":" +:+ Func_Name fn /\
       ty = FuncType_of (Func_Type fn)).
  { intros name ty Hn.
    destruct (TypeCheck_world_lookup _ _ _ _ _ Hw Hn) as [H0|(k & v & fk & fn & H1 & H2 & H3 & H4)].
    - rewrite lookup_empty in H0. discriminate H0.
    - split; [rewrite H3; apply fqname_has_colon|].
      exists k, v, fk, fn. auto. }
  split; [exact Hkeys|]. split.
  - intros k v fk fn Hm Hf. apply (TypeCheck_world_registered _ _ _ k v fk fn Hw Hm Hf).
  - intros name Hc. unfold NewTypeWorlds.
    change [builtins; tw] with ([builtins] ++ [tw]). rewrite Lookup_snoc.
    unfold TypeWorld_get at 1. destruct (tw !! name) as [ty|] eqn:Hn.
    + destruct (Hkeys _ _ Hn) as [Hcolon _]. congruence.
    + change [builtins] with ([] ++ [builtins]). rewrite Lookup_snoc.
      destruct (TypeWorld_get builtins name); reflexivity.
Qed.

Lemma TypeCheck_world_qualified_witness :
  let f := mkFunc (FuncNode "square.i" [] [ExpNode [LitFloatNode (mkFloat false 15 1) None] None]
             [PrimType "float"] None) in
  let m := mkModule "m" "/m" [("square.i", f)] in
  let tw : TypeWorld := {[ "m:square.i" := FuncType [] [PrimType "float"] ]} in
  TypeCheck_world [("m", m)] ∅ = Ok tw /\
  is_Some (tw !! "m:square.i") /\
  Lookup (NewTypeWorlds [builtins; tw]) "square.i" = TypeWorld_get builtins "square.i".
Proof.
  intros f m tw.
  assert (Hw : TypeCheck_world [("m", m)] ∅ = Ok tw) by (vm_compute; reflexivity).
  destruct (TypeCheck_world_qualified [("m", m)] tw Hw) as (_ & Hreg & Hbuiltin).
  split; [exact Hw|]. split.
  - apply (Hreg "m" m "square.i" f); left; reflexivity.
  - apply Hbuiltin. reflexivity.
Defined.

(** ** The token buffer *)

Lemma unread_read_empty p tk :
  tkbuf p = [] -> read (snd (unread tk p)) = (Ok tk, p).
Proof.
  destruct p as [t buf]. cbn. intros ->. reflexivity.
Qed.

Lemma unread_read_queued p tk hd rest :
  tkbuf p = hd :: rest ->
  read (snd (unread tk p)) = (Ok hd, mkParser (tz p) (rest ++ [tk])).
Proof.
  destruct p as [t buf]. cbn. intros ->. reflexivity.
Qed.

(** X10.  The token buffer of the parser is a queue: [unread] appends at
    its end and [read] takes from its front.  A token given back is the
    next one read, with the parser restored, only when the buffer was empty;
    on a buffer that holds tokens, [read] returns the oldest of these and
    the token given back waits behind the others. *)
Theorem unread_then_read (p : Parser) (tk : Token) :
  read (snd (unread tk p)) =
    match tkbuf p with
    | [] => (Ok tk, p)
    | hd :: rest => (Ok hd, mkParser (tz p) (rest ++ [tk]))
    end.
Proof.
  destruct (tkbuf p) as [|hd rest] eqn:Hbuf.
  - apply unread_read_empty. exact Hbuf.
  - apply unread_read_queued. exact Hbuf.
Qed.

(** ** What the parser returns *)

Lemma read_fresh t :
  read (mkParser t []) = (fst (Next t), mkParser (snd (Next t)) []).
Proof. unfold read, bind, readbuf, tz_Next. cbn. destruct (Next t). reflexivity. Qed.

Lemma parseType_union_prims fuel : forall names t types' p',
  parseType_union fuel (prims names) (mkParser t []) = (Ok types', p') ->
  exists names', types' = prims names' /\ tkbuf p' = [].
Proof.
  induction fuel as [|fuel IH]; intros names t types' p'; [discriminate|].
  cbn [parseType_union]. unfold bind at 1. rewrite read_fresh.
  destruct (Next t) as [[tk| | |] t1]; cbn [fst snd]; try discriminate.
  destruct (Typ tk) eqn:Htk; try discriminate.
  - (* IDENT *)
    unfold bind at 1. cbn [unread tz tkbuf app].
    destruct fuel as [|fuel']; [discriminate|].
    unfold bind at 1. cbn [parseType_fuel]. unfold bind at 1.
    rewrite (read_buffered (mkParser t1 [tk]) tk [] eq_refl). rewrite Htk.
    cbn [ret tz].
    replace (prims names ++ [PrimType (SVal tk)]) with (prims (names ++ [SVal tk]))
      by (unfold prims; rewrite map_app; reflexivity).
    apply IH.
  - (* RCBRACKET *)
    intros [= <- <-]. exists names. split; reflexivity.
Qed.

Lemma parseType_fresh_result t ty p' :
  parseType (mkParser t []) = (Ok ty, p') ->
  tkbuf p' = [] /\
  ((exists name, ty = PrimType name) \/
   (exists sorted, ty = UnionType (prims sorted) /\ StronglySorted str_lt sorted)).
Proof.
  unfold parseType, p_fuel. cbn [Nat.add parseType_fuel].
  unfold bind at 1. rewrite read_fresh.
  destruct (Next t) as [[tk| | |] t1]; cbn [fst snd]; try discriminate.
  destruct (Typ tk) eqn:Htk; try discriminate.
  - intros [= <- <-]. split; [reflexivity|]. left. eauto.
  - unfold bind at 1.
    destruct (parseType_union _ [] (mkParser t1 [])) as [[types| | |] p1] eqn:Hu;
      try discriminate.
    change (@nil Type_) with (prims []) in Hu.
    destruct (parseType_union_prims _ _ _ _ _ Hu) as (names & -> & Hbuf).
    destruct (NewUnionType (prims names)) as [ut|[]| |] eqn:HN; try discriminate.
    intros [= <- <-]. split; [exact Hbuf|]. right.
    destruct (ListDec.NoDup_dec String.string_dec names) as [Hnd|Hnd].
    + destruct (NewUnionType_prims_NoDup names Hnd) as (sorted & Hs & _ & Hsorted).
      rewrite Hs in HN. injection HN as <-. eauto.
    + destruct (NewUnionType_prims_dup names Hnd) as (msg & Hs).
      rewrite Hs in HN. discriminate.
Qed.

(** X11.  A type that [parseType] returns on a new parser is a prim or a
    union of prims whose names are in strictly ascending order, hence
    without duplicates; the token buffer is empty again afterwards. *)
Theorem parseType_result_canonical (t : tokenizer) (ty : Type_) (p' : Parser) :
  parseType (NewParser t) = (Ok ty, p') ->
  tkbuf p' = [] /\
  ((exists name, ty = PrimType name) \/
   (exists sorted, ty = UnionType (prims sorted) /\
      StronglySorted str_lt sorted /\ List.NoDup sorted)).
Proof.
  intros H. destruct (parseType_fresh_result t ty p' H) as [Hbuf [Hp|(sorted & -> & Hs)]].
  - split; [exact Hbuf|]. left. exact Hp.
  - split; [exact Hbuf|]. right. exists sorted.
    split; [reflexivity|]. split; [exact Hs | apply strict_sorted_NoDup; exact Hs].
Qed.

Lemma parseType_result_canonical_witness :
  let t := NewTokenizerString "{int float bool}" in
  let ty := UnionType (prims ["bool"; "float"; "int"]) in
  fst (parseType (NewParser t)) = Ok ty /\
  tkbuf (snd (parseType (NewParser t))) = [] /\
  ((exists name, ty = PrimType name) \/
   (exists sorted, ty = UnionType (prims sorted) /\
      StronglySorted str_lt sorted /\ List.NoDup sorted)).
Proof.
  intros t ty. split; [vm_compute; reflexivity|].
  apply (parseType_result_canonical t ty (snd (parseType (NewParser t)))).
  vm_compute. reflexivity.
Defined.

Lemma parseData_item p node p' :
  parseData p = (Ok node, p') -> exp_item node = true.
Proof.
  unfold parseData. unfold bind at 1.
  destruct (read p) as [[tk| | |] p1]; try discriminate.
  destruct (Typ tk); try discriminate.
  - destruct (strconv_ParseInt (SVal tk)); [|discriminate]. intros [= <- _]. reflexivity.
  - destruct (strconv_ParseFloat (SVal tk)); [|discriminate]. intros [= <- _]. reflexivity.
  - intros [= <- _]. reflexivity.
  - unfold bind. destruct (read_unchecked p1) as [[tk2| | |] p2]; try discriminate.
    destruct (Typ tk2); try discriminate. intros [= <- _]. reflexivity.
Qed.

Lemma parseExp_loop_result fuel : forall firsttk nodes p node p',
  forallb exp_item nodes = true -> length nodes <= 8 ->
  parseExp_loop fuel firsttk nodes p = (Ok node, p') ->
  exists exps tk, node = ExpNode exps (Some tk) /\
    length exps <= 8 /\ forallb exp_item exps = true /\
    (forall tk0, firsttk = Some tk0 -> tk = tk0) /\
    (firsttk = None -> fst (read p) = Ok tk).
Proof.
  induction fuel as [|fuel IH]; intros firsttk nodes p node p' Hall Hlen; [discriminate|].
  cbn [parseExp_loop]. unfold bind at 1.
  destruct (read p) as [[tk| | |] p1]; try discriminate. cbn [fst].
  assert (Hstep : forall p2 node p',
            (bind (unread tk) (fun _ => bind parseData (fun node0 =>
               bind (store8 nodes node0) (fun nodes0 =>
                 parseExp_loop fuel
                   match firsttk with Some _ => firsttk | None => Some tk end
                   nodes0)))) p2 = (Ok node, p') ->
            exists exps tk', node = ExpNode exps (Some tk') /\
              length exps <= 8 /\ forallb exp_item exps = true /\
              (forall tk0, firsttk = Some tk0 -> tk' = tk0) /\
              (firsttk = None -> Ok tk = Ok tk' :> result Token)).
  { intros p2 node0 p0. unfold bind at 1. cbn [unread]. unfold bind at 1.
    destruct (parseData _) as [[nd| | |] p3] eqn:Hd; try discriminate.
    apply parseData_item in Hd. unfold bind at 1. unfold store8.
    destruct (length nodes <? 8) eqn:Hl; [|discriminate]. cbn [ret].
    apply Nat.ltb_lt in Hl. intros H.
    assert (Hall' : forallb exp_item (nodes ++ [nd]) = true).
    { rewrite forallb_app, Hall. cbn [forallb andb]. rewrite Hd. reflexivity. }
    assert (Hlen' : length (nodes ++ [nd]) <= 8).
    { rewrite length_app. cbn [length]. lia. }
    destruct (IH _ _ _ _ _ Hall' Hlen' H) as (exps & tk' & -> & H1 & H2 & H3 & _).
    exists exps, tk'. split; [reflexivity|]. split; [exact H1|]. split; [exact H2|].
    split.
    - intros tk0 ->. apply H3. reflexivity.
    - intros ->. rewrite (H3 tk eq_refl). reflexivity. }
  destruct (Typ tk); try discriminate; try apply Hstep.
  intros [= <- _]. destruct firsttk as [tk0|].
  - exists nodes, tk0. split; [reflexivity|]. split; [exact Hlen|]. split; [exact Hall|].
    split; [intros ? [= ->]; reflexivity | discriminate].
  - exists nodes, tk. split; [reflexivity|]. split; [exact Hlen|]. split; [exact Hall|].
    split; [discriminate | reflexivity].
Qed.



Lemma parseExp_exp_node p node p' :
  parseExp p = (Ok node, p') -> exp_node node = true.
Proof.
  unfold parseExp. intros H.
  destruct (parseExp_loop_result _ None [] p node p' eq_refl ltac:(cbn; lia) H)
    as (exps & tk & -> & Hlen & Hall & _).
  cbn. rewrite Hall. apply Nat.leb_le in Hlen. rewrite Hlen. reflexivity.
Qed.

Lemma parseFunc_args_result fuel : forall args p args' p',
  length args <= 8 ->
  parseFunc_args fuel args p = (Ok args', p') -> length args' <= 8.
Proof.
  induction fuel as [|fuel IH]; intros args p args' p' Hlen; [discriminate|].
  cbn [parseFunc_args]. unfold bind at 1.
  destruct (read p) as [[tk| | |] p1]; try discriminate.
  destruct (Typ tk); try discriminate.
  - unfold bind at 1. cbn [unread]. unfold bind at 1.
    destruct (parseArg _) as [[arg| | |] p2]; try discriminate.
    unfold bind at 1, store8.
    destruct (length args <? 8) eqn:Hl; [|discriminate]. cbn [ret].
    apply Nat.ltb_lt in Hl. apply IH. rewrite length_app. cbn. lia.
  - intros [= <- _]. exact Hlen.
Qed.

Lemma parseFunc_body_result fuel : forall bodies p bodies' p',
  length bodies <= 8 -> forallb exp_node bodies = true ->
  parseFunc_body fuel bodies p = (Ok bodies', p') ->
  length bodies' <= 8 /\ forallb exp_node bodies' = true.
Proof.
  induction fuel as [|fuel IH]; intros bodies p bodies' p' Hlen Hall; [discriminate|].
  cbn [parseFunc_body]. unfold bind at 1.
  destruct (read p) as [[tk| | |] p1]; try discriminate.
  assert (Hexp : forall p2,
    (bind (unread tk) (fun _ => bind parseExp (fun sexp =>
       bind (store8 bodies sexp) (fun bodies0 => parseFunc_body fuel bodies0)))) p2
      = (Ok bodies', p') ->
    length bodies' <= 8 /\ forallb exp_node bodies' = true).
  { intros p2. unfold bind at 1. cbn [unread]. unfold bind at 1.
    destruct (parseExp _) as [[sexp| | |] p3] eqn:He; try discriminate.
    apply parseExp_exp_node in He.
    unfold bind at 1, store8.
    destruct (length bodies <? 8) eqn:Hl; [|discriminate]. cbn [ret].
    apply Nat.ltb_lt in Hl. apply IH.
    - rewrite length_app. cbn. lia.
    - rewrite forallb_app, Hall. cbn [forallb andb]. rewrite He. reflexivity. }
  destruct (Typ tk); try apply Hexp.
  - intros [= <- _]. split; assumption.
  - unfold bind at 1. cbn [unread]. unfold bind at 1, parseIf, panic. discriminate.
Qed.

(** X13.  What [parseFunc] returns without error is a [FuncNode] that
    carries the [func] token read first; its name holds no colon; it has at
    most eight arguments and at most eight body nodes, and each body node
    is an [ExpNode] as [parseExp] builds them: no [IfElseNode] is ever
    returned. *)
Theorem parseFunc_result (p : Parser) (fn : Node) (p' : Parser) :
  parseFunc p = (Ok fn, p') ->
  exists name args body rets tk,
    fn = FuncNode name args body rets (Some tk) /\
    fst (read p) = Ok tk /\ Typ tk = TT_FUNC /\
    strings_ContainsRune name ":" = false /\
    length args <= 8 /\ length body <= 8 /\ forallb exp_node body = true.
Proof.
  unfold parseFunc. unfold bind at 1.
  destruct (read p) as [[tk| | |] p1]; try discriminate.
  destruct (Typ tk) eqn:Htk; try discriminate.
  unfold bind at 1.
  destruct (read p1) as [[tk2| | |] p2]; try discriminate.
  destruct (Typ tk2); try discriminate.
  destruct (strings_ContainsRune (SVal tk2) ":") eqn:Hcolon; [discriminate|].
  unfold bind at 1.
  destruct (read p2) as [[tk3| | |] p3]; try discriminate.
  destruct (Typ tk3); try discriminate.
  unfold bind at 1.
  destruct (parseFunc_args (p_fuel p3) [] p3) as [[args| | |] p4] eqn:Hargs;
    try discriminate.
  apply parseFunc_args_result in Hargs; [|cbn; lia].
  unfold bind at 1.
  destruct (read p4) as [[tk4| | |] p5]; try discriminate.
  destruct (Typ tk4); try discriminate.
  unfold bind at 1.
  destruct (parseFunc_rets (p_fuel p5) [] p5) as [[rets| | |] p6]; try discriminate.
  unfold bind at 1.
  destruct (read_unchecked p6) as [[tk5| | |] p7]; try discriminate.
  destruct (Typ tk5); try discriminate.
  unfold bind at 1.
  destruct (parseFunc_body (p_fuel p7) [] p7) as [[bodies| | |] p8] eqn:Hbody;
    try discriminate.
  apply parseFunc_body_result in Hbody; [|cbn; lia|reflexivity].
  destruct Hbody as [Hb1 Hb2].
  intros [= <- _]. exists (SVal tk2), args, bodies, rets, tk.
  repeat split; auto.
Qed.

Lemma parseFunc_result_witness :
  let p := NewParser (NewTokenizerString "func main [(a int)] [float] {5 square.i; 1.5;}") in
  exists fn, parseFunc p = (Ok fn, snd (parseFunc p)) /\
  exists name args body rets tk,
    fn = FuncNode name args body rets (Some tk) /\
    fst (read p) = Ok tk /\ Typ tk = TT_FUNC /\
    strings_ContainsRune name ":" = false /\
    length args <= 8 /\ length body <= 8 /\ forallb exp_node body = true.
Proof.
  intros p.
  assert (Hex : exists fn, parseFunc p = (Ok fn, snd (parseFunc p)))
    by (eexists; vm_compute; reflexivity).
  destruct Hex as (fn & H). exists fn. split; [exact H|].
  apply (parseFunc_result p fn (snd (parseFunc p)) H).
Defined.

(** ** Lexemes *)

Lemma append_assoc (a b c : string) : (a +:+ b) +:+ c = a +:+ (b +:+ c).
Proof.
  induction a as [|x a IH]; [reflexivity|].
  change (String x ((a +:+ b) +:+ c) = String x (a +:+ (b +:+ c))).
  rewrite IH. reflexivity.
Qed.

Lemma append_empty_r (a : string) : a = a +:+ "".
Proof.
  induction a as [|x a IH]; [reflexivity|].
  change (String x a = String x (a +:+ "")). rewrite <- IH. reflexivity.
Qed.

Lemma isident_range rn : isident rn = true -> (0 <= rn < 256)%Z.
Proof.
  unfold isident, isletter. intros H.
  change (rn_of "a") with 97%Z in H. change (rn_of "z") with 122%Z in H.
  change (rn_of "A") with 65%Z in H. change (rn_of "Z") with 90%Z in H.
  change (rn_of ".") with 46%Z in H. change (rn_of ":") with 58%Z in H.
  destruct ((97 <=? rn)%Z && (rn <=? 122)%Z) eqn:E1; [lia|].
  destruct ((65 <=? rn)%Z && (rn <=? 90)%Z) eqn:E2; [lia|].
  cbn in H. lia.
Qed.

Lemma rn_of_ascii_of rn :
  (0 <= rn < 256)%Z -> rn_of (ascii_of_nat (Z.to_nat rn)) = rn.
Proof. intros H. unfold rn_of. rewrite nat_ascii_embedding by lia. lia. Qed.

Lemma isletter_range rn : isletter rn = true -> (0 <= rn < 256)%Z.
Proof.
  intros H. apply isident_range. unfold isident. rewrite H. reflexivity.
Qed.

Lemma WriteRune_first rn s :
  WriteRune "" rn +:+ s = String (ascii_of_nat (Z.to_nat rn)) s.
Proof. reflexivity. Qed.

Lemma ident_loop_lexeme fuel : forall buf t str t',
  ident_loop fuel buf t = (Ok str, t') ->
  exists s, str = buf +:+ s /\ forallb isident (runes_of_string s) = true.
Proof.
  induction fuel as [|fuel IH]; intros buf t str t'; [discriminate|].
  cbn [ident_loop]. unfold bind at 1.
  destruct (tz_read t) as [[rn| | |] t1]; try discriminate.
  destruct (rn =? eof)%Z.
  { intros [= <- _]. exists "". split; [|reflexivity].
    apply append_empty_r. }
  destruct (isident rn) eqn:Hid.
  - intros H. destruct (IH _ _ _ _ H) as (s & -> & Hs).
    exists (String (ascii_of_nat (Z.to_nat rn)) s). split.
    + unfold WriteRune. rewrite append_assoc. reflexivity.
    + cbn. rewrite rn_of_ascii_of by (apply isident_range; exact Hid).
      rewrite Hid. exact Hs.
  - unfold bind. destruct (tz_unread rn t1) as [[[]| | |] t2]; try discriminate.
    intros [= <- _]. exists "". split; [|reflexivity].
    apply append_empty_r.
Qed.

Lemma Next_inv t tk t' :
  Next t = (Ok tk, t') ->
  exists rn t1, Next_skip (tz_fuel t) t = (Ok rn, t1) /\
    ((t' = t1 /\ single_token tk t1 /\ (Typ tk = TT_EOF <-> rn = eof)) \/
     ((isletter rn = true \/ rn = rn_of "%") /\ ident rn t1 = (Ok tk, t')) \/
     ((isdigit rn = true \/ rn = rn_of "-") /\ litintfloat rn t1 = (Ok tk, t'))).
Proof.
  unfold Next. unfold bind at 1.
  destruct (Next_skip (tz_fuel t) t) as [[rn| | |] t1]; try discriminate.
  intros H. exists rn, t1. split; [reflexivity|]. revert H.
  repeat match goal with
         | |- (if (rn =? ?c)%Z then mk _ _ else _) _ = _ -> _ =>
             let E := fresh "E" in
             destruct (rn =? c)%Z eqn:E;
             [apply Z.eqb_eq in E; rewrite mk_eq; intros [= <- <-]; left;
              split; [reflexivity|]; split;
              [split; [reflexivity|split; [discriminate|reflexivity]]|];
              split; [discriminate | intros ->; discriminate E] |]
         end.
  destruct (isletter rn || (rn =? rn_of "%")%Z) eqn:Hid.
  { intros H. right; left. split; [|exact H].
    apply orb_true_iff in Hid as [Hl|Hp]; [left; exact Hl | right; apply Z.eqb_eq; exact Hp]. }
  destruct (isdigit rn || (rn =? rn_of "-")%Z) eqn:Hnum.
  { intros H. right; right. split; [|exact H].
    apply orb_true_iff in Hnum as [Hd|Hm]; [left; exact Hd | right; apply Z.eqb_eq; exact Hm]. }
  destruct (rn =? eof)%Z eqn:Heof.
  - apply Z.eqb_eq in Heof. rewrite mk_eq. intros [= <- <-]. left.
    split; [reflexivity|]. split; [split; [reflexivity|split; [discriminate|reflexivity]]|].
    split; auto.
  - unfold bind, filepos, fail. discriminate.
Qed.

Lemma ident_inv rn t tk t' :
  ident rn t = (Ok tk, t') ->
  exists s, SVal tk = WriteRune "" rn +:+ s /\
    forallb isident (runes_of_string s) = true /\
    Typ tk = (if String.eqb (SVal tk) "func" then TT_FUNC else TT_IDENT) /\
    filepos t' = (Ok (Pos tk), t').
Proof.
  unfold ident. unfold bind at 1.
  destruct (ident_loop (tz_fuel t) (WriteRune "" rn) t) as [[str| | |] t1] eqn:Hloop;
    try discriminate.
  destruct (ident_loop_lexeme _ _ _ _ _ Hloop) as (s & -> & Hs).
  intros H. exists s.
  destruct (String.eqb (WriteRune "" rn +:+ s) "func") eqn:Hf;
    rewrite mk_eq in H; injection H as <- <-; cbn [SVal Typ Pos]; rewrite Hf;
    repeat split; auto.
Qed.

Lemma filter_app_length {A} (f : A -> bool) (l1 l2 : list A) :
  length (List.filter f (l1 ++ l2)) = length (List.filter f l1) + length (List.filter f l2).
Proof. rewrite List.filter_app, length_app. reflexivity. Qed.

Lemma points_app a b : points (a +:+ b) = points a + points b.
Proof. unfold points. rewrite runes_of_string_app. apply filter_app_length. Qed.

Lemma runes_of_rune rn :
  (0 <= rn < 256)%Z ->
  runes_of_string (String (ascii_of_nat (Z.to_nat rn)) "") = [rn].
Proof. intros H. cbn. rewrite rn_of_ascii_of by exact H. reflexivity. Qed.

(** The loop of [litintfloat] appends digits and points only, and a point
    exactly when [seenDot] turns true. *)
Lemma litintfloat_loop_lexeme fuel : forall buf sd t str sd' t',
  litintfloat_loop fuel buf sd t = (Ok (str, sd'), t') ->
  exists s, str = buf +:+ s /\
    forallb digit_or_point (runes_of_string s) = true /\
    points s = (if sd' && negb sd then 1 else 0) /\
    (sd = true -> sd' = true).
Proof.
  induction fuel as [|fuel IH]; intros buf sd t str sd' t'; [discriminate|].
  cbn [litintfloat_loop]. unfold bind at 1.
  destruct (tz_read t) as [[rn| | |] t1]; try discriminate.
  assert (Hstop : exists s, buf = buf +:+ s /\
            forallb digit_or_point (runes_of_string s) = true /\
            points s = (if sd && negb sd then 1 else 0) /\ (sd = true -> sd = true)).
  { exists "". split; [apply append_empty_r|]. split; [reflexivity|].
    split; [destruct sd; reflexivity | auto]. }
  destruct (rn =? eof)%Z.
  { intros [= <- <- _]. exact Hstop. }
  destruct (isdigit rn) eqn:Hd.
  { intros H. destruct (IH _ _ _ _ _ _ H) as (s & -> & Hs & Hp & Hsd).
    pose proof (isdigit_range rn Hd) as Hr.
    exists (String (ascii_of_nat (Z.to_nat rn)) s). split.
    { unfold WriteRune. rewrite append_assoc. reflexivity. }
    split.
    { cbn. rewrite rn_of_ascii_of by exact Hr. unfold digit_or_point at 1.
      rewrite Hd. exact Hs. }
    split; [|exact Hsd].
    change (String (ascii_of_nat (Z.to_nat rn)) s)
      with (String (ascii_of_nat (Z.to_nat rn)) "" +:+ s).
    rewrite points_app, Hp. unfold points. rewrite runes_of_rune by exact Hr.
    cbn [List.filter]. 
    assert (Hne : (rn =? rn_of ".")%Z = false).
    { apply Z.eqb_neq. intros ->. discriminate Hd. }
    rewrite Hne. reflexivity. }
  destruct (rn =? rn_of ".")%Z eqn:Hdot.
  - destruct sd; [unfold bind, filepos, fail; discriminate|].
    intros H. destruct (IH _ _ _ _ _ _ H) as (s & -> & Hs & Hp & Hsd).
    apply Z.eqb_eq in Hdot. subst rn.
    exists (String "." s). split.
    { unfold WriteRune. rewrite append_assoc. reflexivity. }
    split; [exact Hs|]. rewrite (Hsd eq_refl) in *. split; [|auto].
    change (String "." s) with ("." +:+ s). rewrite points_app, Hp. reflexivity.
  - unfold bind, tz_unread. destruct (negb (t_rn t1 =? eof)%Z); [discriminate|].
    cbn. intros [= <- <- _]. exact Hstop.
Qed.

Lemma litintfloat_inv rn t tk t' :
  litintfloat rn t = (Ok tk, t') ->
  exists s, SVal tk = WriteRune "" rn +:+ s /\ SVal tk <> "-" /\
    forallb digit_or_point (runes_of_string s) = true /\
    ((Typ tk = TT_LITINT /\ points s = 0) \/ (Typ tk = TT_LITFLOAT /\ points s = 1)) /\
    filepos t' = (Ok (Pos tk), t').
Proof.
  unfold litintfloat. unfold bind at 1.
  destruct (litintfloat_loop (tz_fuel t) (WriteRune "" rn) false t)
    as [[[str sd]| | |] t1] eqn:Hloop; try discriminate.
  destruct (litintfloat_loop_lexeme _ _ _ _ _ _ _ Hloop) as (s & -> & Hs & Hp & _).
  destruct (String.eqb (WriteRune "" rn +:+ s) "-") eqn:Hminus;
    [unfold bind, filepos, fail; discriminate|].
  apply String.eqb_neq in Hminus.
  intros H. exists s.
  destruct sd; rewrite mk_eq in H; injection H as <- <-; cbn [SVal Typ Pos];
    repeat split; auto.
Qed.

Lemma digits_value_total s : forall acc,
  forallb isdigit (runes_of_string s) = true -> exists v, digits_value s acc = Some v.
Proof.
  induction s as [|c s IH]; intros acc H; [exists acc; reflexivity|].
  cbn in H. apply andb_true_iff in H as [Hc Hs].
  cbn [digits_value]. unfold digit_of. rewrite Hc. apply IH. exact Hs.
Qed.

Lemma no_point_digits s :
  forallb digit_or_point (runes_of_string s) = true -> points s = 0 ->
  forallb isdigit (runes_of_string s) = true.
Proof.
  unfold points. induction (runes_of_string s) as [|rn l IH]; [reflexivity|].
  cbn [forallb List.filter]. intros H Hp. apply andb_true_iff in H as [Hrn Hl].
  destruct (rn =? rn_of ".")%Z eqn:Hdot; [discriminate Hp|].
  unfold digit_or_point in Hrn. rewrite Hdot, orb_false_r in Hrn.
  rewrite Hrn. apply IH; assumption.
Qed.


(** X3.  [Next] never returns a token of kind [TT_COLON] or [TT_IF], the
    two kinds no branch of the tokenizer builds; and a token of a kind with
    one spelling (punctuation, [func], end of input) carries exactly that
    spelling as its lexeme. *)
Theorem Next_token_kinds (t : tokenizer) (tk : Token) (t' : tokenizer) :
  Next t = (Ok tk, t') ->
  Typ tk <> TT_COLON /\ Typ tk <> TT_IF /\
  (forall s, fixed_lexeme (Typ tk) = Some s -> SVal tk = s).
Proof.
  intros H. destruct (Next_inv _ _ _ H) as (rn & t1 & _ & [(_ & (Hfix & _) & _)|[[_ Hi]|[_ Hn]]]).
  - split; [intros E; rewrite E in Hfix; discriminate|].
    split; [intros E; rewrite E in Hfix; discriminate|].
    intros s Hs. congruence.
  - destruct (ident_inv _ _ _ _ Hi) as (s & _ & _ & Ht & _).
    destruct (String.eqb (SVal tk) "func") eqn:Hf; rewrite Ht;
      (split; [discriminate|]); (split; [discriminate|]); intros s' [=].
    apply String.eqb_eq in Hf. congruence.
  - destruct (litintfloat_inv _ _ _ _ Hn) as (s & _ & _ & _ & [[Ht _]|[Ht _]] & _);
      rewrite Ht; (split; [discriminate|]); (split; [discriminate|]); intros s' [=].
Qed.

Lemma Next_token_kinds_witness :
  let tk := mkToken "func" TT_FUNC (mkFilePos 1 6 "<memory>") in
  fst (Next (NewTokenizerString "func main")) = Ok tk /\
  Typ tk <> TT_COLON /\ Typ tk <> TT_IF /\
  (forall s, fixed_lexeme (Typ tk) = Some s -> SVal tk = s).
Proof.
  intros tk. split; [vm_compute; reflexivity|].
  eapply (Next_token_kinds (NewTokenizerString "func main") tk).
  vm_compute. reflexivity.
Defined.

(** X4.  The lexeme of an [IDENT] or [FUNC] token begins with a letter or
    a percent sign and continues with letters, points and colons only, so
    it holds no digit; the kind is [FUNC] exactly when the lexeme is
    [func]. *)
Theorem Next_identifier_lexeme (t : tokenizer) (tk : Token) (t' : tokenizer) :
  Next t = (Ok tk, t') ->
  Typ tk = TT_IDENT \/ Typ tk = TT_FUNC ->
  exists c s, SVal tk = String c s /\
    (isletter (rn_of c) = true \/ c = "%"%char) /\
    forallb isident (runes_of_string s) = true /\
    (Typ tk = TT_FUNC <-> SVal tk = "func").
Proof.
  intros H Hk.
  destruct (Next_inv _ _ _ H) as (rn & t1 & _ & [(_ & (Hfix & Hnf & _) & _)|[[Hrn Hi]|[_ Hn]]]).
  - exfalso. destruct Hk as [Hk|Hk]; [rewrite Hk in Hfix; discriminate | contradiction].
  - destruct (ident_inv _ _ _ _ Hi) as (s & Hs & Hall & Ht & _).
    rewrite WriteRune_first in Hs.
    exists (ascii_of_nat (Z.to_nat rn)), s. split; [exact Hs|]. split.
    { destruct Hrn as [Hl| ->]; [left | right; reflexivity].
      rewrite rn_of_ascii_of by (apply isletter_range; exact Hl). exact Hl. }
    split; [exact Hall|]. rewrite Ht.
    destruct (String.eqb (SVal tk) "func") eqn:Hf.
    + apply String.eqb_eq in Hf. split; auto.
    + apply String.eqb_neq in Hf. split; [discriminate | contradiction].
  - exfalso.
    destruct (litintfloat_inv _ _ _ _ Hn) as (s & _ & _ & _ & [[Ht _]|[Ht _]] & _);
      destruct Hk as [Hk|Hk]; congruence.
Qed.

Lemma Next_identifier_lexeme_witness :
  let tk := mkToken "%foo.bar:baz" TT_IDENT (mkFilePos 1 14 "<memory>") in
  fst (Next (NewTokenizerString "%foo.bar:baz2")) = Ok tk /\
  exists c s, SVal tk = String c s /\
    (isletter (rn_of c) = true \/ c = "%"%char) /\
    forallb isident (runes_of_string s) = true /\
    (Typ tk = TT_FUNC <-> SVal tk = "func").
Proof.
  intros tk. split; [vm_compute; reflexivity|].
  eapply (Next_identifier_lexeme (NewTokenizerString "%foo.bar:baz2") tk).
  - vm_compute. reflexivity.
  - left. reflexivity.
Defined.

(** X5.  The lexeme of a [LITINT] token is an optional minus sign followed
    by at least one digit and nothing else.  [strconv.ParseInt], as
    [parseData] calls it, therefore fails on such a lexeme for one reason
    only, a value outside the range of [int64], and otherwise returns the
    value of the digits with the sign. *)
Theorem Next_integer_lexeme (t : tokenizer) (tk : Token) (t' : tokenizer) :
  Next t = (Ok tk, t') ->
  Typ tk = TT_LITINT ->
  exists (neg : bool) ds v,
    SVal tk = (if neg then "-" else "") +:+ ds /\ ds <> "" /\
    forallb isdigit (runes_of_string ds) = true /\
    digits_value ds 0 = Some v /\
    strconv_ParseInt (SVal tk) =
      if neg then (if (v <=? 2 ^ 63)%Z then Some (- v)%Z else None)
      else (if (v <? 2 ^ 63)%Z then Some v else None).
Proof.
  intros H Hk.
  destruct (Next_inv _ _ _ H) as (rn & t1 & _ & [(_ & (Hfix & _) & _)|[[_ Hi]|[Hrn Hn]]]).
  - exfalso. rewrite Hk in Hfix. discriminate.
  - exfalso. destruct (ident_type _ _ _ _ Hi); congruence.
  - destruct (litintfloat_inv _ _ _ _ Hn) as (s & Hs & Hminus & Hall & [[_ Hp]|[Ht _]] & _);
      [|congruence].
    rewrite WriteRune_first in Hs.
    pose proof (no_point_digits s Hall Hp) as Hds.
    destruct Hrn as [Hd| ->].
    + pose proof (isdigit_range rn Hd) as Hr.
      set (c := ascii_of_nat (Z.to_nat rn)) in *.
      assert (Hc : rn_of c = rn) by (apply rn_of_ascii_of; exact Hr).
      assert (Hall' : forallb isdigit (runes_of_string (String c s)) = true).
      { cbn. rewrite Hc, Hd. exact Hds. }
      destruct (digits_value_total (String c s) 0%Z Hall') as (v & Hv).
      exists false, (String c s), v. split; [exact Hs|]. split; [discriminate|].
      split; [exact Hall'|]. split; [exact Hv|].
      rewrite Hs. unfold strconv_ParseInt.
      assert (Hm : Ascii.eqb c "-" = false).
      { apply Ascii.eqb_neq. intros E. rewrite E in Hc. rewrite <- Hc in Hd. discriminate Hd. }
      assert (Hpl : Ascii.eqb c "+" = false).
      { apply Ascii.eqb_neq. intros E. rewrite E in Hc. rewrite <- Hc in Hd. discriminate Hd. }
      rewrite Hm, Hpl, Hv. reflexivity.
    + change (ascii_of_nat (Z.to_nat (rn_of "-"))) with "-"%char in Hs.
      destruct (digits_value_total s 0%Z Hds) as (v & Hv).
      exists true, s, v. split; [exact Hs|]. split.
      { intros ->. apply Hminus. exact Hs. }
      split; [exact Hds|]. split; [exact Hv|].
      rewrite Hs. unfold strconv_ParseInt. cbn [Ascii.eqb Bool.eqb].
      destruct s as [|c s]; [exfalso; apply Hminus; exact Hs|].
      rewrite Hv. reflexivity.
Qed.

Lemma Next_integer_lexeme_witness :
  let tk := mkToken "-399" TT_LITINT (mkFilePos 1 6 "<memory>") in
  fst (Next (NewTokenizerString "-399;")) = Ok tk /\
  exists (neg : bool) ds v,
    SVal tk = (if neg then "-" else "") +:+ ds /\ ds <> "" /\
    forallb isdigit (runes_of_string ds) = true /\
    digits_value ds 0 = Some v /\
    strconv_ParseInt (SVal tk) =
      if neg then (if (v <=? 2 ^ 63)%Z then Some (- v)%Z else None)
      else (if (v <? 2 ^ 63)%Z then Some v else None).
Proof.
  intros tk. split; [vm_compute; reflexivity|].
  eapply (Next_integer_lexeme (NewTokenizerString "-399;") tk).
  - vm_compute. reflexivity.
  - reflexivity.
Defined.

(** X6.  The lexeme of a [LITFLOAT] token begins with a digit or a minus
    sign and continues with digits and exactly one point; it holds a digit
    unless it is the minus sign followed by the point. *)
Theorem Next_float_lexeme (t : tokenizer) (tk : Token) (t' : tokenizer) :
  Next t = (Ok tk, t') ->
  Typ tk = TT_LITFLOAT ->
  (exists c s, SVal tk = String c s /\
     (isdigit (rn_of c) = true \/ c = "-"%char) /\
     forallb digit_or_point (runes_of_string s) = true /\
     points s = 1) /\
  (has_digit (SVal tk) = true \/ SVal tk = "-.").
Proof.
  intros H Hk. split.
  - destruct (Next_inv _ _ _ H) as (rn & t1 & _ & [(_ & (Hfix & _) & _)|[[_ Hi]|[Hrn Hn]]]).
    + exfalso. rewrite Hk in Hfix. discriminate.
    + exfalso. destruct (ident_type _ _ _ _ Hi); congruence.
    + destruct (litintfloat_inv _ _ _ _ Hn) as (s & Hs & _ & Hall & [[Ht _]|[_ Hp]] & _);
        [congruence|].
      rewrite WriteRune_first in Hs.
      exists (ascii_of_nat (Z.to_nat rn)), s. split; [exact Hs|]. split; [|auto].
      destruct Hrn as [Hd| ->]; [left | right; reflexivity].
      rewrite rn_of_ascii_of by (apply isdigit_range; exact Hd). exact Hd.
  - destruct (Next_numeric_lexeme _ _ _ H (or_intror Hk)) as [Hd|[Hs _]]; auto.
Qed.

Lemma Next_float_lexeme_witness :
  let tk := mkToken "5." TT_LITFLOAT (mkFilePos 1 4 "<memory>") in
  fst (Next (NewTokenizerString "5.func")) = Ok tk /\
  (exists c s, SVal tk = String c s /\
     (isdigit (rn_of c) = true \/ c = "-"%char) /\
     forallb digit_or_point (runes_of_string s) = true /\
     points s = 1) /\
  (has_digit (SVal tk) = true \/ SVal tk = "-.").
Proof.
  intros tk. split; [vm_compute; reflexivity|].
  eapply (Next_float_lexeme (NewTokenizerString "5.func") tk).
  - vm_compute. reflexivity.
  - reflexivity.
Defined.

(** ** End of input and positions *)


Lemma Next_skip_eof fuel : forall t t1,
  Next_skip fuel t = (Ok eof, t1) -> ~ In eof (t_r t) ->
  t_r t1 = [] /\ t_rn t1 = eof.
Proof.
  induction fuel as [|fuel IH]; intros t t1; [discriminate|].
  cbn [Next_skip]. unfold bind at 1. unfold tz_read.
  destruct (t_rn t =? eof)%Z eqn:Hrn; cbn [negb].
  - destruct (t_r t) as [|rn rest] eqn:Hr.
    + cbn. intros [= <-] _. apply Z.eqb_eq in Hrn. auto.
    + intros H Hin.
      assert (Hne : rn <> eof) by (intros ->; apply Hin; left; reflexivity).
      assert (Hrest : ~ In eof rest) by (intros Hx; apply Hin; right; exact Hx).
      apply Z.eqb_neq in Hne.
      destruct (rn =? rn_of "010")%Z; [|destruct (negb (rn =? rn_of "013")%Z)];
        (destruct (negb (iswhitespace rn) || (rn =? eof)%Z);
         [cbn in H; injection H as -> _; discriminate Hne
         | apply IH in H; [exact H | exact Hrest]]).
  - intros H Hin.
    destruct (negb (iswhitespace (t_rn t)) || (t_rn t =? eof)%Z).
    + cbn in H. injection H as H _. rewrite H in Hrn. discriminate Hrn.
    + apply IH in H; [exact H | exact Hin].
Qed.

Lemma Next_at_end t :
  t_r t = [] -> t_rn t = eof ->
  Next t = (Ok (mkToken "<eof>" TT_EOF
                  (mkFilePos (t_lineno t) (t_charno t) (t_fpath t))), t).
Proof.
  destruct t as [r f l c rn]. cbn. intros -> ->. reflexivity.
Qed.

(** X7.  On an input without the rune 0, which the tokenizer uses as its
    end-of-input mark, the [EOF] token is final: when [Next] returns it the
    reader is exhausted and the pushback empty, and every further call
    returns the same token and leaves the tokenizer as it is. *)
Theorem Next_eof_is_final (t : tokenizer) (tk : Token) (t' : tokenizer) :
  ~ In eof (t_r t) ->
  Next t = (Ok tk, t') -> Typ tk = TT_EOF ->
  t_r t' = [] /\ t_rn t' = eof /\ Next t' = (Ok tk, t').
Proof.
  intros Hnul H Hk.
  destruct (Next_inv _ _ _ H) as (rn & t1 & Hskip & [(-> & (Hfix & _ & Hpos) & Heof)|[[_ Hi]|[_ Hn]]]).
  - pose proof (proj1 Heof Hk) as Hrn0. subst rn.
    destruct (Next_skip_eof _ _ _ Hskip Hnul) as [Hr Hrn].
    split; [exact Hr|]. split; [exact Hrn|].
    rewrite (Next_at_end t1 Hr Hrn). f_equal.
    destruct tk as [sv k pos]. cbn in *. subst k. cbn in Hfix.
    injection Hfix as <-. unfold filepos in Hpos. injection Hpos as <-. reflexivity.
  - exfalso. destruct (ident_type _ _ _ _ Hi); congruence.
  - exfalso.
    destruct (litintfloat_inv _ _ _ _ Hn) as (s & _ & _ & _ & [[Ht _]|[Ht _]] & _); congruence.
Qed.

Lemma Next_eof_is_final_witness :
  let t := NewTokenizerString "x  " in
  let t1 := snd (Next t) in
  let tk := mkToken "<eof>" TT_EOF (mkFilePos 1 4 "<memory>") in
  ~ In eof (t_r t1) /\ Next t1 = (Ok tk, snd (Next t1)) /\
  t_r (snd (Next t1)) = [] /\ t_rn (snd (Next t1)) = eof /\
  Next (snd (Next t1)) = (Ok tk, snd (Next t1)).
Proof.
  intros t t1 tk.
  assert (Hnul : ~ In eof (t_r t1)).
  { intros Hin. vm_compute in Hin. destruct Hin as [Hin|[]]. discriminate Hin. }
  assert (HN : Next t1 = (Ok tk, snd (Next t1))) by (vm_compute; reflexivity).
  split; [exact Hnul|]. split; [exact HN|].
  apply (Next_eof_is_final t1 tk (snd (Next t1)) Hnul HN). reflexivity.
Defined.










